(** * Bilateral normal integration: a shallow embedding

    The development follows [bilateral_normal_integration_cupy.py]:
    the mask shifts [move_left] ... [move_bottom_right], the difference
    operators of [generate_dx_dy], the quad facets of
    [construct_facets_from], the point cloud of
    [map_depth_map_to_point_clouds], [sigmoid], the iteratively reweighted
    least-squares loop of [bilateral_normal_integration] with the maps
    and the mesh it returns, and the decoding of the normal image in the
    script.

    Arithmetic is idealised: a floating-point number is a real number or
    the not-a-number value, there is no rounding and no overflow.  The
    conjugate-gradient solver [cg] belongs to the array library and is a
    parameter of the development.

    [bilateral_normal_integration] returns a [result]: the outputs, or the
    error of the first array operation that raises.  These are the
    boolean indexing of an array by a mask of another shape, the call of
    [cp.meshgrid] on [range] objects in the perspective case, and the
    read of [wv] after a loop without iteration.  The definitions
    [select], [coefficients], [assemble] and [make_prior] hold the values
    the lines compute when these operations went through. *)

From Stdlib Require Import List Arith PeanoNat Lia Bool FinFun Sorted Reals Lra.
Import ListNotations.

(** ** Scalars *)

(** An array element: a real number, or NaN.  The program divides in three
    places: the difference operators by [step_size], the sum of the prior
    residuals by their number in [cp.nanmean], and the energy difference by
    the previous energy.  A division by zero gives a non-finite value
    (an infinity, or NaN for [0 / 0]), which this model does not
    distinguish from NaN: the comparison [< tol] is false for NaN and for
    an infinity alike, and sums and products of non-finite values stay
    non-finite. *)
Inductive num : Type :=
| Num (r : R)
| NaN.

Definition is_num (a : num) : Prop :=
  match a with Num _ => True | NaN => False end.

Definition lift1 (f : R -> R) (a : num) : num :=
  match a with Num x => Num (f x) | NaN => NaN end.

Definition lift2 (f : R -> R -> R) (a b : num) : num :=
  match a, b with Num x, Num y => Num (f x y) | _, _ => NaN end.

Definition nadd : num -> num -> num := lift2 Rplus.
Definition nsub : num -> num -> num := lift2 Rminus.
Definition nmul : num -> num -> num := lift2 Rmult.
Definition nneg : num -> num := lift1 Ropp.
Definition nabs : num -> num := lift1 Rabs.
Definition nexp : num -> num := lift1 exp.

(** [x ** 2] *)
Definition nsq (a : num) : num := nmul a a.

Definition ndiv (a b : num) : num :=
  match a, b with
  | Num x, Num y => if Req_dec_T y 0 then NaN else Num (x / y)
  | _, _ => NaN
  end.

(** [cp.log]: the logarithm of a non-positive number is not finite. *)
Definition nlog (a : num) : num :=
  match a with
  | Num x => if Rlt_dec 0 x then Num (ln x) else NaN
  | NaN => NaN
  end.

(** [a < b]; a comparison with NaN is false. *)
Definition nlt (a b : num) : bool :=
  match a, b with
  | Num x, Num y => if Rlt_dec x y then true else false
  | _, _ => false
  end.

(** [a == 0]; false for NaN. *)
Definition is_zero (a : num) : bool :=
  match a with
  | Num x => if Req_dec_T x 0 then true else false
  | NaN => false
  end.

Definition nsum (l : list num) : num := fold_right nadd (Num 0) l.

Definition of_nat (n : nat) : num := Num (INR n).

(** ** Vectors *)

Definition vec := list num.

Fixpoint map2 {A B C : Type} (f : A -> B -> C) (l1 : list A) (l2 : list B)
  : list C :=
  match l1, l2 with
  | a :: t1, b :: t2 => f a b :: map2 f t1 t2
  | _, _ => []
  end.

Definition vadd : vec -> vec -> vec := map2 nadd.
Definition vsub : vec -> vec -> vec := map2 nsub.
Definition vmul : vec -> vec -> vec := map2 nmul.
Definition vneg : vec -> vec := map nneg.
Definition vsq : vec -> vec := map nsq.

(** [v + s], [v - s], [s - v] with a scalar [s] (broadcasting) *)
Definition vadd_scalar (v : vec) (s : num) : vec := map (fun x => nadd x s) v.
Definition vsub_scalar (v : vec) (s : num) : vec := map (fun x => nsub x s) v.
Definition scalar_sub (s : num) (v : vec) : vec := map (fun x => nsub s x) v.

(** [u @ v] for two vectors *)
Definition dot (u v : vec) : num := nsum (vmul u v).

(** [cp.nanmean]: the mean of the entries that are not NaN; with no such
    entry the quotient is 0/0. *)
Definition not_nan (a : num) : bool :=
  match a with Num _ => true | NaN => false end.

Definition nanmean (v : vec) : num :=
  let kept := filter not_nan v in
  ndiv (nsum kept) (of_nat (length kept)).

(** [cp.mean] *)
Definition mean (v : vec) : num := ndiv (nsum v) (of_nat (length v)).

(** ** Two-dimensional arrays *)

Definition grid (A : Type) := list (list A).

Definition get {A : Type} (d : A) (g : grid A) (r c : nat) : A :=
  nth c (nth r g []) d.

(** [H, W = a.shape]; an array without rows is given width 0. *)
Definition height {A : Type} (g : grid A) : nat := length g.
Definition width {A : Type} (g : grid A) : nat := length (hd [] g).

(** The arrays the program receives are rectangular. *)
Definition rect {A : Type} (H W : nat) (g : grid A) : Prop :=
  length g = H /\ Forall (fun row => length row = W) g.

(** [cp.sum(mask)] *)
Definition count_row (row : list bool) : nat := length (filter (fun b : bool => b) row).
Definition count (m : grid bool) : nat :=
  fold_right (fun row n => count_row row + n) 0 m.

(** [a[m]] on one row *)
Fixpoint masked {A : Type} (vals : list A) (m : list bool) : list A :=
  match vals, m with
  | v :: vs, b :: bs => if b then v :: masked vs bs else masked vs bs
  | _, _ => []
  end.

(** [a[mask]]: the entries of [a] under the true cells of [mask], in
    row-major order, for a mask of the shape of [a].  On a mask of another
    shape the array library raises IndexError; that check is
    [boolean_index] below, which the function runs before it reads the
    entries with [select]. *)
Fixpoint select {A : Type} (a : grid A) (mask : grid bool) : list A :=
  match a, mask with
  | ra :: ta, rm :: tm => masked ra rm ++ select ta tm
  | _, _ => []
  end.

(** [a[m] = vals] on one row: the changed row and the values left over *)
Fixpoint assign_row {A : Type} (a : list A) (m : list bool) (vals : list A)
  : list A * list A :=
  match a, m with
  | x :: ta, b :: tm =>
      if b then
        match vals with
        | v :: tv => let (row, rest) := assign_row ta tm tv in (v :: row, rest)
        | [] => let (row, rest) := assign_row ta tm [] in (x :: row, rest)
        end
      else let (row, rest) := assign_row ta tm vals in (x :: row, rest)
  | _, _ => (a, vals)
  end.

(** [a[mask] = vals]: the values fill the true cells in row-major order.
    The program assigns as many values as the mask has true cells; with
    fewer values, where the array library raises, the remaining cells keep
    their content. *)
Fixpoint assign {A : Type} (a : grid A) (mask : grid bool) (vals : list A)
  : grid A :=
  match a, mask with
  | ra :: ta, rm :: tm =>
      let (row, rest) := assign_row ra rm vals in row :: assign ta tm rest
  | _, _ => a
  end.

(** [cp.zeros_like], [cp.ones_like(mask) * x] *)
Definition full_like {A B : Type} (g : grid A) (x : B) : grid B :=
  map (map (fun _ => x)) g.

(** [cp.logical_and], and [*] on boolean arrays *)
Definition logical_and (a b : grid bool) : grid bool := map2 (map2 andb) a b.

(** [cp.pad(mask, ((top, bottom), (left, right)), "constant",
    constant_values=0)] *)
Definition pad (top bottom left right : nat) (mask : grid bool) : grid bool :=
  let W := left + width mask + right in
  repeat (repeat false W) top
  ++ map (fun row => repeat false left ++ row ++ repeat false right) mask
  ++ repeat (repeat false W) bottom.

(** The slices [[1:, :]], [[:-1, :]], [[:, 1:]] and [[:, :-1]]. *)
Definition drop_first_row {A : Type} (g : grid A) : grid A := tl g.
Definition drop_last_row {A : Type} (g : grid A) : grid A := removelast g.
Definition drop_first_col {A : Type} (g : grid A) : grid A := map (@tl A) g.
Definition drop_last_col {A : Type} (g : grid A) : grid A :=
  map (@removelast A) g.

Definition move_left (mask : grid bool) : grid bool :=
  drop_first_col (pad 0 0 0 1 mask).

Definition move_right (mask : grid bool) : grid bool :=
  drop_last_col (pad 0 0 1 0 mask).

Definition move_top (mask : grid bool) : grid bool :=
  drop_first_row (pad 0 1 0 0 mask).

Definition move_bottom (mask : grid bool) : grid bool :=
  drop_last_row (pad 1 0 0 0 mask).

Definition move_top_left (mask : grid bool) : grid bool :=
  drop_first_col (drop_first_row (pad 0 1 0 1 mask)).

Definition move_top_right (mask : grid bool) : grid bool :=
  drop_last_col (drop_first_row (pad 0 1 1 0 mask)).

Definition move_bottom_left (mask : grid bool) : grid bool :=
  drop_first_col (drop_last_row (pad 1 0 0 1 mask)).

Definition move_bottom_right (mask : grid bool) : grid bool :=
  drop_last_col (drop_last_row (pad 1 0 1 0 mask)).

(** [pixel_idx = cp.zeros_like(mask, dtype=int);
    pixel_idx[mask] = cp.arange(cp.sum(mask))] *)
Definition pixel_index (mask : grid bool) : grid nat :=
  assign (full_like mask 0) mask (seq 0 (count mask)).

(** ** Sparse matrices in coordinate format *)

(** [coo_matrix((data, (row, col)), shape)]: a list of entries (row,
    column, value); entries at the same position add up. *)
Record coo : Type := mk_coo {
  shape : nat * nat;
  entries : list (nat * nat * num)
}.

Definition nrows (A : coo) : nat := fst (shape A).
Definition ncols (A : coo) : nat := snd (shape A).

Definition entry_row (e : nat * nat * num) : nat := fst (fst e).
Definition entry_col (e : nat * nat * num) : nat := snd (fst e).
Definition entry_val (e : nat * nat * num) : num := snd e.

Definition coo_matrix (data : vec) (row_idx col_idx : list nat)
  (shp : nat * nat) : coo :=
  mk_coo shp (combine (combine row_idx col_idx) data).

Definition map_values (f : num -> num) (A : coo) : coo :=
  mk_coo (shape A)
    (map (fun e => (entry_row e, entry_col e, f (entry_val e))) (entries A)).

(** [A / s] and [s * A] *)
Definition sp_div (A : coo) (s : num) : coo := map_values (fun v => ndiv v s) A.
Definition sp_scale (s : num) (A : coo) : coo := map_values (fun v => nmul s v) A.

(** [diags(v)] *)
Definition diags (v : vec) : coo :=
  mk_coo (length v, length v)
    (map (fun iv => (fst iv, fst iv, snd iv)) (combine (seq 0 (length v)) v)).

(** [A.T] *)
Definition transpose (A : coo) : coo :=
  mk_coo (ncols A, nrows A)
    (map (fun e => (entry_col e, entry_row e, entry_val e)) (entries A)).

(** [A + B] *)
Definition sp_add (A B : coo) : coo := mk_coo (shape A) (entries A ++ entries B).

(** [A @ B] for two sparse matrices *)
Definition spmm (A B : coo) : coo :=
  mk_coo (nrows A, ncols B)
    (flat_map
       (fun a =>
          map (fun b => (entry_row a, entry_col b, nmul (entry_val a) (entry_val b)))
            (filter (fun b => entry_row b =? entry_col a) (entries B)))
       (entries A)).

(** [vstack((A1, ..., An))] *)
Fixpoint stack_entries (offset : nat) (blocks : list coo)
  : list (nat * nat * num) :=
  match blocks with
  | [] => []
  | A :: rest =>
      map (fun e => (offset + entry_row e, entry_col e, entry_val e)) (entries A)
      ++ stack_entries (offset + nrows A) rest
  end.

Definition vstack (blocks : list coo) : coo :=
  mk_coo (fold_right (fun A n => nrows A + n) 0 blocks,
          match blocks with A :: _ => ncols A | [] => 0 end)
    (stack_entries 0 blocks).

(** Row [i] of [A @ x]: only the stored entries of the row take part. *)
Definition row_entries (A : coo) (i : nat) : list (nat * nat * num) :=
  filter (fun e => entry_row e =? i) (entries A).

Definition row_dot (A : coo) (i : nat) (x : vec) : num :=
  nsum (map (fun e => nmul (entry_val e) (nth (entry_col e) x (Num 0)))
          (row_entries A i)).

(** [A @ x] for a vector [x] *)
Definition matvec (A : coo) (x : vec) : vec :=
  map (fun i => row_dot A i x) (seq 0 (nrows A)).

(** [x.T @ A] *)
Definition vecmat (x : vec) (A : coo) : vec := matvec (transpose A) x.

(** ** generate_dx_dy *)

(** [cp.tile(a, 2)] *)
Definition tile2 {A : Type} (a : list A) : list A := a ++ a.

Definition generate_dx_dy (mask : grid bool) (step_size : num)
  : coo * coo * coo * coo :=
  let pixel_idx := pixel_index mask in
  let num_pixel := count mask in
  let has_left_mask := logical_and (move_right mask) mask in
  let has_right_mask := logical_and (move_left mask) mask in
  let has_bottom_mask := logical_and (move_top mask) mask in
  let has_top_mask := logical_and (move_bottom mask) mask in
  let data_term :=
    repeat (Num (-1)) (count has_left_mask)
    ++ repeat (Num 1) (count has_left_mask) in
  let row_idx := select pixel_idx has_left_mask in
  let row_idx := tile2 row_idx in
  let col_idx :=
    select pixel_idx (move_left has_left_mask)
    ++ select pixel_idx has_left_mask in
  let D_horizontal_neg :=
    coo_matrix data_term row_idx col_idx (num_pixel, num_pixel) in
  let data_term :=
    repeat (Num (-1)) (count has_right_mask)
    ++ repeat (Num 1) (count has_right_mask) in
  let row_idx := select pixel_idx has_right_mask in
  let row_idx := tile2 row_idx in
  let col_idx :=
    select pixel_idx has_right_mask
    ++ select pixel_idx (move_right has_right_mask) in
  let D_horizontal_pos :=
    coo_matrix data_term row_idx col_idx (num_pixel, num_pixel) in
  let data_term :=
    repeat (Num (-1)) (count has_top_mask)
    ++ repeat (Num 1) (count has_top_mask) in
  let row_idx := select pixel_idx has_top_mask in
  let row_idx := tile2 row_idx in
  let col_idx :=
    select pixel_idx has_top_mask
    ++ select pixel_idx (move_top has_top_mask) in
  let D_vertical_pos :=
    coo_matrix data_term row_idx col_idx (num_pixel, num_pixel) in
  let data_term :=
    repeat (Num (-1)) (count has_bottom_mask)
    ++ repeat (Num 1) (count has_bottom_mask) in
  let row_idx := select pixel_idx has_bottom_mask in
  let row_idx := tile2 row_idx in
  let col_idx :=
    select pixel_idx (move_bottom has_bottom_mask)
    ++ select pixel_idx has_bottom_mask in
  let D_vertical_neg :=
    coo_matrix data_term row_idx col_idx (num_pixel, num_pixel) in
  (sp_div D_horizontal_pos step_size, sp_div D_horizontal_neg step_size,
   sp_div D_vertical_pos step_size, sp_div D_vertical_neg step_size).

(** ** construct_facets_from *)

(** [cp.hstack] of the five columns: one row [4, a, b, c, d] per facet. *)
Definition hstack5 (k a b c d : list nat) : list (list nat) :=
  map (fun t => match t with (k0, a0, b0, c0, d0) => [k0; a0; b0; c0; d0] end)
    (combine (combine (combine (combine k a) b) c) d).

Definition construct_facets_from (mask : grid bool) : list (list nat) :=
  let idx := pixel_index mask in
  let facet_move_top_mask := move_top mask in
  let facet_move_left_mask := move_left mask in
  let facet_move_top_left_mask := move_top_left mask in
  let facet_top_left_mask :=
    logical_and
      (logical_and (logical_and facet_move_top_mask facet_move_left_mask)
         facet_move_top_left_mask)
      mask in
  let facet_top_right_mask := move_right facet_top_left_mask in
  let facet_bottom_left_mask := move_bottom facet_top_left_mask in
  let facet_bottom_right_mask := move_bottom_right facet_top_left_mask in
  hstack5 (repeat 4 (count facet_top_left_mask))
    (select idx facet_top_left_mask)
    (select idx facet_bottom_left_mask)
    (select idx facet_bottom_right_mask)
    (select idx facet_top_right_mask).

(** ** sigmoid *)

Definition sigmoid (x k : num) : num :=
  ndiv (Num 1) (nadd (Num 1) (nexp (nmul (nneg k) x))).

(** ** bilateral_normal_integration *)

(** A pixel of the normal map: its three channels. *)
Definition normal : Type := (num * num * num)%type.

Definition channel0 (p : normal) : num := fst (fst p).
Definition channel1 (p : normal) : num := snd (fst p).
Definition channel2 (p : normal) : num := snd p.

(** [normal_map[..., i]] *)
Definition channel (f : normal -> num) (normal_map : grid normal) : grid num :=
  map (map f) normal_map.

(** [X, Y = cp.meshgrid(xs, ys)]: [X[i][j] = xs[j]] and [Y[i][j] = ys[i]]. *)
Definition meshgrid (xs ys : list nat) : grid nat * grid nat :=
  (map (fun _ => xs) ys, map (fun y => map (fun _ => y) xs) ys).

(** [cp.flip(a, axis=0)] *)
Definition flip0 {A : Type} (a : grid A) : grid A := rev a.

(** The vectors and matrices built before the loop. *)
Record linear_system : Type := mk_system {
  sys_nx : vec;
  sys_ny : vec;
  sys_nz : vec;
  sys_Nz_u : coo;
  sys_Nz_v : coo;
  sys_A1 : coo;
  sys_A2 : coo;
  sys_A3 : coo;
  sys_A4 : coo;
  sys_A : coo;
  sys_b : vec
}.

(** The coefficients [Nz_u], [Nz_v]: orthographic without a camera matrix
    (lines 217-219), perspective with a camera matrix [K] (lines 204-215).
    The perspective branch holds the values these lines compute from the
    grids [yy], [xx]; the program reaches them only when the call
    [cp.meshgrid(range(W), range(H))] of line 203 has returned, which is
    [pixel_grids] below. *)
Definition coefficients (normal_mask : grid bool) (K : option (grid num))
  (nx ny nz : vec) : coo * coo :=
  match K with
  | Some K =>
      let H := height normal_mask in
      let W := width normal_mask in
      let (yy, xx) := meshgrid (seq 0 W) (seq 0 H) in
      let xx := flip0 xx in
      let cx := get NaN K 0 2 in
      let cy := get NaN K 1 2 in
      let fx := get NaN K 0 0 in
      let fy := get NaN K 1 1 in
      let uu := vsub_scalar (map of_nat (select xx normal_mask)) cx in
      let vv := vsub_scalar (map of_nat (select yy normal_mask)) cy in
      (diags (vadd (vadd (vmul uu nx) (vmul vv ny)) (map (nmul fx) nz)),
       diags (vadd (vadd (vmul uu nx) (vmul vv ny)) (map (nmul fy) nz)))
  | None => (diags nz, diags nz)
  end.

Definition assemble (normal_map : grid normal) (normal_mask : grid bool)
  (K : option (grid num)) (step_size : num) : linear_system :=
  let nx := select (channel channel1 normal_map) normal_mask in
  let ny := select (channel channel0 normal_map) normal_mask in
  let nz := vneg (select (channel channel2 normal_map) normal_mask) in
  let (Nz_u, Nz_v) := coefficients normal_mask K nx ny nz in
  match generate_dx_dy normal_mask step_size with
  | (Dvp, Dvn, Dup, Dun) =>
      let A1 := spmm Nz_u Dup in
      let A2 := spmm Nz_u Dun in
      let A3 := spmm Nz_v Dvp in
      let A4 := spmm Nz_v Dvn in
      let A := vstack [A1; A2; A3; A4] in
      let b := vneg nx ++ vneg nx ++ vneg ny ++ vneg ny in
      mk_system nx ny nz Nz_u Nz_v A1 A2 A3 A4 A b
  end.

(** [(A @ z - b).T @ W @ (A @ z - b)] *)
Definition quadratic_energy (A : coo) (b : vec) (W : coo) (z : vec) : num :=
  dot (vecmat (vsub (matvec A z) b) W) (vsub (matvec A z) b).

(** The loop variables; [wu] and [wv] are unbound before the first
    iteration. *)
Record state : Type := mk_state {
  st_z : vec;
  st_W : coo;
  st_energy : num;
  st_energy_list : list num;
  st_wu : option vec;
  st_wv : option vec
}.

Definition initial_state (sys : linear_system) (normal_mask : grid bool)
  : state :=
  let W := sp_scale (Num (1 / 2)) (diags (map (fun _ => Num 1) (sys_b sys))) in
  let z := repeat (Num 0) (count normal_mask) in
  let energy := quadratic_energy (sys_A sys) (sys_b sys) W z in
  mk_state z W energy [] None None.

(** The depth prior: [M = diags(depth_mask[normal_mask].astype(int))] and
    [z_prior]. *)
Definition prior : Type := (coo * vec)%type.

Definition make_prior (normal_mask : grid bool) (K : option (grid num))
  (depth_map : grid num) (depth_mask : grid bool) : prior :=
  let m := map (fun b : bool => if b then Num 1 else Num 0)
             (select depth_mask normal_mask) in
  let M := diags m in
  let z_prior :=
    match K with
    | Some _ => select (map (map nlog) depth_map) normal_mask
    | None => select depth_map normal_mask
    end in
  (M, z_prior).

(** [depth_diff = M @ (z_prior - z); depth_diff[depth_diff == 0] = cp.nan;
    offset = cp.nanmean(depth_diff)] *)
Definition prior_offset (M : coo) (z_prior z : vec) : num :=
  let depth_diff := matvec M (vsub z_prior z) in
  let depth_diff := map (fun d => if is_zero d then NaN else d) depth_diff in
  nanmean depth_diff.

(** [wu = sigmoid((A2 @ z) ** 2 - (A1 @ z) ** 2, k)], likewise [wv], and
    [W = diags(cp.concatenate((wu, 1-wu, wv, 1-wv)))] *)
Definition update_wu (sys : linear_system) (z : vec) (k : num) : vec :=
  map (fun x => sigmoid x k)
    (vsub (vsq (matvec (sys_A2 sys) z)) (vsq (matvec (sys_A1 sys) z))).

Definition update_wv (sys : linear_system) (z : vec) (k : num) : vec :=
  map (fun x => sigmoid x k)
    (vsub (vsq (matvec (sys_A4 sys) z)) (vsq (matvec (sys_A3 sys) z))).

Definition weight_vector (wu wv : vec) : vec :=
  wu ++ scalar_sub (Num 1) wu ++ wv ++ scalar_sub (Num 1) wv.

(** [cp.abs(energy - energy_old) / energy_old] *)
Definition relative_energy (energy energy_old : num) : num :=
  ndiv (nabs (nsub energy energy_old)) energy_old.

(** How the [for] loop is left: by [break], or with [range(max_iter)] used
    up. *)
Inductive loop_exit : Type := Converged | Exhausted.

(** The errors the function raises: a boolean mask that indexes an array
    of another shape (lines 196, 242, 244), [cp.meshgrid] on [range]
    objects (line 203), and [wv] read when the loop body never ran
    (line 295). *)
Inductive exn : Type :=
| IndexError
| AttributeError
| UnboundLocalError.

Inductive result (A : Type) : Type :=
| Ok (a : A)
| Raise (e : exn).

Arguments Ok {A} a.
Arguments Raise {A} e.

Definition bind {A B : Type} (m : result A) (f : A -> result B) : result B :=
  match m with
  | Ok a => f a
  | Raise e => Raise e
  end.

Notation "'do' x <- m ;; f" := (bind m (fun x => f))
  (at level 10, x name, m at level 100, f at level 200).

(** [a.shape[:2] == mask.shape] *)
Definition shape_eqb {A B : Type} (a : grid A) (b : grid B) : bool :=
  (height a =? height b) && (width a =? width b).

(** [a[mask]] as the array library runs it: a mask of another shape than
    [a] raises IndexError. *)
Definition boolean_index {A : Type} (a : grid A) (mask : grid bool)
  : result (list A) :=
  if shape_eqb a mask then Ok (select a mask) else Raise IndexError.

(** An argument of [cp.meshgrid]: the array [cp.arange(n)], or the Python
    object [range(n)]. *)
Inductive coordinates : Type :=
| Arange (n : nat)
| Range (n : nat).

(** [cp.meshgrid(x, y)].  The library reads [x.ndim] of each argument
    first; a [range] object has no such attribute, so the call raises
    AttributeError.  On arrays it returns the two grids. *)
Definition cp_meshgrid (x y : coordinates) : result (grid nat * grid nat) :=
  match x, y with
  | Arange w, Arange h => Ok (meshgrid (seq 0 w) (seq 0 h))
  | _, _ => Raise AttributeError
  end.

(** Lines 200-204: with a camera matrix,
    [yy, xx = cp.meshgrid(range(W), range(H)); xx = cp.flip(xx, axis=0)]. *)
Definition pixel_grids (normal_mask : grid bool) (K : option (grid num))
  : result (option (grid nat * grid nat)) :=
  match K with
  | Some _ =>
      do g <- cp_meshgrid (Range (width normal_mask))
                (Range (height normal_mask)) ;;
      Ok (Some (fst g, flip0 (snd g)))
  | None => Ok None
  end.

(** What the function returns; the surface is kept as its facets. *)
Record outputs : Type := mk_outputs {
  out_depth_map : grid num;
  out_facets : list (list nat);
  out_wu_map : grid num;
  out_wv_map : grid num;
  out_energy_list : list num
}.

Section Solver.

(** [cg(A, b, x0=z, maxiter=cg_max_iter, tol=cg_tol)] of
    [cupyx.scipy.sparse.linalg], the solution it returns. *)
Variable cg : coo -> vec -> vec -> nat -> num -> vec.

Variable sys : linear_system.
Variable depth_prior : option prior.
Variables k lambda1 tol cg_tol : num.
Variable cg_max_iter : nat.

(** The normal-equation solve of one iteration, with the prior's offset
    added to [z] first when there is a prior. *)
Definition solve (W : coo) (z : vec) : vec :=
  let A := sys_A sys in
  let b := sys_b sys in
  match depth_prior with
  | Some (M, z_prior) =>
      let offset := prior_offset M z_prior z in
      let z := vadd_scalar z offset in
      let A_mat := sp_add (spmm (spmm (transpose A) W) A) (sp_scale lambda1 M) in
      let b_mat := vadd (matvec (spmm (transpose A) W) b)
                     (matvec (sp_scale lambda1 M) z_prior) in
      cg A_mat b_mat z cg_max_iter cg_tol
  | None =>
      cg (spmm (spmm (transpose A) W) A) (matvec (spmm (transpose A) W) b) z
        cg_max_iter cg_tol
  end.

(** The body of the loop, up to [energy_list.append(energy)]. *)
Definition iteration (st : state) : state :=
  let z := solve (st_W st) (st_z st) in
  let wu := update_wu sys z k in
  let wv := update_wv sys z k in
  let W := diags (weight_vector wu wv) in
  let energy := quadratic_energy (sys_A sys) (sys_b sys) W z in
  mk_state z W energy (st_energy_list st ++ [energy]) (Some wu) (Some wv).

(** [for i in range(max_iter)], left by [break] when
    [relative_energy < tol]. *)
Fixpoint irls (max_iter : nat) (st : state) : state * loop_exit :=
  match max_iter with
  | 0 => (st, Exhausted)
  | S remaining =>
      let energy_old := st_energy st in
      let st' := iteration st in
      if nlt (relative_energy (st_energy st') energy_old) tol
      then (st', Converged)
      else irls remaining st'
  end.

(** The state after [n] runs of the loop body. *)
Definition run (st0 : state) (n : nat) : state :=
  Nat.iter n iteration st0.

(** The test [relative_energy < tol] at the end of iteration [j]
    (counted from 0). *)
Definition below_tol (st0 : state) (j : nat) : bool :=
  nlt (relative_energy (st_energy (run st0 (S j))) (st_energy (run st0 j))) tol.

End Solver.

(** [facets[:, [0, 1, 4, 3, 2]]] *)
Definition reverse_winding (facet : list nat) : list nat :=
  map (fun i => nth i facet 0) [0; 1; 4; 3; 2].

(** The function, from the system assembly to the returned tuple.  [depth]
    holds [depth_map] and [depth_mask], given together or not at all.  The
    array operations that raise come in the order of the source: the
    boolean indexing of the normal map (line 196), the grids of the
    perspective case (line 203), the boolean indexing of the depth mask and
    of the depth map (lines 242, 244), and the unbound [wv] after a loop
    without iteration (line 295).  [assemble] and [make_prior] hold the
    values of the lines that went through. *)
Definition bilateral_normal_integration
  (cg : coo -> vec -> vec -> nat -> num -> vec)
  (normal_map : grid normal) (normal_mask : grid bool) (k lambda1 : num)
  (depth : option (grid num * grid bool)) (K : option (grid num))
  (step_size : num) (max_iter : nat) (tol : num) (cg_max_iter : nat)
  (cg_tol : num) : result outputs :=
  do _ <- boolean_index normal_map normal_mask ;;
  do _ <- pixel_grids normal_mask K ;;
  let sys := assemble normal_map normal_mask K step_size in
  let st0 := initial_state sys normal_mask in
  do depth_prior <-
    match depth with
    | Some (depth_map, depth_mask) =>
        do _ <- boolean_index depth_mask normal_mask ;;
        do _ <- boolean_index depth_map normal_mask ;;
        Ok (Some (make_prior normal_mask K depth_map depth_mask))
    | None => Ok None
    end ;;
  let (st, _) := irls cg sys depth_prior k lambda1 tol cg_tol cg_max_iter
                   max_iter st0 in
  let depth_map := assign (full_like normal_mask NaN) normal_mask (st_z st) in
  let depth_map :=
    match K with
    | Some _ => map (map nexp) depth_map
    | None => depth_map
    end in
  let facets := construct_facets_from normal_mask in
  let facets :=
    if nlt (mean (concat (channel channel2 normal_map))) (Num 0)
    then map reverse_winding facets
    else facets in
  match st_wu st, st_wv st with
  | Some wu, Some wv =>
      let wu_map := assign (full_like normal_mask NaN) normal_mask wv in
      let wv_map := assign (full_like normal_mask NaN) normal_mask wu in
      Ok (mk_outputs depth_map facets wu_map wv_map (st_energy_list st))
  | _, _ => Raise UnboundLocalError
  end.

(** ** map_depth_map_to_point_clouds *)

(** A dense array of shape (m, n) is the list of its m rows. *)

(** [a.T] *)
Definition dense_transpose (a : grid num) : grid num :=
  map (fun j => map (fun row => nth j row NaN) a) (seq 0 (width a)).

(** [A @ B] for two dense matrices *)
Definition matmul (A B : grid num) : grid num :=
  map (fun row => map (fun col => dot row col) (dense_transpose B)) A.

(** The determinant of a 3 x 3 matrix. *)
Definition det3 (K : grid num) : num :=
  let k := get NaN K in
  nadd
    (nsub (nmul (k 0 0) (nsub (nmul (k 1 1) (k 2 2)) (nmul (k 1 2) (k 2 1))))
       (nmul (k 0 1) (nsub (nmul (k 1 0) (k 2 2)) (nmul (k 1 2) (k 2 0)))))
    (nmul (k 0 2) (nsub (nmul (k 1 0) (k 2 1)) (nmul (k 1 1) (k 2 0)))).

(** [cp.linalg.inv(K)] for the 3 x 3 camera matrix, in exact arithmetic:
    the adjugate over the determinant.  A singular matrix has no inverse;
    its quotients are not finite. *)
Definition inv (K : grid num) : grid num :=
  let k := get NaN K in
  let d := det3 K in
  let minor (a b c e : num) : num := nsub (nmul a e) (nmul b c) in
  [[ndiv (minor (k 1 1) (k 1 2) (k 2 1) (k 2 2)) d;
    ndiv (minor (k 0 2) (k 0 1) (k 2 2) (k 2 1)) d;
    ndiv (minor (k 0 1) (k 0 2) (k 1 1) (k 1 2)) d];
   [ndiv (minor (k 1 2) (k 1 0) (k 2 2) (k 2 0)) d;
    ndiv (minor (k 0 0) (k 0 2) (k 2 0) (k 2 2)) d;
    ndiv (minor (k 0 2) (k 0 0) (k 1 2) (k 1 0)) d];
   [ndiv (minor (k 1 0) (k 1 1) (k 2 0) (k 2 1)) d;
    ndiv (minor (k 0 1) (k 0 0) (k 2 1) (k 2 0)) d;
    ndiv (minor (k 0 0) (k 0 1) (k 1 0) (k 1 1)) d]].

(** [cp.zeros((H, W, 3))] *)
Definition zeros3 (H W : nat) : grid (list num) :=
  repeat (repeat [Num 0; Num 0; Num 0] W) H.

(** [a[..., i] = v] for an array [v] of the shape (H, W) of [a]. *)
Definition set_channel (i : nat) (a : grid (list num)) (v : grid num)
  : grid (list num) :=
  map2 (map2 (fun p x => firstn i p ++ x :: skipn (S i) p)) a v.

(** The vertices of the surface, one row (x, y, z) per valid pixel.  The
    depth map has the shape of the mask. *)
Definition map_depth_map_to_point_clouds (depth_map : grid num)
  (mask : grid bool) (K : option (grid num)) (step_size : num) : grid num :=
  let H := height mask in
  let W := width mask in
  let (yy, xx) := meshgrid (seq 0 W) (seq 0 H) in
  let xx := flip0 xx in
  match K with
  | None =>
      let vertices := zeros3 H W in
      let vertices :=
        set_channel 0 vertices
          (map (map (fun x => nmul (of_nat x) step_size)) xx) in
      let vertices :=
        set_channel 1 vertices
          (map (map (fun y => nmul (of_nat y) step_size)) yy) in
      let vertices := set_channel 2 vertices depth_map in
      select vertices mask
  | Some K =>
      let u := zeros3 H W in
      let u := set_channel 0 u (map (map of_nat) xx) in
      let u := set_channel 1 u (map (map of_nat) yy) in
      let u := set_channel 2 u (full_like u (Num 1)) in
      let u := dense_transpose (select u mask) in
      map2 (fun vertex d => map (fun x => nmul x d) vertex)
        (dense_transpose (matmul (inv K) u)) (select depth_map mask)
  end.

(** The vertices [bilateral_normal_integration] hands to [pv.PolyData]
    with the facets: the point cloud of the returned depth map, with the
    camera matrix in the perspective case and with the step size in the
    orthographic case. *)
Definition surface_vertices (normal_mask : grid bool) (K : option (grid num))
  (step_size : num) (out : outputs) : grid num :=
  match K with
  | Some K =>
      map_depth_map_to_point_clouds (out_depth_map out) normal_mask (Some K)
        (Num 1)
  | None =>
      map_depth_map_to_point_clouds (out_depth_map out) normal_mask None
        step_size
  end.

(** ** The script *)

(** The decoding of a channel value of the normal image:
    [normal_map / 65535 * 2 - 1] for a 16-bit image,
    [normal_map / 255 * 2 - 1] otherwise. *)
Definition decode_channel (uint16 : bool) (v : Z) : num :=
  if uint16
  then nsub (nmul (ndiv (Num (IZR v)) (Num 65535)) (Num 2)) (Num 1)
  else nsub (nmul (ndiv (Num (IZR v)) (Num 255)) (Num 2)) (Num 1).

(** ** Coordinates of the valid pixels *)

(** The columns of the true entries of a row, counted from [c0]. *)
Fixpoint true_cols (c0 : nat) (row : list bool) : list nat :=
  match row with
  | [] => []
  | b :: t => if b then c0 :: true_cols (S c0) t else true_cols (S c0) t
  end.

(** The cells (row, column) where a mask is true, in row-major order. *)
Fixpoint cells_from (r0 : nat) (m : grid bool) : list (nat * nat) :=
  match m with
  | [] => []
  | row :: rest => map (pair r0) (true_cols 0 row) ++ cells_from (S r0) rest
  end.

Definition cells (m : grid bool) : list (nat * nat) := cells_from 0 m.

(** The index of pixel (r, c) among the valid pixels of [mask]. *)
Definition idx (mask : grid bool) (p : nat * nat) : nat :=
  get 0 (pixel_index mask) (fst p) (snd p).

Definition valid (mask : grid bool) (r c : nat) : Prop :=
  get false mask r c = true.

Definition same_shape {A B : Type} (a : grid A) (b : grid B) : Prop :=
  Forall2 (fun ra rb => length ra = length rb) a b.

(** The fully valid mask of size H x W. *)
Definition full_mask (H W : nat) : grid bool := repeat (repeat true W) H.

(** ** Notions used in the statements *)

(** The unscaled operators of [generate_dx_dy], block by block. *)

(** The four blocks of [generate_dx_dy] share one pattern: a row for every pixel of
    [has_mask], with -1 at the pixel index read under [minus_mask] and +1 at
    the pixel index read under [plus_mask].

    [data_term = cp.array([-1] * n + [1] * n)], [row_idx =
    cp.tile(pixel_idx[has_mask], 2)], [col_idx = cp.concatenate(
    (pixel_idx[minus_mask], pixel_idx[plus_mask]))]. *)
Definition difference_block (pixel_idx : grid nat) (num_pixel : nat)
  (has_mask minus_mask plus_mask : grid bool) : coo :=
  let data_term :=
    repeat (Num (-1)) (count has_mask) ++ repeat (Num 1) (count has_mask) in
  let row_idx := select pixel_idx has_mask in
  let row_idx := tile2 row_idx in
  let col_idx := select pixel_idx minus_mask ++ select pixel_idx plus_mask in
  coo_matrix data_term row_idx col_idx (num_pixel, num_pixel).

Definition has_left_mask (mask : grid bool) := logical_and (move_right mask) mask.
Definition has_right_mask (mask : grid bool) := logical_and (move_left mask) mask.
Definition has_bottom_mask (mask : grid bool) := logical_and (move_top mask) mask.
Definition has_top_mask (mask : grid bool) := logical_and (move_bottom mask) mask.

Definition D_horizontal_neg (mask : grid bool) : coo :=
  difference_block (pixel_index mask) (count mask) (has_left_mask mask)
    (move_left (has_left_mask mask)) (has_left_mask mask).

Definition D_horizontal_pos (mask : grid bool) : coo :=
  difference_block (pixel_index mask) (count mask) (has_right_mask mask)
    (has_right_mask mask) (move_right (has_right_mask mask)).

Definition D_vertical_pos (mask : grid bool) : coo :=
  difference_block (pixel_index mask) (count mask) (has_top_mask mask)
    (has_top_mask mask) (move_top (has_top_mask mask)).

Definition D_vertical_neg (mask : grid bool) : coo :=
  difference_block (pixel_index mask) (count mask) (has_bottom_mask mask)
    (move_bottom (has_bottom_mask mask)) (has_bottom_mask mask).

(** The mask of the top-left corners of the facets. *)
Definition facet_top_left_mask (mask : grid bool) : grid bool :=
  logical_and
    (logical_and (logical_and (move_top mask) (move_left mask))
       (move_top_left mask))
    mask.

(** Neighbouring cells: one row down, one column right, and back. *)
Definition shift_row (p : nat * nat) : nat * nat := (S (fst p), snd p).

Definition shift_col (p : nat * nat) : nat * nat := (fst p, S (snd p)).

Definition unshift_row (p : nat * nat) : nat * nat := (pred (fst p), snd p).

Definition unshift_col (p : nat * nat) : nat * nat := (fst p, pred (snd p)).

(** The three masks of a block are aligned with the pixel index. *)
Definition aligned (mask h minus plus : grid bool)
  (fm fp : nat * nat -> nat * nat) : Prop :=
  same_shape (pixel_index mask) h
  /\ same_shape (pixel_index mask) minus
  /\ same_shape (pixel_index mask) plus
  /\ cells minus = map fm (cells h)
  /\ cells plus = map fp (cells h)
  /\ incl (cells h) (cells mask).

(** The values on the diagonal of [diags(v)]. *)
Definition diagonal (A : coo) : vec := map entry_val (entries A).

(** [uu * nx + vv * ny + f * nz] for one pixel *)
Definition perspective_coefficient (f uu vv nx ny nz : num) : num :=
  nadd (nadd (nmul uu nx) (nmul vv ny)) (nmul f nz).

Definition rows_in_range (A : coo) : Prop :=
  Forall (fun e => entry_row e < nrows A) (entries A).

Definition scale_row (i : nat) (x : num) (row : list (nat * nat * num))
  : list (nat * nat * num) :=
  map (fun e => (i, entry_col e, nmul x (entry_val e))) row.

(** The forward weight as the documentation words it: [sigmoid(dp^2 - du^2, k)]
    with [dp = A1 @ z] and [du = A2 @ z]. *)
Definition claimed_forward_weight (sys : linear_system) (z : vec) (k : num)
  : vec :=
  let dp := matvec (sys_A1 sys) z in
  let du := matvec (sys_A2 sys) z in
  map (fun x => sigmoid x k) (vsub (vsq dp) (vsq du)).

Definition numeric_vec (v : vec) : Prop := Forall is_num v.

Definition numeric_coo (A : coo) : Prop :=
  Forall (fun e => is_num (entry_val e)) (entries A).

Definition numeric_normal (p : normal) : Prop :=
  is_num (channel0 p) /\ is_num (channel1 p) /\ is_num (channel2 p).

Definition numeric_camera (K : option (grid num)) : Prop :=
  match K with
  | None => True
  | Some K =>
      is_num (get NaN K 0 2) /\ is_num (get NaN K 1 2)
      /\ is_num (get NaN K 0 0) /\ is_num (get NaN K 1 1)
  end.

(** A forward and a backward weight that are complementary. *)
Definition complementary (f b : num) : Prop :=
  exists w : R,
    f = Num w /\ b = Num (1 - w) /\ (0 <= w <= 1)%R /\ (0 <= 1 - w <= 1)%R
    /\ nadd f b = Num 1.

Definition nonnegative (a : num) : Prop := exists w : R, a = Num w /\ (0 <= w)%R.

Definition in_unit_interval (a : num) : Prop :=
  exists w : R, a = Num w /\ (0 < w < 1)%R.

(** The residuals of the prior, as real numbers: [z_prior - z] on the
    pixels of the prior's mask, 0 elsewhere. *)
Definition prior_residuals (m : list bool) (zp zr : list R) : list R :=
  map (fun i => ((if nth i m false then 1 else 0)
                 * (nth i zp 0 - nth i zr 0))%R)
    (seq 0 (length m)).

Definition nonzero (l : list R) : list R :=
  filter (fun x => if Req_dec_T x 0 then false else true) l.

Definition Rsum (l : list R) : R := fold_right Rplus 0%R l.

Definition prior_matrix (m : list bool) : coo :=
  diags (map (fun b : bool => if b then Num 1 else Num 0) m).

(** A linear ramp over the H x W grid, in pixel coordinates: x is the
    column, y = H - 1 - row grows upwards. *)
Definition ramp (H W : nat) (a b c0 : R) : grid num :=
  map (fun r =>
         map (fun c => Num (a * INR c + b * (INR H - 1 - INR r) + c0)%R)
           (seq 0 W))
    (seq 0 H).

(** Row-major order on the cells: (r, c) comes before (r', c'). *)
Definition row_major (p q : nat * nat) : Prop :=
  fst p < fst q \/ (fst p = fst q /\ snd p < snd q).

(** A value that is not a negative number: NaN, or a number >= 0. *)
Definition not_negative (a : num) : Prop :=
  match a with Num x => (0 <= x)%R | NaN => True end.


(** A normal that faces the camera: its first two channels are 0. *)
Definition facing (p : normal) : Prop :=
  channel0 p = Num 0 /\ channel1 p = Num 0 /\ is_num (channel2 p).

(** A solver that returns a vector as long as its starting point, as [cg]
    of the array library does. *)
Definition keeps_length (cg : coo -> vec -> vec -> nat -> num -> vec) : Prop :=
  forall A b x0 maxiter t, length (cg A b x0 maxiter t) = length x0.

(** A depth prior, when there is one, whose map and mask are H x W. *)
Definition prior_of_shape (H W : nat) (depth : option (grid num * grid bool))
  : Prop :=
  match depth with
  | Some (depth_map, depth_mask) => rect H W depth_map /\ rect H W depth_mask
  | None => True
  end.

(** The prior the loop works with: [M] and [z_prior] of [make_prior]. *)
Definition prior_of (normal_mask : grid bool) (K : option (grid num))
  (depth : option (grid num * grid bool)) : option prior :=
  match depth with
  | Some (depth_map, depth_mask) =>
      Some (make_prior normal_mask K depth_map depth_mask)
  | None => None
  end.

(** * Proofs *)

(** ** Lists *)

Lemma map2_length {A B C : Type} (f : A -> B -> C) (l1 : list A) (l2 : list B) :
  length (map2 f l1 l2) = Nat.min (length l1) (length l2).
Proof.
  revert l2; induction l1 as [|a t IH]; intros [|b t2]; simpl; auto.
Qed.

Lemma map2_nth {A B C : Type} (f : A -> B -> C) (l1 : list A) (l2 : list B)
  (i : nat) (da : A) (db : B) (dc : C) :
  i < length l1 -> i < length l2 ->
  nth i (map2 f l1 l2) dc = f (nth i l1 da) (nth i l2 db).
Proof.
  revert l2 i; induction l1 as [|a t IH]; intros [|b t2] [|i] H1 H2;
    simpl in *; try lia; auto.
  apply IH; lia.
Qed.

Lemma nth_andb (l1 l2 : list bool) (i : nat) :
  nth i (map2 andb l1 l2) false = nth i l1 false && nth i l2 false.
Proof.
  revert l2 i; induction l1 as [|a t IH]; intros [|b t2] [|i]; simpl; auto;
    try (now rewrite andb_false_r).
Qed.

Lemma last_as_nth {A : Type} (l : list A) (d : A) :
  last l d = nth (pred (length l)) l d.
Proof.
  induction l as [|a [|b t] IH]; simpl in *; auto.
Qed.

Lemma nth_removelast {A : Type} (l : list A) (i : nat) (d : A) :
  S i < length l -> nth i (removelast l) d = nth i l d.
Proof.
  revert i; induction l as [|a [|b t] IH]; intros i Hi; simpl in *; try lia.
  destruct i as [|i]; auto. apply IH. simpl; lia.
Qed.

Lemma removelast_length {A : Type} (l : list A) :
  length (removelast l) = pred (length l).
Proof.
  induction l as [|a [|b t] IH]; simpl in *; auto.
Qed.

Lemma removelast_map {A B : Type} (f : A -> B) (l : list A) :
  removelast (map f l) = map f (removelast l).
Proof.
  induction l as [|a [|b t] IH]; simpl in *; auto. now rewrite IH.
Qed.

Lemma tl_map {A B : Type} (f : A -> B) (l : list A) :
  tl (map f l) = map f (tl l).
Proof. destruct l; reflexivity. Qed.

Lemma removelast_repeat {A : Type} (x : A) (n : nat) :
  removelast (repeat x (S n)) = repeat x n.
Proof.
  induction n as [|n IH]; simpl in *; auto. now rewrite IH.
Qed.

Lemma nth_repeat_same {A : Type} (x : A) (n i : nat) : nth i (repeat x n) x = x.
Proof.
  revert i; induction n as [|n IH]; intros [|i]; simpl; auto.
Qed.

(** ** Rows: [true_cols] and [masked] *)

Lemma true_cols_S (c0 : nat) (row : list bool) :
  true_cols (S c0) row = map S (true_cols c0 row).
Proof.
  revert c0; induction row as [|b t IH]; intros c0; simpl; auto.
  destruct b; simpl; now rewrite IH.
Qed.

Lemma true_cols_length (c0 : nat) (row : list bool) :
  length (true_cols c0 row) = count_row row.
Proof.
  unfold count_row. revert c0; induction row as [|b t IH]; intros c0; simpl; auto.
  destruct b; simpl; now rewrite IH.
Qed.

Lemma true_cols_In (c0 : nat) (row : list bool) (c : nat) :
  In c (true_cols c0 row) <-> c0 <= c /\ nth (c - c0) row false = true.
Proof.
  revert c0; induction row as [|b t IH]; intros c0; simpl.
  - split; [tauto | intros [_ H]; destruct (c - c0); discriminate].
  - assert (Hcase : c = c0 \/ c < c0 \/ S c0 <= c) by lia.
    destruct b; simpl; rewrite ?IH.
    + destruct Hcase as [->|[Hlt|Hgt]].
      * rewrite Nat.sub_diag. split; auto.
      * split; [intros [->|[Hle _]]; lia | intros [Hle _]; lia].
      * replace (c - c0) with (S (c - S c0)) by lia.
        split; [intros [->|[Hle Hn]]; [lia | split; [lia | exact Hn]]
               | intros [_ Hn]; right; split; [lia | exact Hn]].
    + destruct Hcase as [->|[Hlt|Hgt]].
      * rewrite Nat.sub_diag. split; [lia | intros [_ H]; discriminate].
      * split; intros [Hle _]; lia.
      * replace (c - c0) with (S (c - S c0)) by lia.
        split; intros [Hle Hn]; (split; [lia | exact Hn]).
Qed.

Lemma true_cols_lt (c0 : nat) (row : list bool) (c : nat) :
  In c (true_cols c0 row) -> c < c0 + length row.
Proof.
  rewrite true_cols_In. intros [Hle Hn].
  destruct (Nat.lt_ge_cases (c - c0) (length row)) as [Hlt|Hge]; [lia|].
  rewrite nth_overflow in Hn by exact Hge. discriminate.
Qed.

Lemma true_cols_NoDup (c0 : nat) (row : list bool) : NoDup (true_cols c0 row).
Proof.
  revert c0; induction row as [|b t IH]; intros c0; simpl; [constructor|].
  destruct b; auto. constructor; auto.
  rewrite true_cols_In. lia.
Qed.

Lemma true_cols_all_false (c0 : nat) (row : list bool) :
  (forall c, nth c row false = false) -> true_cols c0 row = [].
Proof.
  revert c0; induction row as [|b t IH]; intros c0 H; simpl; auto.
  pose proof (H 0) as H0. simpl in H0. subst b.
  apply IH. intros c. exact (H (S c)).
Qed.

Lemma true_cols_removelast (c0 : nat) (row : list bool) :
  last row false = false -> true_cols c0 (removelast row) = true_cols c0 row.
Proof.
  revert c0; induction row as [|a [|b t] IH]; intros c0 H; simpl in *; auto.
  - now subst a.
  - destruct a; simpl; now rewrite (IH _ H).
Qed.

Lemma true_cols_snoc_false (c0 : nat) (row : list bool) :
  true_cols c0 (row ++ [false]) = true_cols c0 row.
Proof.
  revert c0; induction row as [|b t IH]; intros c0; simpl; auto.
  destruct b; now rewrite IH.
Qed.

Lemma masked_true_cols {A : Type} (d : A) (vals : list A) (row : list bool)
  (c0 : nat) :
  length row <= length vals ->
  masked vals row = map (fun c => nth (c - c0) vals d) (true_cols c0 row).
Proof.
  revert row c0; induction vals as [|v vs IH]; intros [|b bs] c0 Hlen;
    try reflexivity; [simpl in Hlen; lia|].
  assert (Hshift : map (fun c => nth (c - c0) (v :: vs) d) (true_cols (S c0) bs)
                   = map (fun c => nth (c - S c0) vs d) (true_cols (S c0) bs)).
  { apply map_ext_in. intros c Hc. apply true_cols_In in Hc.
    destruct Hc as [Hle _]. replace (c - c0) with (S (c - S c0)) by lia.
    reflexivity. }
  assert (Htail : masked vs bs
                  = map (fun c => nth (c - c0) (v :: vs) d) (true_cols (S c0) bs)).
  { rewrite Hshift. apply IH. simpl in Hlen; lia. }
  cbn [masked true_cols]. destruct b; cbn [map]; rewrite <- Htail; auto.
  now rewrite Nat.sub_diag.
Qed.

Lemma masked_length {A : Type} (vals : list A) (row : list bool) :
  length row <= length vals -> length (masked vals row) = count_row row.
Proof.
  revert row; induction vals as [|v vs IH]; intros [|b bs] H;
    try reflexivity; [simpl in H; lia|].
  unfold count_row in *. simpl in *.
  destruct b; simpl; rewrite IH by lia; reflexivity.
Qed.

(** ** Grids: [cells], [select] and [assign] *)

Lemma cells_from_S (r0 : nat) (m : grid bool) :
  cells_from (S r0) m = map shift_row (cells_from r0 m).
Proof.
  revert r0; induction m as [|row rest IH]; intros r0; simpl; auto.
  rewrite map_app, map_map, IH. reflexivity.
Qed.

Lemma cells_from_In (r0 : nat) (m : grid bool) (r c : nat) :
  In (r, c) (cells_from r0 m) <-> r0 <= r /\ get false m (r - r0) c = true.
Proof.
  unfold get. revert r0; induction m as [|row rest IH]; intros r0; simpl.
  - split; [tauto | intros [_ H]; destruct (r - r0), c; discriminate].
  - rewrite in_app_iff, in_map_iff, IH.
    assert (Hcase : r = r0 \/ r < r0 \/ S r0 <= r) by lia.
    destruct Hcase as [->|[Hlt|Hgt]].
    + rewrite Nat.sub_diag. split.
      * intros [[c' [Heq Hin]]|[Hle _]]; [|lia].
        inversion Heq; subst c'. apply true_cols_In in Hin.
        rewrite Nat.sub_0_r in Hin. split; [lia | tauto].
      * intros [_ Hn]. left. exists c. split; auto.
        apply true_cols_In. rewrite Nat.sub_0_r. split; [lia | exact Hn].
    + split; [intros [[c' [Heq _]]|[Hle _]]; [inversion Heq|]; lia
             | intros [Hle _]; lia].
    + replace (r - r0) with (S (r - S r0)) by lia. split.
      * intros [[c' [Heq _]]|[Hle Hn]]; [inversion Heq; lia|].
        split; [lia | exact Hn].
      * intros [_ Hn]. right. split; [lia | exact Hn].
Qed.

Lemma cells_In (m : grid bool) (r c : nat) :
  In (r, c) (cells m) <-> valid m r c.
Proof.
  unfold cells, valid. rewrite cells_from_In, Nat.sub_0_r.
  split; [tauto | intros H; split; [lia | exact H]].
Qed.

Lemma cells_from_NoDup (r0 : nat) (m : grid bool) : NoDup (cells_from r0 m).
Proof.
  revert r0; induction m as [|row rest IH]; intros r0; simpl; [constructor|].
  apply NoDup_app; auto.
  - apply Injective_map_NoDup; [|apply true_cols_NoDup].
    intros x y Heq. now inversion Heq.
  - intros [r c] Hin1 Hin2. apply in_map_iff in Hin1.
    destruct Hin1 as [c' [Heq _]]. inversion Heq; subst.
    apply cells_from_In in Hin2. lia.
Qed.

Lemma cells_from_length (r0 : nat) (m : grid bool) :
  length (cells_from r0 m) = count m.
Proof.
  revert r0; induction m as [|row rest IH]; intros r0; simpl; auto.
  now rewrite length_app, length_map, true_cols_length, IH.
Qed.

Lemma cells_length (m : grid bool) : length (cells m) = count m.
Proof. apply cells_from_length. Qed.

Lemma select_cells_from {A : Type} (d : A) (a : grid A) (m : grid bool)
  (r0 : nat) :
  same_shape a m ->
  select a m = map (fun p => get d a (fst p - r0) (snd p)) (cells_from r0 m).
Proof.
  intros Hs; revert r0; induction Hs as [|ra rm ta tm Hlen Hs IH]; intros r0;
    simpl; auto.
  rewrite map_app, map_map. f_equal.
  - rewrite (masked_true_cols d ra rm 0) by lia.
    apply map_ext. intros c. unfold get. simpl.
    now rewrite Nat.sub_diag, Nat.sub_0_r.
  - rewrite (IH (S r0)). apply map_ext_in. intros [r c] Hin. simpl.
    apply cells_from_In in Hin. destruct Hin as [Hle _].
    unfold get. replace (r - r0) with (S (r - S r0)) by lia. reflexivity.
Qed.

Lemma select_cells {A : Type} (d : A) (a : grid A) (m : grid bool) :
  same_shape a m ->
  select a m = map (fun p => get d a (fst p) (snd p)) (cells m).
Proof.
  intros Hs. rewrite (select_cells_from d a m 0 Hs).
  apply map_ext. intros p. now rewrite Nat.sub_0_r.
Qed.

Lemma select_length {A : Type} (a : grid A) (m : grid bool) :
  same_shape a m -> length (select a m) = count m.
Proof.
  intros Hs; induction Hs as [|ra rm ta tm Hlen Hs IH]; simpl; auto.
  rewrite length_app, IH, masked_length by lia. reflexivity.
Qed.

Lemma assign_row_spec {A : Type} (a : list A) (m : list bool) (vals : list A) :
  length a = length m -> count_row m <= length vals ->
  masked (fst (assign_row a m vals)) m = firstn (count_row m) vals
  /\ snd (assign_row a m vals) = skipn (count_row m) vals
  /\ length (fst (assign_row a m vals)) = length a.
Proof.
  unfold count_row.
  revert m vals; induction a as [|x ta IH]; intros [|b tm] vals Hlen Hc;
    simpl in *; try discriminate; auto.
  destruct b; simpl in *.
  - destruct vals as [|v tv]; simpl in *; [lia|].
    destruct (IH tm tv) as (H1 & H2 & H3); [lia | lia|].
    destruct (assign_row ta tm tv) as [row rest]; simpl in *.
    now rewrite H1, H2, H3.
  - destruct (IH tm vals) as (H1 & H2 & H3); [lia | lia|].
    destruct (assign_row ta tm vals) as [row rest]; simpl in *.
    now rewrite H1, H2, H3.
Qed.

Lemma firstn_add {A : Type} (a b : nat) (l : list A) :
  firstn (a + b) l = firstn a l ++ firstn b (skipn a l).
Proof.
  revert l; induction a as [|a IH]; intros [|x l]; simpl; auto.
  - now destruct b.
  - now rewrite IH.
Qed.

Lemma count_cons (row : list bool) (rest : grid bool) :
  count (row :: rest) = count_row row + count rest.
Proof. reflexivity. Qed.

Lemma assign_spec {A : Type} (a : grid A) (m : grid bool) (vals : list A) :
  same_shape a m -> count m <= length vals ->
  select (assign a m vals) m = firstn (count m) vals
  /\ same_shape (assign a m vals) m.
Proof.
  intros Hs; revert vals;
    induction Hs as [|ra rm ta tm Hlen Hs IH]; intros vals Hc.
  - split; [reflexivity | constructor].
  - rewrite count_cons in *. cbn [assign].
    destruct (assign_row_spec ra rm vals) as (H1 & H2 & H3); [exact Hlen | lia|].
    destruct (assign_row ra rm vals) as [row rest]; cbn [fst snd] in *.
    destruct (IH rest) as [H4 H5].
    { subst rest. rewrite length_skipn. lia. }
    split.
    + cbn [select]. rewrite H1, H4, H2. symmetry. apply firstn_add.
    + constructor; [lia | exact H5].
Qed.

Lemma same_shape_full_like {A B : Type} (g : grid A) (x : B) :
  same_shape (full_like g x) g.
Proof.
  induction g as [|row rest IH]; simpl; constructor; auto.
  now rewrite length_map.
Qed.

Lemma pixel_index_shape (mask : grid bool) :
  same_shape (pixel_index mask) mask.
Proof.
  apply assign_spec; [apply same_shape_full_like | now rewrite length_seq].
Qed.

Lemma select_pixel_index (mask : grid bool) :
  select (pixel_index mask) mask = seq 0 (count mask).
Proof.
  unfold pixel_index.
  destruct (assign_spec (full_like mask 0) mask (seq 0 (count mask))
              (same_shape_full_like mask 0)) as [H _]; [now rewrite length_seq|].
  rewrite H. rewrite firstn_all2; [reflexivity | now rewrite length_seq].
Qed.

(** The pixel indices of the valid cells, read in row-major order, are
    0, 1, ..., N-1. *)
Lemma idx_cells (mask : grid bool) :
  map (idx mask) (cells mask) = seq 0 (count mask).
Proof.
  rewrite <- select_pixel_index.
  symmetry. apply (select_cells 0 _ _ (pixel_index_shape mask)).
Qed.

(** ** The pixel index is a bijection from the valid cells onto [0, N) *)

Lemma idx_position (mask : grid bool) (p : nat * nat) :
  In p (cells mask) ->
  idx mask p < count mask /\ nth (idx mask p) (cells mask) (0, 0) = p.
Proof.
  intros Hin. destruct (In_nth _ _ (0, 0) Hin) as [n [Hn Hp]].
  assert (Hk : idx mask p = n).
  { rewrite <- Hp.
    rewrite <- (map_nth (idx mask) (cells mask) (0, 0) n).
    rewrite idx_cells. rewrite cells_length in Hn.
    rewrite (nth_indep _ _ 0) by (now rewrite length_seq).
    now rewrite seq_nth. }
  rewrite Hk. rewrite cells_length in Hn. split; [exact Hn | exact Hp].
Qed.

Lemma idx_lt (mask : grid bool) (r c : nat) :
  valid mask r c -> idx mask (r, c) < count mask.
Proof. intros H. apply idx_position. now apply cells_In. Qed.

Lemma idx_inj (mask : grid bool) (p q : nat * nat) :
  In p (cells mask) -> In q (cells mask) -> idx mask p = idx mask q -> p = q.
Proof.
  intros Hp Hq Heq.
  destruct (idx_position mask p Hp) as [_ H1].
  destruct (idx_position mask q Hq) as [_ H2].
  rewrite <- H1, <- H2, Heq. reflexivity.
Qed.

(** Every index below N is the index of a valid cell. *)
Lemma idx_onto (mask : grid bool) (i : nat) :
  i < count mask -> exists p, In p (cells mask) /\ idx mask p = i.
Proof.
  intros Hi. exists (nth i (cells mask) (0, 0)). split.
  - apply nth_In. now rewrite cells_length.
  - rewrite <- (map_nth (idx mask) (cells mask) (0, 0) i), idx_cells.
    rewrite (nth_indep _ _ 0) by (now rewrite length_seq).
    now rewrite seq_nth.
Qed.

(** [a[mask]] holds at position [idx (r, c)] the entry of [a] at (r, c). *)
Lemma nth_select {A : Type} (d : A) (a : grid A) (mask : grid bool) (r c : nat) :
  same_shape a mask -> valid mask r c ->
  nth (idx mask (r, c)) (select a mask) d = get d a r c.
Proof.
  intros Hs Hv. apply cells_In in Hv.
  destruct (idx_position mask (r, c) Hv) as [Hlt Hp].
  rewrite (select_cells d a mask Hs).
  rewrite (nth_indep _ d ((fun p => get d a (fst p) (snd p)) (0, 0))).
  - rewrite (map_nth (fun p => get d a (fst p) (snd p))), Hp. reflexivity.
  - now rewrite length_map, cells_length.
Qed.

(** ** Shapes *)

Lemma same_shape_sym {A B : Type} (a : grid A) (b : grid B) :
  same_shape a b -> same_shape b a.
Proof. intros H; induction H; constructor; auto. Qed.

Lemma same_shape_trans {A B C : Type} (a : grid A) (b : grid B) (c : grid C) :
  same_shape a b -> same_shape b c -> same_shape a c.
Proof.
  intros H; revert c; induction H as [|ra rb ta tb Hl H IH]; intros c Hc;
    inversion Hc; subst; constructor; [congruence | now apply IH].
Qed.

Lemma same_shape_refl {A : Type} (a : grid A) : same_shape a a.
Proof. induction a; constructor; auto. Qed.

Lemma same_shape_map {A B : Type} (f : list A -> list B) (a : grid A) :
  (forall row, length (f row) = length row) -> same_shape (map f a) a.
Proof. intros H; induction a; simpl; constructor; auto. Qed.

Lemma same_shape_row {A B : Type} (a : grid A) (b : grid B) (r : nat) :
  same_shape a b -> length (nth r a []) = length (nth r b []).
Proof.
  intros H; revert r; induction H; intros [|r]; simpl; auto.
Qed.

Lemma same_shape_length {A B : Type} (a : grid A) (b : grid B) :
  same_shape a b -> length a = length b.
Proof. intros H; induction H; simpl; auto. Qed.

Lemma rect_same_shape {A B : Type} (H W : nat) (a : grid A) (b : grid B) :
  rect H W a -> rect H W b -> same_shape a b.
Proof.
  intros [Ha Fa] [Hb Fb]. subst H. revert b Hb Fb.
  induction Fa as [|ra ta Hra Fa IH]; intros [|rb tb] Hb Fb;
    simpl in *; try discriminate; constructor.
  - inversion Fb; subst. congruence.
  - apply IH; [lia | now inversion Fb].
Qed.

Lemma rect_transfer {A B : Type} (H W : nat) (a : grid A) (b : grid B) :
  same_shape a b -> rect H W b -> rect H W a.
Proof.
  intros Hs [Hb Fb]. split.
  - rewrite (same_shape_length a b Hs). exact Hb.
  - clear Hb. induction Hs as [|ra rb ta tb Hl Hs IH]; constructor.
    + inversion Fb; subst. congruence.
    + apply IH. now inversion Fb.
Qed.

Lemma rect_width {A : Type} (H W : nat) (a : grid A) :
  rect H W a -> a = [] \/ width a = W.
Proof.
  intros [_ Fa]. destruct a as [|row rest]; [now left | right].
  now inversion Fa.
Qed.

Lemma shape_eqb_rect {A B : Type} (H W : nat) (a : grid A) (b : grid B) :
  rect H W a -> rect H W b -> shape_eqb a b = true.
Proof.
  intros Ha Hb. unfold shape_eqb, height.
  destruct Ha as [La Fa], Hb as [Lb Fb]. rewrite La, Lb, Nat.eqb_refl.
  cbn [andb]. apply Nat.eqb_eq. unfold width.
  destruct a as [|ra ta], b as [|rb tb]; cbn [hd]; cbn [length] in *;
    try reflexivity; try lia.
  inversion Fa; inversion Fb; subst. congruence.
Qed.


Lemma boolean_index_rect {A : Type} (H W : nat) (a : grid A)
  (mask : grid bool) :
  rect H W a -> rect H W mask -> boolean_index a mask = Ok (select a mask).
Proof.
  intros Ha Hm. unfold boolean_index. now rewrite (shape_eqb_rect H W).
Qed.

Lemma logical_and_shape (a b : grid bool) :
  same_shape a b -> same_shape (logical_and a b) b.
Proof.
  intros H; induction H as [|ra rb ta tb Hl H IH]; simpl; constructor; auto.
  rewrite map2_length. lia.
Qed.

Lemma nth_nil {A : Type} (c : nat) (d : A) : nth c [] d = d.
Proof. now destruct c. Qed.

Lemma get_logical_and (a b : grid bool) (r c : nat) :
  get false (logical_and a b) r c = get false a r c && get false b r c.
Proof.
  unfold get, logical_and.
  revert b r; induction a as [|ra ta IH]; intros [|rb tb] [|r];
    cbn [map2 nth];
    try (destruct c; cbn [nth]; rewrite ?andb_false_r; reflexivity).
  - apply nth_andb.
  - apply IH.
Qed.

(** ** The shifted masks *)

Lemma nth_map_nil {A B : Type} (f : list A -> list B) (g : grid A) (r : nat) :
  f [] = [] -> nth r (map f g) [] = f (nth r g []).
Proof. intros H. rewrite <- H at 1. apply map_nth. Qed.

Lemma move_left_eq (mask : grid bool) :
  move_left mask = map (fun row => tl (row ++ [false])) mask.
Proof.
  unfold move_left, drop_first_col, pad. simpl.
  now rewrite app_nil_r, map_map.
Qed.

Lemma move_right_eq (mask : grid bool) :
  move_right mask = map (fun row => removelast (false :: row)) mask.
Proof.
  unfold move_right, drop_last_col, pad. simpl.
  rewrite app_nil_r, map_map. apply map_ext. intros row.
  now rewrite app_nil_r.
Qed.

Lemma map_app_nil {A : Type} (g : grid A) : map (fun row => row ++ []) g = g.
Proof.
  induction g as [|row rest IH]; simpl; auto. now rewrite app_nil_r, IH.
Qed.

Lemma move_top_eq (mask : grid bool) :
  move_top mask = tl (mask ++ [repeat false (width mask)]).
Proof.
  unfold move_top, drop_first_row, pad. simpl.
  now rewrite map_app_nil, Nat.add_0_r.
Qed.

Lemma move_bottom_eq (mask : grid bool) :
  move_bottom mask = removelast (repeat false (width mask) :: mask).
Proof.
  unfold move_bottom, drop_last_row, pad.
  cbn [repeat app Nat.add]. now rewrite map_app_nil, app_nil_r, Nat.add_0_r.
Qed.

Lemma width_map {A B : Type} (f : list A -> list B) (g : grid A) :
  (forall row, length (f row) = length row) -> width (map f g) = width g.
Proof. intros H. destruct g; simpl; auto. unfold width. simpl. apply H. Qed.

Lemma tl_snoc_length {A : Type} (row : list A) (x : A) :
  length (tl (row ++ [x])) = length row.
Proof. destruct row; simpl; auto. rewrite length_app. simpl. lia. Qed.

Lemma removelast_cons_length {A : Type} (row : list A) (x : A) :
  length (removelast (x :: row)) = length row.
Proof. now rewrite removelast_length. Qed.

Lemma move_top_left_eq (mask : grid bool) :
  move_top_left mask = move_top (move_left mask).
Proof.
  rewrite move_top_eq, move_left_eq.
  unfold move_top_left, drop_first_col, drop_first_row, pad. simpl.
  rewrite <- tl_map, map_app, map_map. simpl.
  rewrite width_map by (intros; apply tl_snoc_length).
  replace (width mask + 1) with (S (width mask)) by lia. reflexivity.
Qed.

Lemma move_bottom_right_eq (mask : grid bool) :
  move_bottom_right mask = move_bottom (move_right mask).
Proof.
  rewrite move_bottom_eq, move_right_eq.
  unfold move_bottom_right, drop_last_col, drop_last_row, pad.
  cbn [repeat app Nat.add].
  rewrite app_nil_r, <- removelast_map. cbn [map].
  rewrite map_map, Nat.add_0_r.
  change (false :: repeat false (width mask))
    with (repeat false (S (width mask))).
  rewrite removelast_repeat.
  rewrite width_map by (intros; apply removelast_cons_length).
  f_equal. f_equal. apply map_ext. intros row. now rewrite app_nil_r.
Qed.

Lemma move_left_shape (mask : grid bool) : same_shape (move_left mask) mask.
Proof.
  rewrite move_left_eq. apply same_shape_map. intros; apply tl_snoc_length.
Qed.

Lemma move_right_shape (mask : grid bool) : same_shape (move_right mask) mask.
Proof.
  rewrite move_right_eq. apply same_shape_map.
  intros; apply removelast_cons_length.
Qed.

Lemma Forall_removelast {A : Type} (P : A -> Prop) (l : list A) :
  Forall P l -> Forall P (removelast l).
Proof.
  induction l as [|a [|b t] IH]; intros H; simpl in *; auto.
  inversion H; subst. constructor; auto.
Qed.

Lemma move_top_rect (H W : nat) (mask : grid bool) :
  rect H W mask -> rect H W (move_top mask).
Proof.
  intros [Hlen HF]. rewrite move_top_eq. destruct mask as [|row rest].
  - simpl in *. subst H. split; [reflexivity | constructor].
  - inversion HF; subst. unfold width. simpl. split.
    + rewrite length_app. simpl. lia.
    + apply Forall_app. split; auto. constructor; auto. apply repeat_length.
Qed.

Lemma move_bottom_rect (H W : nat) (mask : grid bool) :
  rect H W mask -> rect H W (move_bottom mask).
Proof.
  intros [Hlen HF]. rewrite move_bottom_eq. destruct mask as [|row rest].
  - simpl in *. subst H. split; [reflexivity | constructor].
  - inversion HF; subst. unfold width. cbn [hd]. split.
    + rewrite removelast_length. reflexivity.
    + apply Forall_removelast. constructor; auto. apply repeat_length.
Qed.

Lemma move_left_rect (H W : nat) (mask : grid bool) :
  rect H W mask -> rect H W (move_left mask).
Proof. apply rect_transfer, move_left_shape. Qed.

Lemma move_right_rect (H W : nat) (mask : grid bool) :
  rect H W mask -> rect H W (move_right mask).
Proof. apply rect_transfer, move_right_shape. Qed.

Lemma logical_and_rect (H W : nat) (a b : grid bool) :
  rect H W a -> rect H W b -> rect H W (logical_and a b).
Proof.
  intros Ha Hb. apply rect_transfer with (b := b); auto.
  apply logical_and_shape. now apply rect_same_shape with (H := H) (W := W).
Qed.

Lemma pixel_index_rect (H W : nat) (mask : grid bool) :
  rect H W mask -> rect H W (pixel_index mask).
Proof. apply rect_transfer, pixel_index_shape. Qed.

(** Reading the shifted masks. *)

Lemma get_move_left (mask : grid bool) (r c : nat) :
  get false (move_left mask) r c = get false mask r (S c).
Proof.
  rewrite move_left_eq. unfold get.
  rewrite nth_map_nil by reflexivity.
  destruct (nth r mask []) as [|x row]; simpl.
  - now destruct c.
  - destruct (Nat.lt_ge_cases c (length row)) as [Hlt|Hge].
    + now rewrite app_nth1.
    + rewrite app_nth2 by lia. rewrite (nth_overflow row) by lia.
      destruct (c - length row) as [|[|n]]; reflexivity.
Qed.

Lemma get_move_top (mask : grid bool) (r c : nat) :
  get false (move_top mask) r c = get false mask (S r) c.
Proof.
  rewrite move_top_eq. unfold get. destruct mask as [|row rest].
  - cbn [app tl]. now rewrite !nth_nil.
  - cbn [app tl nth].
    destruct (Nat.lt_ge_cases r (length rest)) as [Hlt|Hge].
    + now rewrite app_nth1.
    + rewrite app_nth2 by lia. rewrite (nth_overflow rest) by lia.
      rewrite nth_nil.
      destruct (r - length rest) as [|n]; cbn [nth].
      * apply nth_repeat_same.
      * destruct n; apply nth_nil.
Qed.

Lemma get_move_right_0 (mask : grid bool) (r : nat) :
  get false (move_right mask) r 0 = false.
Proof.
  rewrite move_right_eq. unfold get.
  rewrite nth_map_nil by reflexivity. now destruct (nth r mask []).
Qed.

Lemma get_move_right_S (mask : grid bool) (r c : nat) :
  S c < length (nth r mask []) ->
  get false (move_right mask) r (S c) = get false mask r c.
Proof.
  intros Hc. rewrite move_right_eq. unfold get.
  rewrite nth_map_nil by reflexivity. rewrite nth_removelast by (simpl; lia). reflexivity.
Qed.

Lemma get_move_bottom_0 (mask : grid bool) (c : nat) :
  get false (move_bottom mask) 0 c = false.
Proof.
  rewrite move_bottom_eq. unfold get. destruct mask as [|row rest].
  - simpl. now destruct c.
  - cbn [removelast nth]. apply nth_repeat_same.
Qed.

Lemma get_move_bottom_S (mask : grid bool) (r c : nat) :
  S r < length mask ->
  get false (move_bottom mask) (S r) c = get false mask r c.
Proof.
  intros Hr. rewrite move_bottom_eq. unfold get.
  rewrite nth_removelast by (simpl; lia). reflexivity.
Qed.

Lemma get_overflow_col {A : Type} (d : A) (g : grid A) (r c : nat) :
  length (nth r g []) <= c -> get d g r c = d.
Proof. intros H. unfold get. now apply nth_overflow. Qed.

Lemma get_overflow_row {A : Type} (d : A) (g : grid A) (r c : nat) :
  length g <= r -> get d g r c = d.
Proof.
  intros H. unfold get. rewrite (nth_overflow g) by exact H. apply nth_nil.
Qed.

Lemma valid_in_range (H W : nat) (mask : grid bool) (r c : nat) :
  rect H W mask -> valid mask r c -> r < H /\ c < W.
Proof.
  intros [Hlen HF] Hv. unfold valid in Hv.
  destruct (Nat.lt_ge_cases r H) as [Hr|Hr].
  - split; auto. destruct (Nat.lt_ge_cases c W) as [Hc|Hc]; auto.
    rewrite get_overflow_col in Hv; [discriminate|].
    rewrite Forall_forall in HF. rewrite (HF (nth r mask [])); auto.
    apply nth_In. lia.
  - rewrite get_overflow_row in Hv by lia. discriminate.
Qed.

Lemma rect_row_length {A : Type} (H W : nat) (g : grid A) (r : nat) :
  rect H W g -> r < H -> length (nth r g []) = W.
Proof.
  intros [Hlen HF] Hr. rewrite Forall_forall in HF. apply HF, nth_In. lia.
Qed.

(** The cells of a shifted mask are the shifted cells, as long as the
    shift pushes no true cell over the border. *)

Lemma cells_from_app (r0 : nat) (a b : grid bool) :
  cells_from r0 (a ++ b) = cells_from r0 a ++ cells_from (r0 + length a) b.
Proof.
  revert r0; induction a as [|row rest IH]; intros r0; simpl.
  - now rewrite Nat.add_0_r.
  - rewrite IH, app_assoc. do 2 f_equal. lia.
Qed.

Lemma cells_from_map_cols (f : list bool -> list bool) (g : nat -> nat)
  (r0 : nat) (h : grid bool) :
  Forall (fun row => true_cols 0 (f row) = map g (true_cols 0 row)) h ->
  cells_from r0 (map f h) = map (fun p => (fst p, g (snd p))) (cells_from r0 h).
Proof.
  intros HF; revert r0; induction HF as [|row rest Hrow HF IH]; intros r0;
    simpl; auto.
  rewrite map_app, IH, Hrow, !map_map. reflexivity.
Qed.

Lemma true_cols_move_left (row : list bool) :
  nth 0 row false = false ->
  true_cols 0 (tl (row ++ [false])) = map pred (true_cols 0 row).
Proof.
  destruct row as [|b t]; simpl; intros H; auto. subst b.
  rewrite true_cols_snoc_false, (true_cols_S 0), map_map. simpl.
  now rewrite map_id.
Qed.

Lemma true_cols_move_right (row : list bool) :
  last row false = false ->
  true_cols 0 (removelast (false :: row)) = map S (true_cols 0 row).
Proof.
  intros H. destruct row as [|b t]; [reflexivity|].
  change (removelast (false :: b :: t)) with (false :: removelast (b :: t)).
  cbn [true_cols]. now rewrite true_cols_S, true_cols_removelast.
Qed.

Lemma cells_move_left (h : grid bool) :
  Forall (fun row => nth 0 row false = false) h ->
  cells (move_left h) = map unshift_col (cells h).
Proof.
  intros HF. rewrite move_left_eq. unfold cells.
  apply cells_from_map_cols. eapply Forall_impl; [|exact HF].
  intros row. apply true_cols_move_left.
Qed.

Lemma cells_move_right (h : grid bool) :
  Forall (fun row => last row false = false) h ->
  cells (move_right h) = map shift_col (cells h).
Proof.
  intros HF. rewrite move_right_eq. unfold cells.
  apply cells_from_map_cols. eapply Forall_impl; [|exact HF].
  intros row. apply true_cols_move_right.
Qed.

Lemma true_cols_repeat_false (c0 n : nat) : true_cols c0 (repeat false n) = [].
Proof. revert c0; induction n; intros c0; simpl; auto. Qed.

Lemma unshift_shift_row (l : list (nat * nat)) :
  map unshift_row (map shift_row l) = l.
Proof.
  rewrite map_map. rewrite <- (map_id l) at 2. apply map_ext. now intros [r c].
Qed.

Lemma cells_move_top (h : grid bool) :
  true_cols 0 (hd [] h) = [] ->
  cells (move_top h) = map unshift_row (cells h).
Proof.
  intros H0. rewrite move_top_eq. unfold cells. destruct h as [|row rest].
  - reflexivity.
  - cbn [app tl hd cells_from] in *. rewrite H0. cbn [map app].
    rewrite cells_from_app. cbn [cells_from].
    rewrite true_cols_repeat_false. cbn [map app]. rewrite app_nil_r.
    now rewrite (cells_from_S 0), unshift_shift_row.
Qed.

Lemma cells_from_removelast (r0 : nat) (h : grid bool) :
  true_cols 0 (last h []) = [] ->
  cells_from r0 (removelast h) = cells_from r0 h.
Proof.
  intros H. destruct h as [|row rest]; [reflexivity|].
  rewrite (app_removelast_last [] (l := row :: rest)) at 2 by discriminate.
  rewrite cells_from_app. cbn [cells_from]. rewrite H. cbn [map app].
  now rewrite app_nil_r.
Qed.

Lemma cells_move_bottom (h : grid bool) :
  true_cols 0 (last h []) = [] ->
  cells (move_bottom h) = map shift_row (cells h).
Proof.
  intros H. rewrite move_bottom_eq. unfold cells. destruct h as [|row rest].
  - reflexivity.
  - change (removelast (repeat false (width (row :: rest)) :: row :: rest))
      with (repeat false (width (row :: rest)) :: removelast (row :: rest)).
    cbn [cells_from]. rewrite true_cols_repeat_false. cbn [map app].
    now rewrite cells_from_S, cells_from_removelast.
Qed.

Lemma rows_from_nth {A : Type} (P : list A -> Prop) (g : grid A) :
  (forall r, r < length g -> P (nth r g [])) -> Forall P g.
Proof.
  intros H. apply Forall_forall. intros row Hin.
  destruct (In_nth _ _ [] Hin) as [r [Hr Heq]]. rewrite <- Heq. now apply H.
Qed.

(** Neighbour masks, read cell by cell. *)

Lemma get_has_right (mask : grid bool) (r c : nat) :
  get false (has_right_mask mask) r c
  = get false mask r (S c) && get false mask r c.
Proof.
  unfold has_right_mask. now rewrite get_logical_and, get_move_left.
Qed.

Lemma get_has_bottom (mask : grid bool) (r c : nat) :
  get false (has_bottom_mask mask) r c
  = get false mask (S r) c && get false mask r c.
Proof.
  unfold has_bottom_mask. now rewrite get_logical_and, get_move_top.
Qed.

Lemma get_has_left_0 (mask : grid bool) (r : nat) :
  get false (has_left_mask mask) r 0 = false.
Proof.
  unfold has_left_mask. now rewrite get_logical_and, get_move_right_0.
Qed.

Lemma get_has_left_S (mask : grid bool) (r c : nat) :
  get false (has_left_mask mask) r (S c)
  = get false mask r c && get false mask r (S c).
Proof.
  unfold has_left_mask. rewrite get_logical_and.
  destruct (Nat.lt_ge_cases (S c) (length (nth r mask []))) as [Hlt|Hge].
  - now rewrite get_move_right_S.
  - rewrite (get_overflow_col false mask r (S c)) by exact Hge.
    now rewrite !andb_false_r.
Qed.

Lemma get_has_top_0 (mask : grid bool) (c : nat) :
  get false (has_top_mask mask) 0 c = false.
Proof.
  unfold has_top_mask. now rewrite get_logical_and, get_move_bottom_0.
Qed.

Lemma get_has_top_S (mask : grid bool) (r c : nat) :
  get false (has_top_mask mask) (S r) c
  = get false mask r c && get false mask (S r) c.
Proof.
  unfold has_top_mask. rewrite get_logical_and.
  destruct (Nat.lt_ge_cases (S r) (length mask)) as [Hlt|Hge].
  - now rewrite get_move_bottom_S.
  - rewrite (get_overflow_row false mask (S r) c) by exact Hge.
    now rewrite !andb_false_r.
Qed.

Lemma has_left_shape (mask : grid bool) : same_shape (has_left_mask mask) mask.
Proof. apply logical_and_shape, move_right_shape. Qed.

Lemma has_right_shape (mask : grid bool) : same_shape (has_right_mask mask) mask.
Proof. apply logical_and_shape, move_left_shape. Qed.

Lemma has_top_rect (H W : nat) (mask : grid bool) :
  rect H W mask -> rect H W (has_top_mask mask).
Proof. intros Hr. apply logical_and_rect; auto. now apply move_bottom_rect. Qed.

Lemma has_bottom_rect (H W : nat) (mask : grid bool) :
  rect H W mask -> rect H W (has_bottom_mask mask).
Proof. intros Hr. apply logical_and_rect; auto. now apply move_top_rect. Qed.

Lemma has_left_rect (H W : nat) (mask : grid bool) :
  rect H W mask -> rect H W (has_left_mask mask).
Proof. apply rect_transfer, has_left_shape. Qed.

Lemma has_right_rect (H W : nat) (mask : grid bool) :
  rect H W mask -> rect H W (has_right_mask mask).
Proof. apply rect_transfer, has_right_shape. Qed.

(** A mask whose cells all have a valid cell of [mask] to the right (below)
    is false in its last column (row). *)

Lemma last_col_false (mask h : grid bool) :
  same_shape h mask ->
  (forall r c, get false h r c = true -> get false mask r (S c) = true) ->
  Forall (fun row => last row false = false) h.
Proof.
  intros Hs Hh. apply rows_from_nth. intros r Hr.
  rewrite last_as_nth.
  destruct (get false h r (pred (length (nth r h [])))) eqn:E;
    [|exact E].
  apply Hh in E. rewrite get_overflow_col in E; [discriminate|].
  rewrite <- (same_shape_row h mask r Hs). lia.
Qed.

Lemma last_row_false (mask h : grid bool) :
  length h = length mask ->
  (forall r c, get false h r c = true -> get false mask (S r) c = true) ->
  true_cols 0 (last h []) = [].
Proof.
  intros Hl Hh. apply true_cols_all_false. intros c.
  rewrite last_as_nth.
  destruct (get false h (pred (length h)) c) eqn:E; [|exact E].
  apply Hh in E. rewrite get_overflow_row in E; [discriminate | lia].
Qed.

Lemma first_col_false (h : grid bool) :
  (forall r, get false h r 0 = false) ->
  Forall (fun row => nth 0 row false = false) h.
Proof. intros Hh. apply rows_from_nth. intros r _. apply Hh. Qed.

Lemma first_row_false (h : grid bool) :
  (forall c, get false h 0 c = false) -> true_cols 0 (hd [] h) = [].
Proof.
  intros Hh. apply true_cols_all_false. intros c.
  specialize (Hh c). unfold get in Hh. now destruct h.
Qed.

(** ** The difference operators, row by row *)

(** [generate_dx_dy] returns the four blocks divided by the step size, in
    the order horizontal positive, horizontal negative, vertical positive,
    vertical negative. *)
Lemma generate_dx_dy_blocks (mask : grid bool) (step_size : num) :
  generate_dx_dy mask step_size
  = (sp_div (D_horizontal_pos mask) step_size,
     sp_div (D_horizontal_neg mask) step_size,
     sp_div (D_vertical_pos mask) step_size,
     sp_div (D_vertical_neg mask) step_size).
Proof. reflexivity. Qed.

(** [construct_facets_from], with its top-left mask named. *)
Lemma construct_facets_from_eq (mask : grid bool) :
  construct_facets_from mask
  = hstack5 (repeat 4 (count (facet_top_left_mask mask)))
      (select (pixel_index mask) (facet_top_left_mask mask))
      (select (pixel_index mask) (move_bottom (facet_top_left_mask mask)))
      (select (pixel_index mask) (move_bottom_right (facet_top_left_mask mask)))
      (select (pixel_index mask) (move_right (facet_top_left_mask mask))).
Proof. reflexivity. Qed.

Lemma combine_app_same {A B : Type} (l1 l2 : list A) (k1 k2 : list B) :
  length l1 = length k1 ->
  combine (l1 ++ l2) (k1 ++ k2) = combine l1 k1 ++ combine l2 k2.
Proof.
  revert k1; induction l1 as [|a t IH]; intros [|b k1] H; simpl in *;
    try discriminate; auto.
  now rewrite IH by lia.
Qed.

Lemma combine_map_map {A B C : Type} (f : A -> B) (g : A -> C) (l : list A) :
  combine (map f l) (map g l) = map (fun x => (f x, g x)) l.
Proof. induction l as [|a t IH]; simpl; auto. now rewrite IH. Qed.

Lemma combine_repeat {A B : Type} (l : list A) (x : B) :
  combine l (repeat x (length l)) = map (fun a => (a, x)) l.
Proof. induction l as [|a t IH]; simpl; auto. now rewrite IH. Qed.

Lemma combine_triples {A B C D : Type} (f : A -> B) (g : A -> C) (x : D)
  (l : list A) :
  combine (combine (map f l) (map g l)) (repeat x (length l))
  = map (fun a => (f a, g a, x)) l.
Proof. induction l as [|a t IH]; simpl; auto. now rewrite IH. Qed.

Lemma filter_map_comm {A B : Type} (f : B -> bool) (g : A -> B) (l : list A) :
  filter f (map g l) = map g (filter (fun x => f (g x)) l).
Proof.
  induction l as [|a t IH]; simpl; auto.
  destruct (f (g a)); simpl; now rewrite IH.
Qed.

Lemma filter_idx_none (mask : grid bool) (l : list (nat * nat)) (p0 : nat * nat) :
  incl l (cells mask) -> In p0 (cells mask) -> ~ In p0 l ->
  filter (fun p => idx mask p =? idx mask p0) l = [].
Proof.
  intros Hincl Hp0 Hn. induction l as [|a t IH]; simpl; auto.
  destruct (Nat.eqb_spec (idx mask a) (idx mask p0)) as [Heq|Hne].
  - exfalso. apply Hn. left. apply (idx_inj mask); auto. apply Hincl. now left.
  - apply IH; [intros x Hx; apply Hincl; now right | intros Hin; apply Hn; now right].
Qed.

Lemma filter_idx_one (mask : grid bool) (l : list (nat * nat)) (p0 : nat * nat) :
  NoDup l -> incl l (cells mask) -> In p0 l ->
  filter (fun p => idx mask p =? idx mask p0) l = [p0].
Proof.
  intros Hnd Hincl Hin. induction l as [|a t IH]; [destruct Hin|].
  inversion Hnd as [|a' t' Hna Hnt]; subst.
  assert (Ht : incl t (cells mask)) by (intros x Hx; apply Hincl; now right).
  simpl. destruct (Nat.eqb_spec (idx mask a) (idx mask p0)) as [Heq|Hne].
  - assert (a = p0).
    { apply (idx_inj mask); auto; apply Hincl; auto. now left. }
    subst a. f_equal. apply filter_idx_none; auto.
  - destruct Hin as [->|Hin]; [congruence|]. now apply IH.
Qed.

(** The entries of one block of [generate_dx_dy], when its three masks are
    aligned: the cells of [minus_mask] are the images of the cells of
    [has_mask] under [fm], those of [plus_mask] under [fp]. *)
Lemma difference_block_entries (mask h minus plus : grid bool)
  (fm fp : nat * nat -> nat * nat) :
  same_shape (pixel_index mask) h ->
  same_shape (pixel_index mask) minus ->
  same_shape (pixel_index mask) plus ->
  cells minus = map fm (cells h) ->
  cells plus = map fp (cells h) ->
  entries (difference_block (pixel_index mask) (count mask) h minus plus)
  = map (fun p => (idx mask p, idx mask (fm p), Num (-1))) (cells h)
    ++ map (fun p => (idx mask p, idx mask (fp p), Num 1)) (cells h).
Proof.
  intros Hh Hm Hp Em Ep. unfold difference_block, coo_matrix, tile2.
  cbn [entries].
  rewrite (select_cells 0 _ _ Hh), (select_cells 0 _ _ Hm),
    (select_cells 0 _ _ Hp), Em, Ep, !map_map.
  rewrite <- (cells_length h).
  rewrite !combine_app_same
    by (rewrite ?length_combine, ?length_map, ?repeat_length; lia).
  rewrite !combine_triples. reflexivity.
Qed.

Lemma difference_block_row (mask h minus plus : grid bool)
  (fm fp : nat * nat -> nat * nat) (r c : nat) :
  same_shape (pixel_index mask) h ->
  same_shape (pixel_index mask) minus ->
  same_shape (pixel_index mask) plus ->
  cells minus = map fm (cells h) ->
  cells plus = map fp (cells h) ->
  incl (cells h) (cells mask) ->
  valid mask r c ->
  row_entries (difference_block (pixel_index mask) (count mask) h minus plus)
    (idx mask (r, c))
  = if get false h r c
    then [(idx mask (r, c), idx mask (fm (r, c)), Num (-1));
          (idx mask (r, c), idx mask (fp (r, c)), Num 1)]
    else [].
Proof.
  intros Hh Hm Hp Em Ep Hincl Hv. unfold row_entries.
  rewrite (difference_block_entries mask h minus plus fm fp) by assumption.
  rewrite filter_app, !filter_map_comm. unfold entry_row. cbn [fst].
  apply cells_In in Hv.
  destruct (get false h r c) eqn:E.
  - apply cells_In in E.
    rewrite (filter_idx_one mask (cells h) (r, c))
      by (auto; apply cells_from_NoDup).
    reflexivity.
  - rewrite (filter_idx_none mask (cells h) (r, c)); auto.
    intros Hin. apply cells_In in Hin. unfold valid in Hin. congruence.
Qed.

Lemma row_entries_sp_div (A : coo) (s : num) (i : nat) :
  row_entries (sp_div A s) i
  = map (fun e => (entry_row e, entry_col e, ndiv (entry_val e) s))
      (row_entries A i).
Proof.
  unfold row_entries, sp_div, map_values. cbn [entries].
  rewrite filter_map_comm. reflexivity.
Qed.

Lemma incl_cells (h mask : grid bool) :
  (forall r c, get false h r c = true -> get false mask r c = true) ->
  incl (cells h) (cells mask).
Proof.
  intros H [r c] Hin. apply cells_In. apply cells_In in Hin. now apply H.
Qed.

Lemma aligned_row (mask h minus plus : grid bool)
  (fm fp : nat * nat -> nat * nat) (r c : nat) :
  aligned mask h minus plus fm fp -> valid mask r c ->
  row_entries (difference_block (pixel_index mask) (count mask) h minus plus)
    (idx mask (r, c))
  = if get false h r c
    then [(idx mask (r, c), idx mask (fm (r, c)), Num (-1));
          (idx mask (r, c), idx mask (fp (r, c)), Num 1)]
    else [].
Proof.
  intros (Hh & Hm & Hp & Em & Ep & Hincl) Hv.
  now apply difference_block_row.
Qed.

Lemma filter_idx_le1 (mask : grid bool) (l : list (nat * nat)) (i : nat) :
  NoDup l -> incl l (cells mask) ->
  length (filter (fun p => idx mask p =? i) l) <= 1.
Proof.
  intros Hnd Hincl.
  pose proof (NoDup_filter (fun p => idx mask p =? i) Hnd) as Hf.
  destruct (filter (fun p => idx mask p =? i) l) as [|p [|q t]] eqn:E;
    simpl; try lia.
  exfalso.
  assert (Hp : In p (filter (fun p => idx mask p =? i) l))
    by (rewrite E; now left).
  assert (Hq : In q (filter (fun p => idx mask p =? i) l))
    by (rewrite E; right; now left).
  apply filter_In in Hp, Hq. destruct Hp as [Hp Ep], Hq as [Hq Eq].
  apply Nat.eqb_eq in Ep, Eq.
  assert (p = q) by (apply (idx_inj mask); auto; congruence).
  subst q. inversion Hf as [|x y Hn _]; subst. apply Hn. now left.
Qed.

Lemma aligned_row_length (mask h minus plus : grid bool)
  (fm fp : nat * nat -> nat * nat) (i : nat) :
  aligned mask h minus plus fm fp ->
  length
    (row_entries (difference_block (pixel_index mask) (count mask) h minus plus)
       i) <= 2.
Proof.
  intros (Hh & Hm & Hp & Em & Ep & Hincl). unfold row_entries.
  rewrite (difference_block_entries mask h minus plus fm fp) by assumption.
  rewrite filter_app, !filter_map_comm, length_app, !length_map.
  unfold entry_row. cbn [fst].
  pose proof (filter_idx_le1 mask (cells h) i (cells_from_NoDup 0 h) Hincl).
  lia.
Qed.

Section Operators.

Variables (H W : nat) (mask : grid bool).
Hypothesis Hrect : rect H W mask.

Lemma shape_of (h : grid bool) :
  rect H W h -> same_shape (pixel_index mask) h.
Proof.
  intros Hh. apply (rect_same_shape H W); auto.
  now apply pixel_index_rect.
Qed.

Lemma D_horizontal_pos_aligned :
  aligned mask (has_right_mask mask) (has_right_mask mask)
    (move_right (has_right_mask mask)) (fun p => p) shift_col.
Proof.
  pose proof (has_right_rect H W mask Hrect) as Hh.
  repeat split.
  - now apply shape_of.
  - now apply shape_of.
  - apply shape_of, move_right_rect, Hh.
  - now rewrite map_id.
  - apply cells_move_right. apply (last_col_false mask).
    + apply has_right_shape.
    + intros r' c'. rewrite get_has_right. now intros [E _]%andb_prop.
  - apply incl_cells. intros r' c'. rewrite get_has_right.
    now intros [_ E]%andb_prop.
Qed.

Lemma D_horizontal_neg_aligned :
  aligned mask (has_left_mask mask) (move_left (has_left_mask mask))
    (has_left_mask mask) unshift_col (fun p => p).
Proof.
  pose proof (has_left_rect H W mask Hrect) as Hh.
  repeat split.
  - now apply shape_of.
  - apply shape_of, move_left_rect, Hh.
  - now apply shape_of.
  - apply cells_move_left. apply first_col_false. apply get_has_left_0.
  - now rewrite map_id.
  - apply incl_cells. intros r' [|c']; [now rewrite get_has_left_0|].
    rewrite get_has_left_S. now intros [_ E]%andb_prop.
Qed.

Lemma D_vertical_pos_aligned :
  aligned mask (has_top_mask mask) (has_top_mask mask)
    (move_top (has_top_mask mask)) (fun p => p) unshift_row.
Proof.
  pose proof (has_top_rect H W mask Hrect) as Hh.
  repeat split.
  - now apply shape_of.
  - now apply shape_of.
  - apply shape_of, move_top_rect, Hh.
  - now rewrite map_id.
  - apply cells_move_top. apply first_row_false. apply get_has_top_0.
  - apply incl_cells. intros [|r'] c'; [now rewrite get_has_top_0|].
    rewrite get_has_top_S. now intros [_ E]%andb_prop.
Qed.

Lemma D_vertical_neg_aligned :
  aligned mask (has_bottom_mask mask) (move_bottom (has_bottom_mask mask))
    (has_bottom_mask mask) shift_row (fun p => p).
Proof.
  pose proof (has_bottom_rect H W mask Hrect) as Hh.
  repeat split.
  - now apply shape_of.
  - apply shape_of, move_bottom_rect, Hh.
  - now apply shape_of.
  - apply cells_move_bottom. apply (last_row_false mask).
    + destruct Hh as [Hl _]. pose proof Hrect as [Hl' _]. congruence.
    + intros r' c'. rewrite get_has_bottom. now intros [E _]%andb_prop.
  - now rewrite map_id.
  - apply incl_cells. intros r' c'. rewrite get_has_bottom.
    now intros [_ E]%andb_prop.
Qed.

Lemma D_horizontal_pos_row (r c : nat) :
  valid mask r c ->
  row_entries (D_horizontal_pos mask) (idx mask (r, c))
  = if get false mask r (S c)
    then [(idx mask (r, c), idx mask (r, c), Num (-1));
          (idx mask (r, c), idx mask (r, S c), Num 1)]
    else [].
Proof.
  intros Hv. unfold D_horizontal_pos.
  rewrite (aligned_row mask _ _ _ _ _ r c D_horizontal_pos_aligned Hv).
  rewrite get_has_right. unfold valid in Hv. now rewrite Hv, andb_true_r.
Qed.

Lemma D_horizontal_neg_row (r c : nat) :
  valid mask r c ->
  row_entries (D_horizontal_neg mask) (idx mask (r, c))
  = match c with
    | 0 => []
    | S c' =>
        if get false mask r c'
        then [(idx mask (r, c), idx mask (r, c'), Num (-1));
              (idx mask (r, c), idx mask (r, c), Num 1)]
        else []
    end.
Proof.
  intros Hv. unfold D_horizontal_neg.
  rewrite (aligned_row mask _ _ _ _ _ r c D_horizontal_neg_aligned Hv).
  unfold valid in Hv. destruct c as [|c'].
  - now rewrite get_has_left_0.
  - now rewrite get_has_left_S, Hv, andb_true_r.
Qed.

Lemma D_vertical_pos_row (r c : nat) :
  valid mask r c ->
  row_entries (D_vertical_pos mask) (idx mask (r, c))
  = match r with
    | 0 => []
    | S r' =>
        if get false mask r' c
        then [(idx mask (r, c), idx mask (r, c), Num (-1));
              (idx mask (r, c), idx mask (r', c), Num 1)]
        else []
    end.
Proof.
  intros Hv. unfold D_vertical_pos.
  rewrite (aligned_row mask _ _ _ _ _ r c D_vertical_pos_aligned Hv).
  unfold valid in Hv. destruct r as [|r'].
  - now rewrite get_has_top_0.
  - now rewrite get_has_top_S, Hv, andb_true_r.
Qed.

Lemma D_vertical_neg_row (r c : nat) :
  valid mask r c ->
  row_entries (D_vertical_neg mask) (idx mask (r, c))
  = if get false mask (S r) c
    then [(idx mask (r, c), idx mask (S r, c), Num (-1));
          (idx mask (r, c), idx mask (r, c), Num 1)]
    else [].
Proof.
  intros Hv. unfold D_vertical_neg.
  rewrite (aligned_row mask _ _ _ _ _ r c D_vertical_neg_aligned Hv).
  rewrite get_has_bottom. unfold valid in Hv. now rewrite Hv, andb_true_r.
Qed.

End Operators.

(** ** The fully valid mask *)

Lemma full_mask_rect (H W : nat) : rect H W (full_mask H W).
Proof.
  split; [apply repeat_length|].
  apply Forall_forall. intros row Hin. apply repeat_spec in Hin. subst row.
  apply repeat_length.
Qed.

Lemma nth_repeat_lt {A : Type} (x d : A) (n i : nat) :
  i < n -> nth i (repeat x n) d = x.
Proof.
  revert i; induction n as [|n IH]; intros [|i] Hi; simpl; try lia; auto.
  apply IH. lia.
Qed.

Lemma get_full_mask (H W r c : nat) :
  get false (full_mask H W) r c = (r <? H) && (c <? W).
Proof.
  unfold get, full_mask.
  destruct (Nat.ltb_spec r H) as [Hr|Hr].
  - rewrite (nth_repeat_lt _ _ H r Hr).
    destruct (Nat.ltb_spec c W) as [Hc|Hc].
    + now apply nth_repeat_lt.
    + apply nth_overflow. now rewrite repeat_length.
  - rewrite (nth_overflow (repeat _ H)) by (now rewrite repeat_length).
    apply nth_nil.
Qed.

Lemma valid_full_mask (H W r c : nat) :
  valid (full_mask H W) r c <-> r < H /\ c < W.
Proof.
  unfold valid. rewrite get_full_mask, andb_true_iff, !Nat.ltb_lt. tauto.
Qed.

Lemma NoDup_list_prod {A B : Type} (l1 : list A) (l2 : list B) :
  NoDup l1 -> NoDup l2 -> NoDup (list_prod l1 l2).
Proof.
  intros H1 H2. induction H1 as [|a t Ha H1 IH]; simpl; [constructor|].
  apply NoDup_app; auto.
  - apply Injective_map_NoDup; auto. intros x y Heq. now inversion Heq.
  - intros [x y] Hin1 Hin2. apply in_map_iff in Hin1.
    destruct Hin1 as [y' [Heq _]]. inversion Heq; subst.
    apply in_prod_iff in Hin2. tauto.
Qed.

(** A mask whose true cells form the rectangle [0, h) x [0, w) has h * w
    true cells. *)
Lemma count_rectangle (m : grid bool) (h w : nat) :
  (forall r c, get false m r c = true <-> r < h /\ c < w) ->
  count m = h * w.
Proof.
  intros Hm. rewrite <- cells_length.
  transitivity (length (list_prod (seq 0 h) (seq 0 w)));
    [|now rewrite length_prod, !length_seq].
  apply Nat.le_antisymm; apply NoDup_incl_length.
  - apply cells_from_NoDup.
  - intros [r c] Hin. apply cells_In, Hm in Hin.
    apply in_prod_iff. rewrite !in_seq. lia.
  - apply NoDup_list_prod; apply seq_NoDup.
  - intros [r c] Hin. apply in_prod_iff in Hin. rewrite !in_seq in Hin.
    apply cells_In, Hm. lia.
Qed.

(** ** The facets *)

Lemma get_move_top_left (mask : grid bool) (r c : nat) :
  get false (move_top_left mask) r c = get false mask (S r) (S c).
Proof. now rewrite move_top_left_eq, get_move_top, get_move_left. Qed.

Lemma get_facet_top_left (mask : grid bool) (r c : nat) :
  get false (facet_top_left_mask mask) r c
  = get false mask (S r) c && get false mask r (S c)
    && get false mask (S r) (S c) && get false mask r c.
Proof.
  unfold facet_top_left_mask.
  now rewrite !get_logical_and, get_move_top, get_move_left, get_move_top_left.
Qed.

Lemma facet_top_left_valid (mask : grid bool) (r c : nat) :
  get false (facet_top_left_mask mask) r c = true
  <-> valid mask r c /\ valid mask (S r) c
      /\ valid mask (S r) (S c) /\ valid mask r (S c).
Proof.
  rewrite get_facet_top_left, !andb_true_iff. unfold valid. tauto.
Qed.

Lemma facet_top_left_rect (H W : nat) (mask : grid bool) :
  rect H W mask -> rect H W (facet_top_left_mask mask).
Proof.
  intros Hr. unfold facet_top_left_mask.
  repeat apply logical_and_rect; auto.
  - now apply move_top_rect.
  - now apply move_left_rect.
  - rewrite move_top_left_eq. now apply move_top_rect, move_left_rect.
Qed.

Lemma hstack5_map {A : Type} (f1 f2 f3 f4 : A -> nat) (l : list A) :
  hstack5 (repeat 4 (length l)) (map f1 l) (map f2 l) (map f3 l) (map f4 l)
  = map (fun p => [4; f1 p; f2 p; f3 p; f4 p]) l.
Proof.
  unfold hstack5. induction l as [|a t IH]; simpl; auto. now rewrite IH.
Qed.

Lemma last_map {A B : Type} (f : A -> B) (l : list A) (d : A) :
  last (map f l) (f d) = f (last l d).
Proof.
  induction l as [|a [|b t] IH]; simpl in *; auto.
Qed.

(** The facets, one for every cell of the top-left mask. *)
Lemma construct_facets_cells (H W : nat) (mask : grid bool) :
  rect H W mask ->
  construct_facets_from mask
  = map (fun p =>
           [4; idx mask p; idx mask (shift_row p);
            idx mask (shift_row (shift_col p)); idx mask (shift_col p)])
      (cells (facet_top_left_mask mask)).
Proof.
  intros Hr. unfold construct_facets_from.
  pose proof (facet_top_left_rect H W mask Hr) as Ht.
  pose proof (pixel_index_rect H W mask Hr) as Hi.
  assert (Hcol : Forall (fun row => last row false = false)
                   (facet_top_left_mask mask)).
  { apply (last_col_false mask).
    - now apply (rect_same_shape H W).
    - intros r c E. apply facet_top_left_valid in E. apply E. }
  assert (Hrow : true_cols 0 (last (facet_top_left_mask mask) []) = []).
  { apply (last_row_false mask).
    - destruct Ht as [Hl _]. destruct Hr as [Hl' _]. congruence.
    - intros r c E. apply facet_top_left_valid in E. apply E. }
  assert (Er : cells (move_right (facet_top_left_mask mask))
               = map shift_col (cells (facet_top_left_mask mask)))
    by now apply cells_move_right.
  assert (Eb : cells (move_bottom (facet_top_left_mask mask))
               = map shift_row (cells (facet_top_left_mask mask)))
    by now apply cells_move_bottom.
  assert (Ebr : cells (move_bottom_right (facet_top_left_mask mask))
                = map shift_row (map shift_col (cells (facet_top_left_mask mask)))).
  { rewrite move_bottom_right_eq, <- Er. apply cells_move_bottom.
    rewrite move_right_eq.
    rewrite (last_map (fun row => removelast (false :: row)) _ []).
    apply true_cols_all_false. intros c.
    destruct (nth c (removelast (false :: last (facet_top_left_mask mask) []))
                false) eqn:E; auto.
    assert (Hin : In c (true_cols 0 (removelast
                   (false :: last (facet_top_left_mask mask) [])))).
    { apply true_cols_In. rewrite Nat.sub_0_r. split; [lia | exact E]. }
    rewrite true_cols_move_right in Hin.
    - rewrite Hrow in Hin. destruct Hin.
    - destruct (last (last (facet_top_left_mask mask) []) false) eqn:El; auto.
      exfalso.
      assert (Hin' : In (pred (length (last (facet_top_left_mask mask) [])))
                       (true_cols 0 (last (facet_top_left_mask mask) []))).
      { apply true_cols_In. rewrite Nat.sub_0_r. split; [lia|].
        now rewrite <- last_as_nth. }
      rewrite Hrow in Hin'. destruct Hin'. }
  rewrite (select_cells 0 _ (facet_top_left_mask mask))
    by now apply (rect_same_shape H W).
  rewrite (select_cells 0 _ (move_bottom (facet_top_left_mask mask)))
    by (apply (rect_same_shape H W); auto; now apply move_bottom_rect).
  rewrite (select_cells 0 _ (move_bottom_right (facet_top_left_mask mask)))
    by (apply (rect_same_shape H W); auto; rewrite move_bottom_right_eq;
        now apply move_bottom_rect, move_right_rect).
  rewrite (select_cells 0 _ (move_right (facet_top_left_mask mask)))
    by (apply (rect_same_shape H W); auto; now apply move_right_rect).
  rewrite Er, Eb, Ebr, !map_map, <- cells_length.
  apply (hstack5_map
           (fun p => idx mask p) (fun p => idx mask (shift_row p))
           (fun p => idx mask (shift_row (shift_col p)))
           (fun p => idx mask (shift_col p))).
Qed.

Example construct_facets_2x3 :
  construct_facets_from [[true; true; true]; [true; true; false]]
  = [[4; 0; 3; 4; 1]].
Proof. reflexivity. Qed.

(** C9.  For a rectangular mask, the facets of [construct_facets_from] are
    exactly the rows [4, i(r,c), i(r+1,c), i(r+1,c+1), i(r,c+1)] of the 2x2
    blocks whose four pixels are valid, every vertex index of a facet lies
    in [0, N), and the fully valid H x W mask gives (H-1)(W-1) facets.  The
    leading 4 is the number of vertices of the facet. *)
Theorem construct_facets_from_spec (H W : nat) (mask : grid bool) :
  rect H W mask ->
  (forall f, In f (construct_facets_from mask) <->
     exists r c,
       (valid mask r c /\ valid mask (S r) c
        /\ valid mask (S r) (S c) /\ valid mask r (S c))
       /\ f = [4; idx mask (r, c); idx mask (S r, c);
               idx mask (S r, S c); idx mask (r, S c)])
  /\ (forall f, In f (construct_facets_from mask) ->
        exists a b c d,
          f = [4; a; b; c; d]
          /\ a < count mask /\ b < count mask
          /\ c < count mask /\ d < count mask)
  /\ length (construct_facets_from (full_mask H W)) = (H - 1) * (W - 1).
Proof.
  intros Hr.
  assert (Hiff : forall f, In f (construct_facets_from mask) <->
     exists r c,
       (valid mask r c /\ valid mask (S r) c
        /\ valid mask (S r) (S c) /\ valid mask r (S c))
       /\ f = [4; idx mask (r, c); idx mask (S r, c);
               idx mask (S r, S c); idx mask (r, S c)]).
  { intros f. rewrite (construct_facets_cells H W mask Hr), in_map_iff. split.
    - intros [[r c] [Hf Hin]]. exists r, c.
      apply cells_In, facet_top_left_valid in Hin. split; [exact Hin|].
      symmetry. exact Hf.
    - intros [r [c [Hv Hf]]]. exists (r, c). split; [symmetry; exact Hf|].
      now apply cells_In, facet_top_left_valid. }
  split; [exact Hiff | split].
  - intros f Hin. apply Hiff in Hin.
    destruct Hin as [r [c [(H1 & H2 & H3 & H4) Hf]]].
    exists (idx mask (r, c)), (idx mask (S r, c)), (idx mask (S r, S c)),
      (idx mask (r, S c)).
    split; [exact Hf|]. repeat split; now apply idx_lt.
  - rewrite (construct_facets_cells H W _ (full_mask_rect H W)).
    rewrite length_map, cells_length.
    apply count_rectangle. intros r c.
    rewrite facet_top_left_valid, !valid_full_mask. lia.
Qed.

Lemma construct_facets_from_witness :
  rect 2 2 (full_mask 2 2)
  /\ length (construct_facets_from (full_mask 2 2)) = (2 - 1) * (2 - 1).
Proof.
  split; [apply full_mask_rect|].
  apply (construct_facets_from_spec 2 2 (full_mask 2 2)).
  apply full_mask_rect.
Defined.

(** ** The normal components *)

Example camera_normals_1x2 :
  let normal_map :=
    [[(Num 1, Num 2, Num 3); (Num 4, Num 5, Num 6)]] in
  let sys := assemble normal_map [[false; true]] None (Num 1) in
  sys_nx sys = [Num 5] /\ sys_ny sys = [Num 4] /\ sys_nz sys = [Num (- 6)].
Proof. cbv. auto. Qed.

Lemma assemble_nx (normal_map : grid normal) (normal_mask : grid bool)
  (K : option (grid num)) (step_size : num) :
  sys_nx (assemble normal_map normal_mask K step_size)
  = select (channel channel1 normal_map) normal_mask.
Proof.
  unfold assemble.
  destruct (coefficients _ _ _ _ _) as [Nz_u Nz_v]. reflexivity.
Qed.

Lemma assemble_ny (normal_map : grid normal) (normal_mask : grid bool)
  (K : option (grid num)) (step_size : num) :
  sys_ny (assemble normal_map normal_mask K step_size)
  = select (channel channel0 normal_map) normal_mask.
Proof.
  unfold assemble.
  destruct (coefficients _ _ _ _ _) as [Nz_u Nz_v]. reflexivity.
Qed.

Lemma assemble_nz (normal_map : grid normal) (normal_mask : grid bool)
  (K : option (grid num)) (step_size : num) :
  sys_nz (assemble normal_map normal_mask K step_size)
  = vneg (select (channel channel2 normal_map) normal_mask).
Proof.
  unfold assemble.
  destruct (coefficients _ _ _ _ _) as [Nz_u Nz_v]. reflexivity.
Qed.

Lemma channel_shape (f : normal -> num) (normal_map : grid normal) :
  same_shape (channel f normal_map) normal_map.
Proof. apply same_shape_map. intros row. apply length_map. Qed.

Lemma get_channel (f : normal -> num) (normal_map : grid normal) (d : normal)
  (r c : nat) :
  get (f d) (channel f normal_map) r c = f (get d normal_map r c).
Proof.
  unfold get, channel.
  rewrite (nth_map_nil (map f)) by reflexivity. apply map_nth.
Qed.

(** The normal components, pixel by pixel. *)
Lemma normals_at_pixels (H W : nat) (normal_map : grid normal)
  (normal_mask : grid bool) (K : option (grid num)) (step_size : num) :
  rect H W normal_map -> rect H W normal_mask ->
  let sys := assemble normal_map normal_mask K step_size in
  let N := count normal_mask in
  (length (sys_nx sys) = N /\ length (sys_ny sys) = N
   /\ length (sys_nz sys) = N)
  /\ forall r c d, valid normal_mask r c ->
       let i := idx normal_mask (r, c) in
       nth i (sys_nx sys) (channel1 d) = channel1 (get d normal_map r c)
       /\ nth i (sys_ny sys) (channel0 d) = channel0 (get d normal_map r c)
       /\ nth i (sys_nz sys) (nneg (channel2 d))
          = nneg (channel2 (get d normal_map r c)).
Proof.
  intros Hm Hk sys N. subst sys N.
  rewrite assemble_nx, assemble_ny, assemble_nz.
  assert (Hs : forall f, same_shape (channel f normal_map) normal_mask).
  { intros f. apply (same_shape_trans _ normal_map); [apply channel_shape|].
    now apply (rect_same_shape H W). }
  split.
  - unfold vneg. rewrite length_map, !select_length; auto.
  - intros r c d Hv. cbv zeta. unfold vneg.
    rewrite (map_nth nneg), !nth_select, !get_channel; auto.
Qed.

(** C10.  At the pixel index of every valid pixel (r, c), [nx] is channel 1
    of the normal map at (r, c), [ny] is channel 0 and [nz] is the negated
    channel 2; the three vectors hold one entry per valid pixel. *)
Theorem camera_normals_spec (H W : nat) (normal_map : grid normal)
  (normal_mask : grid bool) (K : option (grid num)) (step_size : num) :
  rect H W normal_map -> rect H W normal_mask ->
  let sys := assemble normal_map normal_mask K step_size in
  let N := count normal_mask in
  (length (sys_nx sys) = N /\ length (sys_ny sys) = N
   /\ length (sys_nz sys) = N)
  /\ forall r c d, valid normal_mask r c ->
       let i := idx normal_mask (r, c) in
       nth i (sys_nx sys) (channel1 d) = channel1 (get d normal_map r c)
       /\ nth i (sys_ny sys) (channel0 d) = channel0 (get d normal_map r c)
       /\ nth i (sys_nz sys) (nneg (channel2 d))
          = nneg (channel2 (get d normal_map r c)).
Proof. apply normals_at_pixels. Qed.

Lemma camera_normals_witness :
  let normal_map := [[(Num 1, Num 2, Num 3); (Num 4, Num 5, Num 6)]] in
  let sys := assemble normal_map [[false; true]] None (Num 1) in
  nth 0 (sys_nx sys) NaN = Num 5
  /\ nth 0 (sys_ny sys) NaN = Num 4
  /\ nth 0 (sys_nz sys) NaN = nneg (Num 6).
Proof.
  assert (Hm : rect 1 2 [[(Num 1, Num 2, Num 3); (Num 4, Num 5, Num 6)]])
    by (split; [reflexivity | repeat constructor]).
  assert (Hk : rect 1 2 [[false; true]])
    by (split; [reflexivity | repeat constructor]).
  exact (proj2 (camera_normals_spec 1 2 _ _ None (Num 1) Hm Hk)
           0 1 (NaN, NaN, NaN) eq_refl).
Defined.

(** ** The coefficients [Nz_u], [Nz_v] *)

Lemma diagonal_diags (v : vec) : diagonal (diags v) = v.
Proof.
  unfold diagonal, diags. cbn [entries]. rewrite map_map. cbn [entry_val snd].
  rewrite <- (map_map snd (fun x => x)), map_id.
  generalize 0. induction v as [|x t IH]; intros s; simpl; auto.
  now rewrite IH.
Qed.

Lemma rect_canonical {A : Type} (H W : nat) (g : grid A) :
  rect H W g -> rect (height g) (width g) g.
Proof.
  intros [Hl HF]. split; [reflexivity|].
  destruct g as [|row rest]; [constructor|].
  inversion HF; subst. exact HF.
Qed.

Lemma meshgrid_rect (xs ys : list nat) :
  rect (length ys) (length xs) (fst (meshgrid xs ys))
  /\ rect (length ys) (length xs) (snd (meshgrid xs ys)).
Proof.
  unfold meshgrid, rect. cbn [fst snd]. rewrite !length_map.
  repeat split; apply Forall_forall; intros row Hin;
    apply in_map_iff in Hin; destruct Hin as [y [<- _]]; auto.
  apply length_map.
Qed.

Lemma flip0_rect {A : Type} (H W : nat) (g : grid A) :
  rect H W g -> rect H W (flip0 g).
Proof.
  intros [Hl HF]. unfold flip0. split; [now rewrite length_rev|].
  apply Forall_forall. intros row Hin. apply in_rev in Hin.
  rewrite Forall_forall in HF. now apply HF.
Qed.

Lemma get_meshgrid_cols (W H r c : nat) :
  r < H -> c < W -> get 0 (fst (meshgrid (seq 0 W) (seq 0 H))) r c = c.
Proof.
  intros Hr Hc. unfold get, meshgrid. cbn [fst].
  rewrite (nth_indep _ [] ((fun _ : nat => seq 0 W) 0))
    by (now rewrite length_map, length_seq).
  rewrite (map_nth (fun _ : nat => seq 0 W) (seq 0 H) 0 r). now apply seq_nth.
Qed.

Lemma get_meshgrid_rows_flipped (W H r c : nat) :
  r < H -> c < W ->
  get 0 (flip0 (snd (meshgrid (seq 0 W) (seq 0 H)))) r c = H - 1 - r.
Proof.
  intros Hr Hc. unfold get, meshgrid, flip0. cbn [snd].
  rewrite rev_nth by (now rewrite length_map, length_seq).
  rewrite length_map, length_seq.
  rewrite (nth_indep _ [] ((fun y : nat => map (fun _ : nat => y) (seq 0 W)) 0))
    by (rewrite length_map, length_seq; lia).
  rewrite (map_nth (fun y : nat => map (fun _ : nat => y) (seq 0 W))
             (seq 0 H) 0 (H - S r)).
  rewrite seq_nth by lia.
  rewrite (nth_indep _ 0 ((fun _ : nat => 0 + (H - S r)) 0))
    by (now rewrite length_map, length_seq).
  rewrite (map_nth (fun _ : nat => 0 + (H - S r)) (seq 0 W) 0 c). lia.
Qed.

Lemma assemble_Nz (normal_map : grid normal) (normal_mask : grid bool)
  (K : option (grid num)) (step_size : num) :
  let sys := assemble normal_map normal_mask K step_size in
  (sys_Nz_u sys, sys_Nz_v sys)
  = coefficients normal_mask K (sys_nx sys) (sys_ny sys) (sys_nz sys).
Proof.
  cbv zeta. rewrite assemble_nx, assemble_ny, assemble_nz. unfold assemble.
  destruct (coefficients _ _ _ _ _) as [Nz_u Nz_v]. reflexivity.
Qed.

Lemma nth_perspective (f : num) (uu vv nx ny nz : vec) (N i : nat) :
  length uu = N -> length vv = N -> length nx = N -> length ny = N ->
  length nz = N -> i < N ->
  nth i (vadd (vadd (vmul uu nx) (vmul vv ny)) (map (nmul f) nz)) NaN
  = perspective_coefficient f (nth i uu NaN) (nth i vv NaN) (nth i nx NaN)
      (nth i ny NaN) (nth i nz NaN).
Proof.
  intros Hu Hv Hx Hy Hz Hi. unfold vadd, vmul, perspective_coefficient.
  rewrite (map2_nth nadd _ _ i NaN NaN NaN)
    by (rewrite ?map2_length, ?length_map; lia).
  rewrite (map2_nth nadd _ _ i NaN NaN NaN)
    by (rewrite ?map2_length; lia).
  rewrite !(map2_nth nmul _ _ i NaN NaN NaN) by lia.
  rewrite (nth_indep (map (nmul f) nz) NaN (nmul f NaN))
    by (rewrite length_map; lia).
  now rewrite map_nth.
Qed.

Lemma perspective_lengths (uu vv nx ny nz : vec) (f : num) (N : nat) :
  length uu = N -> length vv = N -> length nx = N -> length ny = N ->
  length nz = N ->
  length (vadd (vadd (vmul uu nx) (vmul vv ny)) (map (nmul f) nz)) = N.
Proof.
  intros. unfold vadd, vmul. rewrite !map2_length, length_map. lia.
Qed.

(** The values of [coefficients], pixel by pixel; with a camera matrix
    they are those of lines 204-215 on the two grids. *)
Lemma coefficients_at_pixels (H W : nat) (normal_map : grid normal)
  (normal_mask : grid bool) (step_size : num) :
  rect H W normal_map -> rect H W normal_mask ->
  (let sys := assemble normal_map normal_mask None step_size in
   sys_Nz_u sys = diags (sys_nz sys) /\ sys_Nz_v sys = diags (sys_nz sys))
  /\ forall K : grid num,
       let sys := assemble normal_map normal_mask (Some K) step_size in
       let cx := get NaN K 0 2 in
       let cy := get NaN K 1 2 in
       let fx := get NaN K 0 0 in
       let fy := get NaN K 1 1 in
       exists Nu Nv : vec,
         sys_Nz_u sys = diags Nu /\ sys_Nz_v sys = diags Nv
         /\ length Nu = count normal_mask /\ length Nv = count normal_mask
         /\ forall r c, valid normal_mask r c ->
              let i := idx normal_mask (r, c) in
              let u := nsub (of_nat (H - 1 - r)) cx in
              let v := nsub (of_nat c) cy in
              nth i Nu NaN
              = perspective_coefficient fx u v (nth i (sys_nx sys) NaN)
                  (nth i (sys_ny sys) NaN) (nth i (sys_nz sys) NaN)
              /\ nth i Nv NaN
                 = perspective_coefficient fy u v (nth i (sys_nx sys) NaN)
                     (nth i (sys_ny sys) NaN) (nth i (sys_nz sys) NaN).
Proof.
  intros Hm Hk. split.
  - cbv zeta.
    pose proof (assemble_Nz normal_map normal_mask None step_size) as E.
    cbv zeta in E. cbn [coefficients] in E.
    apply pair_equal_spec in E. exact E.
  - intros K. cbv zeta.
    pose proof (assemble_Nz normal_map normal_mask (Some K) step_size) as E.
    cbv zeta in E. cbn [coefficients] in E.
    destruct (normals_at_pixels H W normal_map normal_mask (Some K)
                step_size Hm Hk) as [(Lx & Ly & Lz) _].
    set (sys := assemble normal_map normal_mask (Some K) step_size) in *.
    pose proof (meshgrid_rect (seq 0 (width normal_mask))
                  (seq 0 (height normal_mask))) as [Ryy Rxx].
    rewrite !length_seq in Ryy, Rxx.
    destruct (meshgrid (seq 0 (width normal_mask)) (seq 0 (height normal_mask)))
      as [yy xx] eqn:Emesh.
    cbn [fst snd] in Ryy, Rxx. apply flip0_rect in Rxx.
    pose proof (rect_canonical H W normal_mask Hk) as Hc.
    assert (Sxx : same_shape (flip0 xx) normal_mask)
      by now apply (rect_same_shape (height normal_mask) (width normal_mask)).
    assert (Syy : same_shape yy normal_mask)
      by now apply (rect_same_shape (height normal_mask) (width normal_mask)).
    set (uu := vsub_scalar (map of_nat (select (flip0 xx) normal_mask))
                 (get NaN K 0 2)) in *.
    set (vv := vsub_scalar (map of_nat (select yy normal_mask))
                 (get NaN K 1 2)) in *.
    assert (Lu : length uu = count normal_mask).
    { unfold uu, vsub_scalar. now rewrite !length_map, select_length. }
    assert (Lv : length vv = count normal_mask).
    { unfold vv, vsub_scalar. now rewrite !length_map, select_length. }
    apply pair_equal_spec in E. destruct E as [Eu Ev].
    eexists. eexists. split; [exact Eu | split; [exact Ev|]].
    split; [now apply perspective_lengths | split;
            [now apply perspective_lengths|]].
    intros r c Hv.
    pose proof (idx_lt normal_mask r c Hv) as Hi.
    rewrite !(nth_perspective _ _ _ _ _ _ (count normal_mask)) by assumption.
    assert (Hu : nth (idx normal_mask (r, c)) uu NaN
                 = nsub (of_nat (H - 1 - r)) (get NaN K 0 2)).
    { unfold uu, vsub_scalar.
      rewrite (nth_indep _ NaN ((fun x => nsub x (get NaN K 0 2)) (of_nat 0)))
        by (rewrite !length_map, select_length; auto).
      rewrite (map_nth (fun x => nsub x (get NaN K 0 2))), (map_nth of_nat).
      rewrite nth_select by assumption.
      destruct (valid_in_range _ _ _ r c Hc Hv) as [Hr Hcol].
      pose proof (get_meshgrid_rows_flipped (width normal_mask)
                    (height normal_mask) r c Hr Hcol) as G.
      rewrite Emesh in G. cbn [snd] in G. rewrite G.
      destruct Hk as [Hl _]. unfold height. now rewrite Hl. }
    assert (Hvv : nth (idx normal_mask (r, c)) vv NaN
                  = nsub (of_nat c) (get NaN K 1 2)).
    { unfold vv, vsub_scalar.
      rewrite (nth_indep _ NaN ((fun x => nsub x (get NaN K 1 2)) (of_nat 0)))
        by (rewrite !length_map, select_length; auto).
      rewrite (map_nth (fun x => nsub x (get NaN K 1 2))), (map_nth of_nat).
      rewrite nth_select by assumption.
      destruct (valid_in_range _ _ _ r c Hc Hv) as [Hr Hcol].
      pose proof (get_meshgrid_cols (width normal_mask)
                    (height normal_mask) r c Hr Hcol) as G.
      rewrite Emesh in G. cbn [fst] in G. now rewrite G. }
    rewrite Hu, Hvv. split; reflexivity.
Qed.

(** C6.  Without a camera matrix [Nz_u] and [Nz_v] are both [diags(nz)],
    with [nz] the negated third channel of the normal map at each valid
    pixel.  With a camera matrix the function computes no coefficient:
    line 203 calls [cp.meshgrid] on two [range] objects, the call raises
    AttributeError and so does the function, whatever the camera matrix
    and the other arguments.  On the arrays [cp.arange(W)] and
    [cp.arange(H)], which [map_depth_map_to_point_clouds] passes, the same
    call returns the two grids. *)
Theorem coefficients_spec
  (cg : coo -> vec -> vec -> nat -> num -> vec) (H W : nat)
  (normal_map : grid normal) (normal_mask : grid bool) (k lambda1 : num)
  (depth : option (grid num * grid bool)) (step_size : num) (max_iter : nat)
  (tol : num) (cg_max_iter : nat) (cg_tol : num) :
  rect H W normal_map -> rect H W normal_mask ->
  (let sys := assemble normal_map normal_mask None step_size in
   pixel_grids normal_mask None = Ok None
   /\ sys_Nz_u sys = diags (sys_nz sys) /\ sys_Nz_v sys = diags (sys_nz sys)
   /\ length (sys_nz sys) = count normal_mask
   /\ forall r c, valid normal_mask r c ->
        nth (idx normal_mask (r, c)) (sys_nz sys) NaN
        = nneg (channel2 (get (NaN, NaN, NaN) normal_map r c)))
  /\ (forall K : grid num,
        pixel_grids normal_mask (Some K) = Raise AttributeError
        /\ bilateral_normal_integration cg normal_map normal_mask k lambda1
             depth (Some K) step_size max_iter tol cg_max_iter cg_tol
           = Raise AttributeError)
  /\ cp_meshgrid (Arange W) (Arange H) = Ok (meshgrid (seq 0 W) (seq 0 H)).
Proof.
  intros Hm Hk. split; [|split; [|reflexivity]].
  - cbv zeta. split; [reflexivity|].
    destruct (coefficients_at_pixels H W normal_map normal_mask step_size
                Hm Hk) as [[Eu Ev] _].
    destruct (normals_at_pixels H W normal_map normal_mask None step_size
                Hm Hk) as [(_ & _ & Lz) Hpix].
    split; [exact Eu|]. split; [exact Ev|]. split; [exact Lz|].
    intros r c Hv. apply (Hpix r c (NaN, NaN, NaN) Hv).
  - intros K. split; [reflexivity|].
    unfold bilateral_normal_integration.
    rewrite (boolean_index_rect H W normal_map normal_mask Hm Hk).
    reflexivity.
Qed.

Lemma coefficients_witness :
  let cg := fun (_ : coo) (_ x0 : vec) (_ : nat) (_ : num) => x0 in
  let normal_map := [[(Num 0, Num 1, Num 0); (Num 0, Num 1, Num 0)]] in
  let mask := [[true; true]] in
  let K := [[Num 1; Num 0; Num 0]; [Num 0; Num 1; Num 0];
            [Num 0; Num 0; Num 1]] in
  (rect 1 2 normal_map /\ rect 1 2 mask)
  /\ sys_Nz_u (assemble normal_map mask None (Num 1))
     = diags (sys_nz (assemble normal_map mask None (Num 1)))
  /\ bilateral_normal_integration cg normal_map mask (Num 2) (Num 0) None
       (Some K) (Num 1) 100 (Num (1 / 10000)) 500 (Num (1 / 100000))
     = Raise AttributeError.
Proof.
  assert (Hm : rect 1 2 [[(Num 0, Num 1, Num 0); (Num 0, Num 1, Num 0)]])
    by (split; [reflexivity | repeat constructor]).
  assert (Hk : rect 1 2 [[true; true]])
    by (split; [reflexivity | repeat constructor]).
  destruct (coefficients_spec
              (fun (_ : coo) (_ x0 : vec) (_ : nat) (_ : num) => x0) 1 2
              [[(Num 0, Num 1, Num 0); (Num 0, Num 1, Num 0)]] [[true; true]]
              (Num 2) (Num 0) None (Num 1) 100 (Num (1 / 10000)) 500
              (Num (1 / 100000)) Hm Hk) as ((_ & Eu & _) & Hraise & _).
  cbv zeta. split; [split; assumption|]. split; [exact Eu|].
  apply (Hraise [[Num 1; Num 0; Num 0]; [Num 0; Num 1; Num 0];
                 [Num 0; Num 0; Num 1]]).
Defined.

(** ** The stacked system *)

Lemma filter_const_true {A : Type} (l : list A) : filter (fun _ => true) l = l.
Proof. induction l as [|a t IH]; simpl; auto. now rewrite IH. Qed.

Lemma filter_const_false {A : Type} (l : list A) :
  filter (fun _ => false) l = [].
Proof. induction l; auto. Qed.

Lemma diags_entries_from (start : nat) (v : vec) :
  map (fun iv : nat * num => (fst iv, fst iv, snd iv))
    (combine (seq start (length v)) v)
  = match v with
    | [] => []
    | x :: t =>
        (start, start, x)
        :: map (fun iv : nat * num => (fst iv, fst iv, snd iv))
             (combine (seq (S start) (length t)) t)
    end.
Proof. destruct v; reflexivity. Qed.

(** Row [i] of [diags(v) @ D] is row [i] of [D] scaled by [v[i]]. *)
Lemma spmm_diags_row_from (start : nat) (v : vec) (D : coo) (i : nat) :
  filter (fun e => entry_row e =? i)
    (flat_map
       (fun a =>
          map (fun b => (entry_row a, entry_col b,
                         nmul (entry_val a) (entry_val b)))
            (filter (fun b => entry_row b =? entry_col a) (entries D)))
       (map (fun iv : nat * num => (fst iv, fst iv, snd iv))
          (combine (seq start (length v)) v)))
  = if (start <=? i) && (i <? start + length v)
    then map (fun b => (i, entry_col b, nmul (nth (i - start) v NaN) (entry_val b)))
           (row_entries D i)
    else [].
Proof.
  revert start; induction v as [|x t IH]; intros start.
  - cbn [length combine seq map flat_map filter].
    destruct (Nat.leb_spec start i); destruct (Nat.ltb_spec i (start + 0));
      cbn [andb]; auto; lia.
  - rewrite diags_entries_from. cbn [flat_map].
    rewrite filter_app, IH. cbn [entry_row entry_col entry_val fst snd length].
    rewrite filter_map_comm. cbn [entry_row fst].
    destruct (Nat.eqb_spec start i) as [->|Hne].
    + rewrite filter_const_true.
      rewrite Nat.sub_diag. cbn [nth].
      replace (S i <=? i) with false by (symmetry; apply Nat.leb_gt; lia).
      cbn [andb]. rewrite app_nil_r.
      replace (i <=? i) with true by (symmetry; apply Nat.leb_le; lia).
      replace (i <? i + S (length t)) with true
        by (symmetry; apply Nat.ltb_lt; lia).
      reflexivity.
    + rewrite filter_const_false. cbn [map app].
      destruct (Nat.leb_spec (S start) i) as [Hle|Hgt].
      * replace (start <=? i) with true by (symmetry; apply Nat.leb_le; lia).
        replace (i <? start + S (length t)) with (i <? S start + length t)
          by (f_equal; lia).
        cbn [andb]. destruct (i <? S start + length t); auto.
        replace (i - start) with (S (i - S start)) by lia. reflexivity.
      * replace (start <=? i) with false by (symmetry; apply Nat.leb_gt; lia).
        reflexivity.
Qed.

Lemma spmm_diags_row (v : vec) (D : coo) (i : nat) :
  i < length v ->
  row_entries (spmm (diags v) D) i
  = map (fun b => (i, entry_col b, nmul (nth i v NaN) (entry_val b)))
      (row_entries D i).
Proof.
  intros Hi. unfold row_entries at 1. unfold spmm, diags. cbn [entries].
  rewrite spmm_diags_row_from. rewrite Nat.sub_0_r.
  replace (0 <=? i) with true by (symmetry; apply Nat.leb_le; lia).
  replace (i <? 0 + length v) with true by (symmetry; apply Nat.ltb_lt; lia).
  reflexivity.
Qed.

Lemma assemble_blocks (normal_map : grid normal) (normal_mask : grid bool)
  (K : option (grid num)) (step_size : num) :
  let sys := assemble normal_map normal_mask K step_size in
  sys_A1 sys = spmm (sys_Nz_u sys) (sp_div (D_vertical_pos normal_mask) step_size)
  /\ sys_A2 sys
     = spmm (sys_Nz_u sys) (sp_div (D_vertical_neg normal_mask) step_size)
  /\ sys_A3 sys
     = spmm (sys_Nz_v sys) (sp_div (D_horizontal_pos normal_mask) step_size)
  /\ sys_A4 sys
     = spmm (sys_Nz_v sys) (sp_div (D_horizontal_neg normal_mask) step_size)
  /\ sys_A sys = vstack [sys_A1 sys; sys_A2 sys; sys_A3 sys; sys_A4 sys]
  /\ sys_b sys
     = vneg (sys_nx sys) ++ vneg (sys_nx sys)
       ++ vneg (sys_ny sys) ++ vneg (sys_ny sys).
Proof.
  cbv zeta. unfold assemble.
  destruct (coefficients _ _ _ _ _) as [Nz_u Nz_v].
  unfold generate_dx_dy. cbn. repeat split; reflexivity.
Qed.

Lemma Nz_diagonal (H W : nat) (normal_map : grid normal)
  (normal_mask : grid bool) (K : option (grid num)) (step_size : num) :
  rect H W normal_map -> rect H W normal_mask ->
  let sys := assemble normal_map normal_mask K step_size in
  exists Nu Nv : vec,
    sys_Nz_u sys = diags Nu /\ sys_Nz_v sys = diags Nv
    /\ length Nu = count normal_mask /\ length Nv = count normal_mask.
Proof.
  intros Hm Hk sys.
  destruct (coefficients_at_pixels H W normal_map normal_mask step_size Hm Hk)
    as [[Eu Ev] Hp].
  destruct (normals_at_pixels H W normal_map normal_mask K step_size Hm Hk)
    as [(_ & _ & Lz) _].
  destruct K as [K|].
  - destruct (Hp K) as (Nu & Nv & E1 & E2 & L1 & L2 & _).
    exists Nu, Nv. auto.
  - exists (sys_nz sys), (sys_nz sys). auto.
Qed.

(** Stacking: the rows of the blocks follow one another. *)

Lemma stack_entries_ge (offset : nat) (blocks : list coo) (e : nat * nat * num) :
  In e (stack_entries offset blocks) -> offset <= entry_row e.
Proof.
  revert offset; induction blocks as [|A rest IH]; intros offset Hin;
    simpl in Hin; [destruct Hin|].
  apply in_app_iff in Hin. destruct Hin as [Hin|Hin].
  - apply in_map_iff in Hin. destruct Hin as [e' [<- _]].
    unfold entry_row. simpl. lia.
  - apply IH in Hin. lia.
Qed.

Lemma filter_none {A : Type} (f : A -> bool) (l : list A) :
  (forall x, In x l -> f x = false) -> filter f l = [].
Proof.
  intros H. induction l as [|a t IH]; simpl; auto.
  rewrite (H a) by now left. apply IH. intros x Hx. apply H. now right.
Qed.

Lemma matvec_stack (offset : nat) (blocks : list coo) (z : vec) :
  Forall rows_in_range blocks ->
  map (fun i =>
         nsum (map (fun e => nmul (entry_val e) (nth (entry_col e) z (Num 0)))
                 (filter (fun e => entry_row e =? i)
                    (stack_entries offset blocks))))
    (seq offset (fold_right (fun A n => nrows A + n) 0 blocks))
  = flat_map (fun A => matvec A z) blocks.
Proof.
  intros HF; revert offset; induction HF as [|A rest HA HF IH]; intros offset.
  - reflexivity.
  - cbn [fold_right flat_map stack_entries].
    rewrite seq_app, map_app. f_equal.
    + unfold matvec.
      assert (Hseq : seq offset (nrows A)
                     = map (fun j => offset + j) (seq 0 (nrows A))).
      { rewrite <- (Nat.add_0_r offset) at 1. generalize 0.
        induction (nrows A) as [|n IHn]; intros s; simpl; auto.
        rewrite <- IHn. do 2 f_equal. lia. }
      rewrite Hseq, map_map. apply map_ext_in. intros j Hj.
      apply in_seq in Hj. unfold row_dot, row_entries.
      rewrite filter_app, filter_map_comm.
      rewrite (filter_none _ (stack_entries (offset + nrows A) rest)).
      * rewrite app_nil_r, map_map. cbn [entry_row entry_col entry_val fst snd].
        f_equal. f_equal. apply filter_ext. intros e.
        destruct (Nat.eqb_spec (entry_row e) j),
          (Nat.eqb_spec (offset + entry_row e) (offset + j)); auto; lia.
      * intros e He. apply stack_entries_ge in He.
        apply Nat.eqb_neq. lia.
    + rewrite <- (IH (offset + nrows A)).
      apply map_ext_in. intros i Hi. apply in_seq in Hi.
      rewrite filter_app.
      rewrite (filter_none _ (map _ (entries A))); [reflexivity|].
      intros e He. apply in_map_iff in He. destruct He as [e' [<- He']].
      unfold rows_in_range in HA. rewrite Forall_forall in HA.
      specialize (HA e' He'). apply Nat.eqb_neq.
      unfold entry_row in *. simpl. lia.
Qed.

Lemma matvec_vstack (blocks : list coo) (z : vec) :
  Forall rows_in_range blocks ->
  matvec (vstack blocks) z = flat_map (fun A => matvec A z) blocks.
Proof. intros HF. exact (matvec_stack 0 blocks z HF). Qed.

Lemma spmm_diags_rows_in_range (v : vec) (D : coo) :
  rows_in_range (spmm (diags v) D).
Proof.
  unfold rows_in_range, spmm, diags, nrows. cbn [entries shape fst].
  apply Forall_forall. intros e He. apply in_flat_map in He.
  destruct He as [a [Ha He]]. apply in_map_iff in He.
  destruct He as [b [<- _]]. apply in_map_iff in Ha.
  destruct Ha as [[i x] [<- Hix]]. apply in_combine_l in Hix.
  apply in_seq in Hix. cbn. lia.
Qed.

(** C7, as stated, fails: on the 1 x 2 mask the first block A1 has no
    entry at all, while [diags(Nu) @ D_horizontal_pos] has two. *)
Lemma stacked_system_claim_counterexample :
  let normal_map := [[(Num 0, Num 0, Num (-1)); (Num 0, Num 0, Num (-1))]] in
  let mask := [[true; true]] in
  let sys := assemble normal_map mask None (Num 1) in
  sys_A1 sys
  <> spmm (sys_Nz_u sys) (sp_div (D_horizontal_pos mask) (Num 1)).
Proof.
  cbv zeta. intros E. apply (f_equal entries) in E. cbn in E. discriminate.
Qed.

(** C7, amended.  [A1 = diags(Nu) @ Dpos_v], [A2 = diags(Nu) @ Dneg_v],
    [A3 = diags(Nv) @ Dpos_h], [A4 = diags(Nv) @ Dneg_h], each difference
    operator divided by the step size: the Nu coefficients and the [-nx]
    entries go with the vertical operators, Nv and [-ny] with the horizontal
    ones.  Row i of a block is row i of its operator scaled by the
    coefficient of pixel i.  [A] stacks the four blocks in this order, is
    4N x N, and [A @ z] is the concatenation of the four block products;
    [b] is [-nx, -nx, -ny, -ny], of length 4N. *)
Theorem stacked_system_spec (H W : nat) (normal_map : grid normal)
  (normal_mask : grid bool) (K : option (grid num)) (step_size : num) :
  rect H W normal_map -> rect H W normal_mask ->
  let sys := assemble normal_map normal_mask K step_size in
  let N := count normal_mask in
  let Dpos_v := sp_div (D_vertical_pos normal_mask) step_size in
  let Dneg_v := sp_div (D_vertical_neg normal_mask) step_size in
  let Dpos_h := sp_div (D_horizontal_pos normal_mask) step_size in
  let Dneg_h := sp_div (D_horizontal_neg normal_mask) step_size in
  exists Nu Nv : vec,
    (sys_Nz_u sys = diags Nu /\ sys_Nz_v sys = diags Nv
     /\ length Nu = N /\ length Nv = N)
    /\ (sys_A1 sys = spmm (diags Nu) Dpos_v
        /\ sys_A2 sys = spmm (diags Nu) Dneg_v
        /\ sys_A3 sys = spmm (diags Nv) Dpos_h
        /\ sys_A4 sys = spmm (diags Nv) Dneg_h)
    /\ (forall i, i < N ->
          row_entries (sys_A1 sys) i
          = scale_row i (nth i Nu NaN) (row_entries Dpos_v i)
          /\ row_entries (sys_A2 sys) i
             = scale_row i (nth i Nu NaN) (row_entries Dneg_v i)
          /\ row_entries (sys_A3 sys) i
             = scale_row i (nth i Nv NaN) (row_entries Dpos_h i)
          /\ row_entries (sys_A4 sys) i
             = scale_row i (nth i Nv NaN) (row_entries Dneg_h i))
    /\ (sys_A sys = vstack [sys_A1 sys; sys_A2 sys; sys_A3 sys; sys_A4 sys]
        /\ shape (sys_A sys) = (4 * N, N)
        /\ forall z,
             matvec (sys_A sys) z
             = matvec (sys_A1 sys) z ++ matvec (sys_A2 sys) z
               ++ matvec (sys_A3 sys) z ++ matvec (sys_A4 sys) z)
    /\ (sys_b sys
        = vneg (sys_nx sys) ++ vneg (sys_nx sys)
          ++ vneg (sys_ny sys) ++ vneg (sys_ny sys)
        /\ length (sys_b sys) = 4 * N).
Proof.
  intros Hm Hk sys N Dpos_v Dneg_v Dpos_h Dneg_h.
  destruct (Nz_diagonal H W normal_map normal_mask K step_size Hm Hk)
    as (Nu & Nv & Eu & Ev & Lu & Lv).
  destruct (assemble_blocks normal_map normal_mask K step_size)
    as (E1 & E2 & E3 & E4 & EA & Eb).
  destruct (normals_at_pixels H W normal_map normal_mask K step_size Hm Hk)
    as [(Lx & Ly & _) _].
  fold sys in Eu, Ev, E1, E2, E3, E4, EA, Eb, Lx, Ly.
  fold Dpos_v in E1. fold Dneg_v in E2. fold Dpos_h in E3. fold Dneg_h in E4.
  rewrite Eu in E1, E2. rewrite Ev in E3, E4.
  exists Nu, Nv. split; [auto|]. split; [auto|]. split; [|split].
  - intros i Hi. unfold scale_row. rewrite E1, E2, E3, E4.
    rewrite !spmm_diags_row by (fold N; lia). auto.
  - split; [exact EA|]. split.
    + rewrite EA, E1, E2, E3, E4. unfold vstack, shape, spmm, nrows, ncols.
      cbn [fold_right shape fst snd diags]. f_equal. fold N. lia.
    + intros z. rewrite EA, matvec_vstack.
      * cbn [flat_map]. now rewrite app_nil_r.
      * rewrite E1, E2, E3, E4.
        repeat constructor; apply spmm_diags_rows_in_range.
  - split; [exact Eb|]. rewrite Eb. unfold vneg.
    rewrite !length_app, !length_map, Lx, Ly. fold N. lia.
Qed.

Lemma stacked_system_witness :
  let normal_map := [[(Num 0, Num 0, Num (-1)); (Num 0, Num 0, Num (-1))]] in
  let mask := [[true; true]] in
  let sys := assemble normal_map mask None (Num 1) in
  rect 1 2 normal_map /\ rect 1 2 mask
  /\ sys_A sys = vstack [sys_A1 sys; sys_A2 sys; sys_A3 sys; sys_A4 sys]
  /\ shape (sys_A sys) = (4 * count mask, count mask).
Proof.
  assert (Hm : rect 1 2 [[(Num 0, Num 0, Num (-1)); (Num 0, Num 0, Num (-1))]])
    by (split; [reflexivity | repeat constructor]).
  assert (Hk : rect 1 2 [[true; true]])
    by (split; [reflexivity | repeat constructor]).
  split; [exact Hm | split; [exact Hk|]].
  destruct (stacked_system_spec 1 2 _ _ None (Num 1) Hm Hk)
    as (Nu & Nv & _ & _ & _ & (EA & Es & _) & _).
  split; [exact EA | exact Es].
Defined.

(** ** Arithmetic on numbers *)

Open Scope R_scope.

Lemma ndiv_num (x y : R) : y <> 0 -> ndiv (Num x) (Num y) = Num (x / y).
Proof.
  intros H. unfold ndiv.
  destruct (Req_dec_T y 0); [contradiction | reflexivity].
Qed.

Lemma ndiv_zero (a : num) : ndiv a (Num 0) = NaN.
Proof.
  destruct a as [x|]; [|reflexivity]. unfold ndiv.
  destruct (Req_dec_T 0 0); [reflexivity | contradiction].
Qed.

Lemma is_zero_true (x : R) : x = 0 -> is_zero (Num x) = true.
Proof.
  intros H. unfold is_zero. destruct (Req_dec_T x 0); [reflexivity | contradiction].
Qed.

Lemma is_zero_false (x : R) : x <> 0 -> is_zero (Num x) = false.
Proof.
  intros H. unfold is_zero. destruct (Req_dec_T x 0); [contradiction | reflexivity].
Qed.

Lemma sigmoid_num (x k : R) :
  sigmoid (Num x) (Num k) = Num (1 / (1 + exp (- k * x))).
Proof.
  unfold sigmoid. cbn -[ndiv]. apply ndiv_num.
  pose proof (exp_pos (- k * x)). lra.
Qed.

Lemma sigmoid_range (x k : R) :
  0 < 1 / (1 + exp (- k * x)) < 1.
Proof.
  pose proof (exp_pos (- k * x)) as He.
  assert (Hd : 0 < 1 + exp (- k * x)) by lra.
  split.
  - apply Rdiv_lt_0_compat; lra.
  - apply (Rmult_lt_reg_r (1 + exp (- k * x))); [exact Hd|].
    unfold Rdiv. rewrite Rmult_assoc, Rinv_l by lra. lra.
Qed.

Lemma sigmoid_num_inj (x y k : R) :
  k <> 0 ->
  1 / (1 + exp (- k * x)) = 1 / (1 + exp (- k * y)) -> x = y.
Proof.
  intros Hk E. unfold Rdiv in E. rewrite !Rmult_1_l in E.
  apply Rinv_eq_reg in E. apply Rplus_eq_reg_l in E. apply exp_inv in E.
  apply (Rmult_eq_reg_l (- k)); lra.
Qed.

Ltac num_eval :=
  repeat (cbn -[ndiv sigmoid];
          rewrite ?sigmoid_num; rewrite ?ndiv_num by lra).

Close Scope R_scope.

(** ** The weights *)

Lemma matvec_length (A : coo) (z : vec) : length (matvec A z) = nrows A.
Proof. unfold matvec. now rewrite length_map, length_seq. Qed.

Lemma assemble_nrows (H W : nat) (normal_map : grid normal)
  (normal_mask : grid bool) (K : option (grid num)) (step_size : num) :
  rect H W normal_map -> rect H W normal_mask ->
  let sys := assemble normal_map normal_mask K step_size in
  nrows (sys_A1 sys) = count normal_mask
  /\ nrows (sys_A2 sys) = count normal_mask
  /\ nrows (sys_A3 sys) = count normal_mask
  /\ nrows (sys_A4 sys) = count normal_mask.
Proof.
  intros Hm Hk sys.
  destruct (Nz_diagonal H W normal_map normal_mask K step_size Hm Hk)
    as (Nu & Nv & Eu & Ev & Lu & Lv).
  destruct (assemble_blocks normal_map normal_mask K step_size)
    as (E1 & E2 & E3 & E4 & _).
  fold sys in Eu, Ev, E1, E2, E3, E4.
  rewrite E1, E2, E3, E4, Eu, Ev. unfold nrows, spmm, diags.
  cbn [shape fst]. auto.
Qed.

Lemma nth_map_nan (f : num -> num) (v : vec) (i : nat) :
  f NaN = NaN -> nth i (map f v) NaN = f (nth i v NaN).
Proof.
  intros H. transitivity (nth i (map f v) (f NaN)); [now rewrite H|].
  apply map_nth.
Qed.

Lemma update_wu_nth (sys : linear_system) (z : vec) (k : num) (i : nat) :
  i < nrows (sys_A1 sys) -> i < nrows (sys_A2 sys) ->
  nth i (update_wu sys z k) NaN
  = sigmoid (nsub (nsq (nth i (matvec (sys_A2 sys) z) NaN))
               (nsq (nth i (matvec (sys_A1 sys) z) NaN))) k.
Proof.
  intros H1 H2. unfold update_wu, vsub, vsq.
  rewrite (nth_indep _ NaN ((fun x => sigmoid x k) NaN))
    by (rewrite length_map, map2_length, !length_map, !matvec_length; lia).
  rewrite (map_nth (fun x => sigmoid x k)).
  rewrite (map2_nth nsub _ _ i NaN NaN NaN)
    by (rewrite length_map, matvec_length; lia).
  now rewrite !(nth_map_nan nsq) by reflexivity.
Qed.

Lemma update_wv_nth (sys : linear_system) (z : vec) (k : num) (i : nat) :
  i < nrows (sys_A3 sys) -> i < nrows (sys_A4 sys) ->
  nth i (update_wv sys z k) NaN
  = sigmoid (nsub (nsq (nth i (matvec (sys_A4 sys) z) NaN))
               (nsq (nth i (matvec (sys_A3 sys) z) NaN))) k.
Proof.
  intros H1 H2. unfold update_wv, vsub, vsq.
  rewrite (nth_indep _ NaN ((fun x => sigmoid x k) NaN))
    by (rewrite length_map, map2_length, !length_map, !matvec_length; lia).
  rewrite (map_nth (fun x => sigmoid x k)).
  rewrite (map2_nth nsub _ _ i NaN NaN NaN)
    by (rewrite length_map, matvec_length; lia).
  now rewrite !(nth_map_nan nsq) by reflexivity.
Qed.

Lemma update_wu_length (sys : linear_system) (z : vec) (k : num) :
  length (update_wu sys z k)
  = Nat.min (nrows (sys_A2 sys)) (nrows (sys_A1 sys)).
Proof.
  unfold update_wu, vsub, vsq.
  now rewrite length_map, map2_length, !length_map, !matvec_length.
Qed.

Lemma update_wv_length (sys : linear_system) (z : vec) (k : num) :
  length (update_wv sys z k)
  = Nat.min (nrows (sys_A4 sys)) (nrows (sys_A3 sys)).
Proof.
  unfold update_wv, vsub, vsq.
  now rewrite length_map, map2_length, !length_map, !matvec_length.
Qed.

Lemma scalar_sub_nth (s : num) (v : vec) (i : nat) :
  i < length v -> nth i (scalar_sub s v) NaN = nsub s (nth i v NaN).
Proof.
  intros Hi. unfold scalar_sub.
  rewrite (nth_indep _ NaN ((fun x => nsub s x) NaN))
    by (now rewrite length_map).
  apply (map_nth (fun x => nsub s x)).
Qed.

(** The four blocks of the weight vector. *)
Lemma weight_vector_nth (wu wv : vec) (N i : nat) :
  length wu = N -> length wv = N -> i < N ->
  nth i (weight_vector wu wv) NaN = nth i wu NaN
  /\ nth (N + i) (weight_vector wu wv) NaN = nsub (Num 1) (nth i wu NaN)
  /\ nth (2 * N + i) (weight_vector wu wv) NaN = nth i wv NaN
  /\ nth (3 * N + i) (weight_vector wu wv) NaN = nsub (Num 1) (nth i wv NaN).
Proof.
  intros Lu Lv Hi. unfold weight_vector.
  assert (Lsu : length (scalar_sub (Num 1) wu) = N)
    by (unfold scalar_sub; now rewrite length_map).
  repeat split.
  - rewrite app_nth1 by lia. reflexivity.
  - rewrite app_nth2 by lia. rewrite app_nth1 by lia.
    replace (N + i - length wu) with i by lia. apply scalar_sub_nth. lia.
  - rewrite app_nth2 by lia. rewrite app_nth2 by lia. rewrite app_nth1 by lia.
    f_equal. lia.
  - rewrite app_nth2 by lia. rewrite app_nth2 by lia. rewrite app_nth2 by lia.
    replace (3 * N + i - length wu - length (scalar_sub (Num 1) wu) - length wv)
      with i by lia.
    apply scalar_sub_nth. lia.
Qed.

Example update_wu_2x1 :
  let normal_map := [[(Num 0, Num 1, Num (-1))]; [(Num 0, Num 1, Num (-1))]] in
  let sys := assemble normal_map [[true]; [true]] None (Num 1) in
  update_wu sys [Num (-1 / 2); Num (1 / 2)] (Num 2)
  = [Num (1 / (1 + exp (- 2)))%R; Num (1 / (1 + exp 2))%R].
Proof.
  cbv zeta. num_eval. repeat f_equal; lra.
Qed.

(** C1, as stated, fails.  Two pixels, one above the other, with normals
    (nx, ny, nz) = (1, 0, 1): z = (-1/2, 1/2) solves the normal equations
    of the first iteration exactly.  At pixel 0 the backward estimate is
    -1 and the forward one 0, the weight of the forward block is
    sigmoid(1, 2), and [dp^2 - du^2] is -1. *)
Lemma bilateral_weights_claim_counterexample :
  let normal_map := [[(Num 0, Num 1, Num (-1))]; [(Num 0, Num 1, Num (-1))]] in
  let mask := [[true]; [true]] in
  let sys := assemble normal_map mask None (Num 1) in
  let cg := fun (_ : coo) (_ _ : vec) (_ : nat) (_ : num) =>
              [Num (-1 / 2); Num (1 / 2)] in
  let k := Num 2 in
  let st' := iteration cg sys None k (Num 0) (Num (1 / 100000)) 500
               (initial_state sys mask) in
  nth 0 (diagonal (st_W st')) NaN
  <> nth 0 (claimed_forward_weight sys (st_z st') k) NaN.
Proof.
  cbv zeta. unfold iteration, solve. cbn [st_W st_z].
  rewrite diagonal_diags. unfold claimed_forward_weight.
  num_eval. intros E. injection E as E.
  apply sigmoid_num_inj in E; lra.
Qed.

(** C1, amended.  In every iteration, with z the solution just computed,
    the weight of the forward block of an axis is
    [sigmoid(du^2 - dp^2, k)], where [dp = A1 @ z] is the forward and
    [du = A2 @ z] the backward estimate (A3, A4 for the other axis), and the
    weight of the backward block is one minus it; the diagonal of W is the
    concatenation (wu, 1 - wu, wv, 1 - wv), block by block as in A. *)
Theorem bilateral_weights_spec
  (cg : coo -> vec -> vec -> nat -> num -> vec) (H W : nat)
  (normal_map : grid normal) (normal_mask : grid bool)
  (K : option (grid num)) (step_size : num) (depth_prior : option prior)
  (k lambda1 cg_tol : num) (cg_max_iter : nat) (st : state) :
  rect H W normal_map -> rect H W normal_mask ->
  let sys := assemble normal_map normal_mask K step_size in
  let N := count normal_mask in
  let st' := iteration cg sys depth_prior k lambda1 cg_tol cg_max_iter st in
  let z := st_z st' in
  let dp_u := matvec (sys_A1 sys) z in
  let du_u := matvec (sys_A2 sys) z in
  let dp_v := matvec (sys_A3 sys) z in
  let du_v := matvec (sys_A4 sys) z in
  exists wu wv : vec,
    (st_wu st' = Some wu /\ st_wv st' = Some wv
     /\ length wu = N /\ length wv = N)
    /\ diagonal (st_W st')
       = wu ++ scalar_sub (Num 1) wu ++ wv ++ scalar_sub (Num 1) wv
    /\ forall i, i < N ->
         (nth i wu NaN
          = sigmoid (nsub (nsq (nth i du_u NaN)) (nsq (nth i dp_u NaN))) k
          /\ nth i wv NaN
             = sigmoid (nsub (nsq (nth i du_v NaN)) (nsq (nth i dp_v NaN))) k)
         /\ (nth i (diagonal (st_W st')) NaN = nth i wu NaN
             /\ nth (N + i) (diagonal (st_W st')) NaN
                = nsub (Num 1) (nth i wu NaN)
             /\ nth (2 * N + i) (diagonal (st_W st')) NaN = nth i wv NaN
             /\ nth (3 * N + i) (diagonal (st_W st')) NaN
                = nsub (Num 1) (nth i wv NaN)).
Proof.
  intros Hm Hk sys N st' z dp_u du_u dp_v du_v.
  destruct (assemble_nrows H W normal_map normal_mask K step_size Hm Hk)
    as (N1 & N2 & N3 & N4).
  fold sys in N1, N2, N3, N4. fold N in N1, N2, N3, N4.
  exists (update_wu sys z k), (update_wv sys z k).
  assert (Lu : length (update_wu sys z k) = N)
    by (rewrite update_wu_length, N1, N2; apply Nat.min_id).
  assert (Lv : length (update_wv sys z k) = N)
    by (rewrite update_wv_length, N3, N4; apply Nat.min_id).
  assert (EW : diagonal (st_W st')
               = weight_vector (update_wu sys z k) (update_wv sys z k))
    by (unfold st', iteration; cbn [st_W]; apply diagonal_diags).
  split; [repeat split; auto|]. split; [exact EW|].
  intros i Hi. split.
  - split; [apply update_wu_nth | apply update_wv_nth]; lia.
  - rewrite EW. now apply weight_vector_nth.
Qed.

Lemma bilateral_weights_witness :
  let normal_map := [[(Num 0, Num 0, Num (-1))]; [(Num 0, Num 0, Num (-1))]] in
  let mask := [[true]; [true]] in
  let sys := assemble normal_map mask None (Num 1) in
  let cg := fun (_ : coo) (_ x0 : vec) (_ : nat) (_ : num) => x0 in
  let st' := iteration cg sys None (Num 2) (Num 0) (Num 0) 0
               (initial_state sys mask) in
  rect 2 1 normal_map /\ rect 2 1 mask
  /\ exists wu wv : vec,
       diagonal (st_W st')
       = wu ++ scalar_sub (Num 1) wu ++ wv ++ scalar_sub (Num 1) wv.
Proof.
  assert (Hm : rect 2 1 [[(Num 0, Num 0, Num (-1))]; [(Num 0, Num 0, Num (-1))]])
    by (split; [reflexivity | repeat constructor]).
  assert (Hk : rect 2 1 [[true]; [true]])
    by (split; [reflexivity | repeat constructor]).
  split; [exact Hm | split; [exact Hk|]].
  destruct (bilateral_weights_spec
              (fun (_ : coo) (_ x0 : vec) (_ : nat) (_ : num) => x0)
              2 1 _ _ None (Num 1) None (Num 2) (Num 0) (Num 0) 0
              (initial_state
                 (assemble
                    [[(Num 0, Num 0, Num (-1))]; [(Num 0, Num 0, Num (-1))]]
                    [[true]; [true]] None (Num 1))
                 [[true]; [true]])
              Hm Hk) as (wu & wv & _ & E & _).
  exists wu, wv. exact E.
Defined.

(** ** Numeric systems *)

Lemma is_num_inv (a : num) : is_num a -> exists x, a = Num x.
Proof. destruct a as [x|]; [now exists x | contradiction]. Qed.

Lemma lift2_is_num (f : R -> R -> R) (a b : num) :
  is_num a -> is_num b -> is_num (lift2 f a b).
Proof. destruct a, b; simpl; auto. Qed.

Lemma lift1_is_num (f : R -> R) (a : num) : is_num a -> is_num (lift1 f a).
Proof. destruct a; simpl; auto. Qed.

Lemma nsum_is_num (l : vec) : numeric_vec l -> is_num (nsum l).
Proof.
  intros H; induction H as [|a t Ha Ht IH]; simpl; [exact I|].
  now apply lift2_is_num.
Qed.

Lemma map2_numeric (f : R -> R -> R) (u v : vec) :
  numeric_vec u -> numeric_vec v -> numeric_vec (map2 (lift2 f) u v).
Proof.
  intros Hu; revert v; induction Hu as [|a t Ha Ht IH]; intros v Hv;
    [constructor|].
  destruct Hv as [|b t' Hb Ht']; constructor.
  - now apply lift2_is_num.
  - now apply IH.
Qed.

Lemma map_numeric (f : num -> num) (v : vec) :
  (forall a, is_num a -> is_num (f a)) -> numeric_vec v ->
  numeric_vec (map f v).
Proof. intros Hf Hv; induction Hv; constructor; auto. Qed.

Lemma nth_numeric (v : vec) (i : nat) (x : R) :
  numeric_vec v -> is_num (nth i v (Num x)).
Proof.
  intros Hv; revert i; induction Hv as [|a t Ha Ht IH]; intros [|i]; simpl;
    auto.
Qed.

Lemma matvec_numeric (A : coo) (z : vec) :
  numeric_coo A -> numeric_vec z -> numeric_vec (matvec A z).
Proof.
  intros HA Hz. unfold matvec, numeric_vec. apply Forall_forall.
  intros y Hy. apply in_map_iff in Hy. destruct Hy as [i [<- _]].
  unfold row_dot. apply nsum_is_num. apply Forall_forall.
  intros t Ht. apply in_map_iff in Ht. destruct Ht as [e [<- He]].
  apply filter_In in He. destruct He as [He _].
  unfold numeric_coo in HA. rewrite Forall_forall in HA.
  apply lift2_is_num; [now apply HA | now apply nth_numeric].
Qed.

Lemma masked_In {A : Type} (vals : list A) (m : list bool) (x : A) :
  In x (masked vals m) -> In x vals.
Proof.
  revert m; induction vals as [|v vs IH]; intros [|b bs] Hin; simpl in *;
    try contradiction.
  destruct b; [destruct Hin as [->|Hin]|]; eauto.
Qed.

Lemma select_Forall {A : Type} (P : A -> Prop) (a : grid A) (m : grid bool) :
  Forall (Forall P) a -> Forall P (select a m).
Proof.
  intros Ha; revert m; induction Ha as [|row rest Hrow Ha IH]; intros [|rm tm];
    simpl; try constructor.
  apply Forall_app. split; [|apply IH].
  apply Forall_forall. intros x Hx. apply masked_In in Hx.
  rewrite Forall_forall in Hrow. now apply Hrow.
Qed.

Lemma channel_Forall (f : normal -> num) (normal_map : grid normal) :
  (forall p, numeric_normal p -> is_num (f p)) ->
  Forall (Forall numeric_normal) normal_map ->
  Forall (Forall is_num) (channel f normal_map).
Proof.
  intros Hf Hm. unfold channel. induction Hm as [|row rest Hrow Hm IH];
    simpl; constructor; auto.
  induction Hrow; simpl; constructor; auto.
Qed.

Lemma diags_numeric (v : vec) : numeric_vec v -> numeric_coo (diags v).
Proof.
  intros Hv. unfold numeric_coo, diags. cbn [entries].
  apply Forall_forall. intros e He. apply in_map_iff in He.
  destruct He as [[i x] [<- Hix]]. apply in_combine_r in Hix.
  unfold numeric_vec in Hv. rewrite Forall_forall in Hv. now apply Hv.
Qed.

Lemma spmm_numeric (A B : coo) :
  numeric_coo A -> numeric_coo B -> numeric_coo (spmm A B).
Proof.
  intros HA HB. unfold numeric_coo in *. rewrite Forall_forall in *.
  intros e He. unfold spmm in He. cbn [entries] in He.
  apply in_flat_map in He. destruct He as [a [Ha He]].
  apply in_map_iff in He. destruct He as [b [<- Hb]].
  apply filter_In in Hb. destruct Hb as [Hb _].
  apply lift2_is_num; auto.
Qed.

Lemma difference_block_numeric (pixel_idx : grid nat) (n : nat)
  (h minus plus : grid bool) (s : R) :
  s <> 0%R ->
  numeric_coo (sp_div (difference_block pixel_idx n h minus plus) (Num s)).
Proof.
  intros Hs. unfold numeric_coo, sp_div, map_values, difference_block,
    coo_matrix. cbn [entries]. apply Forall_forall. intros e He.
  apply in_map_iff in He. destruct He as [[rc v] [<- He']].
  apply in_combine_r in He'. cbn [entry_val snd].
  apply in_app_iff in He'.
  destruct He' as [Hin|Hin]; apply repeat_spec in Hin; rewrite Hin;
    rewrite ndiv_num by exact Hs; exact I.
Qed.

Lemma coefficients_numeric (normal_mask : grid bool) (K : option (grid num))
  (nx ny nz : vec) :
  numeric_camera K -> numeric_vec nx -> numeric_vec ny -> numeric_vec nz ->
  numeric_coo (fst (coefficients normal_mask K nx ny nz))
  /\ numeric_coo (snd (coefficients normal_mask K nx ny nz)).
Proof.
  intros HK Hx Hy Hz. destruct K as [K|]; cbn [coefficients fst snd].
  - destruct HK as (Hcx & Hcy & Hfx & Hfy).
    assert (Hof : forall (s : num) (l : list nat),
               is_num s -> numeric_vec (vsub_scalar (map of_nat l) s)).
    { intros s l Hs. unfold vsub_scalar. apply map_numeric.
      - intros a Ha. now apply lift2_is_num.
      - apply Forall_forall. intros a Ha. apply in_map_iff in Ha.
        destruct Ha as [n [<- _]]. exact I. }
    split; apply diags_numeric; unfold vadd, vmul; repeat apply map2_numeric;
      auto; apply map_numeric; auto; intros a Ha; now apply lift2_is_num.
  - split; now apply diags_numeric.
Qed.

Lemma assemble_numeric (normal_map : grid normal) (normal_mask : grid bool)
  (K : option (grid num)) (s : R) :
  Forall (Forall numeric_normal) normal_map -> numeric_camera K -> s <> 0%R ->
  let sys := assemble normal_map normal_mask K (Num s) in
  numeric_coo (sys_A1 sys) /\ numeric_coo (sys_A2 sys)
  /\ numeric_coo (sys_A3 sys) /\ numeric_coo (sys_A4 sys).
Proof.
  intros Hm HK Hs sys.
  destruct (assemble_blocks normal_map normal_mask K (Num s))
    as (E1 & E2 & E3 & E4 & _).
  pose proof (assemble_Nz normal_map normal_mask K (Num s)) as EN.
  cbv zeta in EN. fold sys in E1, E2, E3, E4, EN.
  assert (Hx : numeric_vec (sys_nx sys)).
  { unfold sys. rewrite assemble_nx. apply select_Forall, channel_Forall; auto.
    intros p Hp. apply Hp. }
  assert (Hy : numeric_vec (sys_ny sys)).
  { unfold sys. rewrite assemble_ny. apply select_Forall, channel_Forall; auto.
    intros p Hp. apply Hp. }
  assert (Hz : numeric_vec (sys_nz sys)).
  { unfold sys. rewrite assemble_nz. unfold vneg. apply map_numeric.
    - intros a Ha. now apply lift1_is_num.
    - apply select_Forall, channel_Forall; auto. intros p Hp. apply Hp. }
  destruct (coefficients_numeric normal_mask K _ _ _ HK Hx Hy Hz) as [Hu Hv].
  rewrite <- EN in Hu, Hv. cbn [fst snd] in Hu, Hv.
  rewrite E1, E2, E3, E4.
  repeat split; apply spmm_numeric; auto;
    now apply difference_block_numeric.
Qed.

Lemma sigmoid_map_range (xs : vec) (k : R) :
  numeric_vec xs ->
  Forall in_unit_interval (map (fun x => sigmoid x (Num k)) xs).
Proof.
  intros Hx; induction Hx as [|a t Ha Ht IH]; simpl; constructor; auto.
  apply is_num_inv in Ha. destruct Ha as [x ->].
  exists (1 / (1 + exp (- k * x)))%R. split; [apply sigmoid_num|].
  apply sigmoid_range.
Qed.

Lemma complementary_of_range (w : vec) :
  Forall in_unit_interval w ->
  Forall2 complementary w (scalar_sub (Num 1) w).
Proof.
  intros Hw; induction Hw as [|a t Ha Ht IH]; simpl; constructor; auto.
  destruct Ha as [x [-> Hx]]. exists x. cbn.
  repeat split; try lra. f_equal. lra.
Qed.

Lemma nonnegative_of_range (w : vec) :
  Forall in_unit_interval w ->
  Forall nonnegative w /\ Forall nonnegative (scalar_sub (Num 1) w).
Proof.
  intros Hw; induction Hw as [|a t Ha Ht [IH1 IH2]]; simpl;
    split; constructor; auto; destruct Ha as [x [-> Hx]].
  - exists x. split; [reflexivity | lra].
  - exists (1 - x)%R. split; [reflexivity | lra].
Qed.

Lemma diagonal_sp_scale (s : num) (A : coo) :
  diagonal (sp_scale s A) = map (nmul s) (diagonal A).
Proof.
  unfold diagonal, sp_scale, map_values. cbn [entries].
  now rewrite !map_map.
Qed.

Lemma assemble_b_length (H W : nat) (normal_map : grid normal)
  (normal_mask : grid bool) (K : option (grid num)) (step_size : num) :
  rect H W normal_map -> rect H W normal_mask ->
  length (sys_b (assemble normal_map normal_mask K step_size))
  = 4 * count normal_mask.
Proof.
  intros Hm Hk.
  destruct (assemble_blocks normal_map normal_mask K step_size)
    as (_ & _ & _ & _ & _ & Eb).
  destruct (normals_at_pixels H W normal_map normal_mask K step_size Hm Hk)
    as [(Lx & Ly & _) _].
  rewrite Eb. unfold vneg. rewrite !length_app, !length_map, Lx, Ly. lia.
Qed.

Lemma initial_weights (sys : linear_system) (normal_mask : grid bool) :
  diagonal (st_W (initial_state sys normal_mask))
  = repeat (Num (1 / 2)) (length (sys_b sys)).
Proof.
  unfold initial_state. cbn [st_W].
  rewrite diagonal_sp_scale, diagonal_diags, map_map.
  induction (sys_b sys) as [|x t IH]; [reflexivity|].
  cbn [map length repeat]. rewrite IH. f_equal. cbn. f_equal. lra.
Qed.

(** C4, as stated, fails: with a depth prior whose mask holds no valid
    pixel the offset is NaN, z becomes NaN, and a solver that returns NaN
    for a NaN start leaves the weights of the horizontal axis NaN: they do
    not add up to 1 and W is not nonnegative. *)
Lemma weight_complementarity_claim_counterexample :
  let cg := fun (_ : coo) (_ x0 : vec) (_ : nat) (_ : num) => x0 in
  let mask := [[true; true]] in
  let sys := assemble [[(Num 1, Num 0, Num (-1)); (Num 1, Num 0, Num (-1))]]
               mask None (Num 1) in
  let depth_prior :=
    Some (make_prior mask None [[Num 5; Num 5]] [[false; false]]) in
  let st' := iteration cg sys depth_prior (Num 2) (Num 0) (Num (1 / 100000))
               500 (initial_state sys mask) in
  st_wv st' = Some [NaN; NaN]
  /\ ~ Forall2 complementary [NaN; NaN] (scalar_sub (Num 1) [NaN; NaN])
  /\ ~ Forall nonnegative (diagonal (st_W st')).
Proof.
  cbv zeta.
  assert (E : prior_offset
                (diags (map (fun b : bool => if b then Num 1 else Num 0)
                          (select [[false; false]] [[true; true]])))
                (select [[Num 5; Num 5]] [[true; true]])
                (st_z (initial_state
                         (assemble
                            [[(Num 1, Num 0, Num (-1));
                              (Num 1, Num 0, Num (-1))]]
                            [[true; true]] None (Num 1))
                         [[true; true]])) = NaN).
  { unfold prior_offset, nanmean. cbn -[ndiv is_zero].
    rewrite !is_zero_true by lra. cbn -[ndiv]. apply ndiv_zero. }
  assert (Ewv : update_wv
                  (assemble
                     [[(Num 1, Num 0, Num (-1)); (Num 1, Num 0, Num (-1))]]
                     [[true; true]] None (Num 1))
                  [NaN; NaN] (Num 2) = [NaN; NaN]).
  { cbn -[ndiv]. rewrite !ndiv_num by lra. reflexivity. }
  unfold iteration, solve. cbn [make_prior st_wv st_W]. rewrite E.
  change (vadd_scalar
            (st_z (initial_state
                     (assemble
                        [[(Num 1, Num 0, Num (-1)); (Num 1, Num 0, Num (-1))]]
                        [[true; true]] None (Num 1))
                     [[true; true]])) NaN) with [NaN; NaN].
  rewrite Ewv, diagonal_diags. split; [reflexivity|]. split.
  - intros HF. inversion HF as [|a b la lb Hc _]; subst.
    destruct Hc as (w & Hw & _). discriminate.
  - intros HF. unfold weight_vector in HF.
    apply Forall_app in HF. destruct HF as [_ HF].
    apply Forall_app in HF. destruct HF as [_ HF].
    apply Forall_app in HF. destruct HF as [HF _].
    inversion HF as [|a la Hn _]; subst.
    destruct Hn as (w & Hw & _). discriminate.
Qed.

(** C4, amended.  The initial weight vector holds 0.5 in each of its 4N
    entries.  In every iteration whose solution z is numeric (inputs
    numeric, step size not zero), the forward and backward weights of each
    axis are numbers of [0, 1] that add up to 1 exactly, entry by entry, and
    every entry of the diagonal of W is nonnegative. *)
Theorem weight_complementarity
  (cg : coo -> vec -> vec -> nat -> num -> vec) (H W : nat)
  (normal_map : grid normal) (normal_mask : grid bool)
  (K : option (grid num)) (s : R) (depth_prior : option prior) (k : R)
  (lambda1 cg_tol : num) (cg_max_iter : nat) (st : state) :
  rect H W normal_map -> rect H W normal_mask ->
  Forall (Forall numeric_normal) normal_map -> numeric_camera K ->
  s <> 0%R ->
  let sys := assemble normal_map normal_mask K (Num s) in
  let N := count normal_mask in
  diagonal (st_W (initial_state sys normal_mask)) = repeat (Num (1 / 2)) (4 * N)
  /\ let st' :=
       iteration cg sys depth_prior (Num k) lambda1 cg_tol cg_max_iter st in
     numeric_vec (st_z st') ->
     exists wu wv : vec,
       (st_wu st' = Some wu /\ st_wv st' = Some wv
        /\ length wu = N /\ length wv = N)
       /\ diagonal (st_W st')
          = wu ++ scalar_sub (Num 1) wu ++ wv ++ scalar_sub (Num 1) wv
       /\ Forall2 complementary wu (scalar_sub (Num 1) wu)
       /\ Forall2 complementary wv (scalar_sub (Num 1) wv)
       /\ Forall nonnegative (diagonal (st_W st')).
Proof.
  intros Hm Hk Hnum HK Hs sys N. split.
  - rewrite initial_weights. unfold sys, N.
    now rewrite (assemble_b_length H W).
  - intros st' Hz.
    destruct (assemble_nrows H W normal_map normal_mask K (Num s) Hm Hk)
      as (N1 & N2 & N3 & N4).
    destruct (assemble_numeric normal_map normal_mask K s Hnum HK Hs)
      as (A1 & A2 & A3 & A4).
    fold sys in N1, N2, N3, N4, A1, A2, A3, A4.
    set (z := st_z st') in *.
    exists (update_wu sys z (Num k)), (update_wv sys z (Num k)).
    assert (Ru : Forall in_unit_interval (update_wu sys z (Num k))).
    { apply sigmoid_map_range. unfold vsub, nsub. apply map2_numeric;
        apply map_numeric; try (now apply matvec_numeric);
        intros a Ha; now apply lift2_is_num. }
    assert (Rv : Forall in_unit_interval (update_wv sys z (Num k))).
    { apply sigmoid_map_range. unfold vsub, nsub. apply map2_numeric;
        apply map_numeric; try (now apply matvec_numeric);
        intros a Ha; now apply lift2_is_num. }
    assert (EW : diagonal (st_W st')
                 = weight_vector (update_wu sys z (Num k))
                     (update_wv sys z (Num k)))
      by (unfold st', iteration; cbn [st_W]; apply diagonal_diags).
    split.
    { repeat split; auto.
      - rewrite update_wu_length, N1, N2. apply Nat.min_id.
      - rewrite update_wv_length, N3, N4. apply Nat.min_id. }
    split; [exact EW|].
    split; [now apply complementary_of_range|].
    split; [now apply complementary_of_range|].
    rewrite EW. unfold weight_vector.
    destruct (nonnegative_of_range _ Ru) as [U1 U2].
    destruct (nonnegative_of_range _ Rv) as [V1 V2].
    repeat (apply Forall_app; split); assumption.
Qed.

Lemma weight_complementarity_witness :
  let normal_map := [[(Num 0, Num 0, Num (-1))]; [(Num 0, Num 0, Num (-1))]] in
  let mask := [[true]; [true]] in
  let sys := assemble normal_map mask None (Num 1) in
  let cg := fun (_ : coo) (_ x0 : vec) (_ : nat) (_ : num) => x0 in
  let st' := iteration cg sys None (Num 2) (Num 0) (Num 0) 0
               (initial_state sys mask) in
  (rect 2 1 normal_map /\ rect 2 1 mask
   /\ Forall (Forall numeric_normal) normal_map /\ numeric_camera None
   /\ 1%R <> 0%R /\ numeric_vec (st_z st'))
  /\ diagonal (st_W (initial_state sys mask))
     = repeat (Num (1 / 2)) (4 * count mask)
  /\ Forall nonnegative (diagonal (st_W st')).
Proof.
  assert (Hm : rect 2 1 [[(Num 0, Num 0, Num (-1))]; [(Num 0, Num 0, Num (-1))]])
    by (split; [reflexivity | repeat constructor]).
  assert (Hk : rect 2 1 [[true]; [true]])
    by (split; [reflexivity | repeat constructor]).
  assert (Hn : Forall (Forall numeric_normal)
                 [[(Num 0, Num 0, Num (-1))]; [(Num 0, Num 0, Num (-1))]])
    by (repeat constructor).
  assert (Hs : 1%R <> 0%R) by lra.
  assert (Hz : numeric_vec
                 (st_z (iteration
                          (fun (_ : coo) (_ x0 : vec) (_ : nat) (_ : num) => x0)
                          (assemble
                             [[(Num 0, Num 0, Num (-1))];
                              [(Num 0, Num 0, Num (-1))]]
                             [[true]; [true]] None (Num 1))
                          None (Num 2) (Num 0) (Num 0) 0
                          (initial_state
                             (assemble
                                [[(Num 0, Num 0, Num (-1))];
                                 [(Num 0, Num 0, Num (-1))]]
                                [[true]; [true]] None (Num 1))
                             [[true]; [true]]))))
    by (cbn; repeat constructor).
  destruct (weight_complementarity
              (fun (_ : coo) (_ x0 : vec) (_ : nat) (_ : num) => x0)
              2 1 _ [[true]; [true]] None 1 None 2 (Num 0) (Num 0) 0
              (initial_state
                 (assemble
                    [[(Num 0, Num 0, Num (-1))]; [(Num 0, Num 0, Num (-1))]]
                    [[true]; [true]] None (Num 1))
                 [[true]; [true]])
              Hm Hk Hn I Hs) as [E0 E1].
  destruct (E1 Hz) as (wu & wv & _ & _ & _ & _ & Hnn).
  cbv zeta. repeat split; auto; try apply Hm; try apply Hk.
Defined.

(** ** The offset of the depth prior *)

Lemma row_entries_diags_from (start : nat) (v : vec) (i : nat) :
  filter (fun e => entry_row e =? i)
    (map (fun iv : nat * num => (fst iv, fst iv, snd iv))
       (combine (seq start (length v)) v))
  = if (start <=? i) && (i <? start + length v)
    then [(i, i, nth (i - start) v NaN)]
    else [].
Proof.
  revert start; induction v as [|x t IH]; intros start.
  - cbn [length combine seq map filter].
    destruct (Nat.leb_spec start i); destruct (Nat.ltb_spec i (start + 0));
      cbn [andb]; auto; lia.
  - rewrite diags_entries_from. cbn [filter entry_row fst length].
    rewrite IH.
    destruct (Nat.eqb_spec start i) as [->|Hne].
    + rewrite Nat.sub_diag. cbn [nth].
      replace (S i <=? i) with false by (symmetry; apply Nat.leb_gt; lia).
      replace (i <=? i) with true by (symmetry; apply Nat.leb_le; lia).
      replace (i <? i + S (length t)) with true
        by (symmetry; apply Nat.ltb_lt; lia).
      reflexivity.
    + destruct (Nat.leb_spec (S start) i) as [Hle|Hgt].
      * replace (start <=? i) with true by (symmetry; apply Nat.leb_le; lia).
        replace (i <? start + S (length t)) with (i <? S start + length t)
          by (f_equal; lia).
        cbn [andb]. destruct (i <? S start + length t); auto.
        replace (i - start) with (S (i - S start)) by lia. reflexivity.
      * replace (start <=? i) with false by (symmetry; apply Nat.leb_gt; lia).
        reflexivity.
Qed.

(** [diags(v) @ x], entry by entry. *)
Lemma matvec_diags (v x : vec) :
  matvec (diags v) x
  = map (fun i => nadd (nmul (nth i v NaN) (nth i x (Num 0))) (Num 0))
      (seq 0 (length v)).
Proof.
  unfold matvec. change (nrows (diags v)) with (length v).
  apply map_ext_in. intros i Hi. apply in_seq in Hi.
  unfold row_dot, row_entries, diags. cbn [entries].
  rewrite row_entries_diags_from, Nat.sub_0_r.
  replace (0 <=? i) with true by (symmetry; apply Nat.leb_le; lia).
  replace (i <? 0 + length v) with true by (symmetry; apply Nat.ltb_lt; lia).
  reflexivity.
Qed.

Lemma vsub_map_Num (a b : list R) :
  vsub (map Num a) (map Num b) = map Num (map2 Rminus a b).
Proof.
  unfold vsub.
  revert b; induction a as [|x t IH]; intros [|y t']; cbn [map map2]; auto.
  rewrite IH. reflexivity.
Qed.

Lemma nsum_map_Num (l : list R) : nsum (map Num l) = Num (Rsum l).
Proof.
  induction l as [|x t IH]; simpl; auto. now rewrite IH.
Qed.

Lemma nth_map_lt {A B : Type} (f : A -> B) (l : list A) (i : nat) (da : A)
  (db : B) :
  (i < length l)%nat -> nth i (map f l) db = f (nth i l da).
Proof.
  intros Hi. rewrite (nth_indep _ db (f da)) by (now rewrite length_map).
  apply map_nth.
Qed.

Lemma depth_diff_residuals (m : list bool) (zp zr : list R) :
  length zp = length m -> length zr = length m ->
  matvec (prior_matrix m) (vsub (map Num zp) (map Num zr))
  = map Num (prior_residuals m zp zr).
Proof.
  intros Lp Lr. unfold prior_matrix, prior_residuals.
  rewrite matvec_diags, vsub_map_Num, length_map, map_map.
  apply map_ext_in. intros i Hi. apply in_seq in Hi.
  rewrite (nth_map_lt _ m i false) by lia.
  rewrite (nth_map_lt Num _ i 0%R) by (rewrite map2_length; lia).
  rewrite (map2_nth Rminus zp zr i 0%R 0%R 0%R) by lia.
  destruct (nth i m false); cbn; f_equal; lra.
Qed.

Lemma nan_marking (l : list R) :
  filter not_nan (map (fun d => if is_zero d then NaN else d) (map Num l))
  = map Num (nonzero l).
Proof.
  induction l as [|x t IH]; [reflexivity|].
  unfold nonzero in *. cbn [map filter is_zero].
  destruct (Req_dec_T x 0); cbn [not_nan map]; now rewrite IH.
Qed.

Lemma vadd_scalar_nan (z : vec) : vadd_scalar z NaN = map (fun _ => NaN) z.
Proof.
  unfold vadd_scalar. apply map_ext. intros [x|]; reflexivity.
Qed.

Lemma prior_offset_cases (m : list bool) (zp zr : list R) :
  length zp = length m -> length zr = length m ->
  let res := nonzero (prior_residuals m zp zr) in
  let offset := prior_offset (prior_matrix m) (map Num zp) (map Num zr) in
  (res <> [] ->
   offset = Num (Rsum res / INR (length res))
   /\ vadd_scalar (map Num zr) offset
      = map (fun x => Num (x + Rsum res / INR (length res))) zr)
  /\ (res = [] ->
      offset = NaN
      /\ vadd_scalar (map Num zr) offset = map (fun _ => NaN) zr).
Proof.
  intros Lp Lr res offset.
  assert (Eo : offset = ndiv (Num (Rsum res)) (Num (INR (length res)))).
  { unfold offset, prior_offset, nanmean.
    rewrite depth_diff_residuals by assumption.
    rewrite nan_marking. fold res.
    now rewrite nsum_map_Num, length_map. }
  split.
  - intros Hne.
    assert (Hlen : INR (length res) <> 0%R).
    { apply not_0_INR. destruct res; [contradiction | discriminate]. }
    rewrite ndiv_num in Eo by exact Hlen. split; [exact Eo|].
    rewrite Eo. unfold vadd_scalar. now rewrite map_map.
  - intros Hnil. rewrite Hnil in Eo. cbn [length INR] in Eo.
    rewrite ndiv_zero in Eo. split; [exact Eo|].
    rewrite Eo, vadd_scalar_nan. now rewrite map_map.
Qed.

Example prior_offset_two_pixels :
  prior_offset (prior_matrix [true; false]) [Num 5; Num 7] [Num 2; Num 1]
  = Num 3.
Proof.
  destruct (prior_offset_cases [true; false] [5; 7]%R [2; 1]%R eq_refl eq_refl)
    as [Hsome _].
  assert (E : nonzero (prior_residuals [true; false] [5; 7]%R [2; 1]%R)
              = [(1 * (5 - 2))%R]).
  { unfold nonzero, prior_residuals. cbn.
    repeat (destruct (Req_dec_T _ _); try lra). reflexivity. }
  rewrite E in Hsome. destruct Hsome as [Ho _]; [discriminate|].
  cbn [map] in Ho. rewrite Ho. cbn. f_equal. lra.
Qed.

(** C2, as stated, fails: with a prior whose mask holds no valid pixel the
    offset is NaN, not 0, and the one entry of z becomes NaN. *)
Lemma prior_offset_claim_counterexample :
  let (M, z_prior) := make_prior [[true]] None [[Num 5]] [[false]] in
  let z := [Num 0] in
  prior_offset M z_prior z <> Num 0
  /\ vadd_scalar z (prior_offset M z_prior z) = [NaN].
Proof.
  cbn -[prior_offset]. unfold prior_offset, nanmean.
  cbn -[ndiv is_zero]. rewrite is_zero_true by lra.
  cbn -[ndiv]. rewrite ndiv_zero. split; [discriminate | reflexivity].
Qed.

(** C2, amended.  The offset added to z before the solve is the mean of
    the nonzero residuals of [z_prior - z] on the prior's mask when at
    least one residual is nonzero.  When none is, the code has no fallback:
    the mean of the all-NaN vector is NaN, and adding it turns every entry
    of z into NaN; the solver is started from that vector. *)
Theorem prior_offset_spec
  (cg : coo -> vec -> vec -> nat -> num -> vec) (sys : linear_system)
  (lambda1 cg_tol : num) (cg_max_iter : nat) (W : coo)
  (m : list bool) (zp zr : list R) :
  length zp = length m -> length zr = length m ->
  let M := prior_matrix m in
  let z_prior := map Num zp in
  let z := map Num zr in
  let res := nonzero (prior_residuals m zp zr) in
  let offset := prior_offset M z_prior z in
  (exists A_mat b_mat,
     solve cg sys (Some (M, z_prior)) lambda1 cg_tol cg_max_iter W z
     = cg A_mat b_mat (vadd_scalar z offset) cg_max_iter cg_tol)
  /\ (res <> [] ->
      offset = Num (Rsum res / INR (length res))
      /\ vadd_scalar z offset
         = map (fun x => Num (x + Rsum res / INR (length res))) zr)
  /\ (res = [] ->
      offset = NaN /\ vadd_scalar z offset = map (fun _ => NaN) zr).
Proof.
  intros Lp Lr M z_prior z res offset. split.
  - eexists. eexists. unfold solve. reflexivity.
  - apply prior_offset_cases; assumption.
Qed.

Lemma prior_offset_witness :
  let offset :=
    prior_offset (prior_matrix [false]) (map Num [5%R]) (map Num [0%R]) in
  offset = NaN /\ vadd_scalar (map Num [0%R]) offset = [NaN].
Proof.
  assert (E : nonzero (prior_residuals [false] [5%R] [0%R]) = []).
  { unfold nonzero, prior_residuals. cbn.
    destruct (Req_dec_T _ _); [reflexivity | lra]. }
  exact (proj2 (proj2 (prior_offset_spec
                         (fun (_ : coo) (_ x0 : vec) (_ : nat) (_ : num) => x0)
                         (mk_system [] [] [] (diags []) (diags []) (diags [])
                            (diags []) (diags []) (diags []) (diags []) [])
                         (Num 0) (Num 0) 0 (diags [])
                         [false] [5%R] [0%R] eq_refl eq_refl)) E).
Defined.

(** ** The loop *)

Section Loop.

Variable cg : coo -> vec -> vec -> nat -> num -> vec.
Variable sys : linear_system.
Variable depth_prior : option prior.
Variables k lambda1 tol cg_tol : num.
Variable cg_max_iter : nat.

Local Abbreviation run := (run cg sys depth_prior k lambda1 cg_tol cg_max_iter).
Local Abbreviation below_tol :=
  (below_tol cg sys depth_prior k lambda1 tol cg_tol cg_max_iter).

Lemma run_shift (st0 : state) (n : nat) :
  run (iteration cg sys depth_prior k lambda1 cg_tol cg_max_iter st0) n
  = run st0 (S n).
Proof. unfold run. now rewrite Nat.iter_succ_r. Qed.

Lemma below_tol_shift (st0 : state) (j : nat) :
  below_tol (iteration cg sys depth_prior k lambda1 cg_tol cg_max_iter st0) j
  = below_tol st0 (S j).
Proof. unfold below_tol. now rewrite !run_shift. Qed.

Lemma irls_trace (max_iter : nat) (st0 : state) :
  exists n : nat,
    n <= max_iter
    /\ fst (irls cg sys depth_prior k lambda1 tol cg_tol cg_max_iter
              max_iter st0) = run st0 n
    /\ st_energy_list (run st0 n)
       = st_energy_list st0
         ++ map (fun j => st_energy (run st0 (S j))) (seq 0 n)
    /\ (forall j, S j < n -> below_tol st0 j = false)
    /\ ((snd (irls cg sys depth_prior k lambda1 tol cg_tol cg_max_iter
                max_iter st0) = Converged
         /\ 0 < n /\ below_tol st0 (n - 1) = true)
        \/ (snd (irls cg sys depth_prior k lambda1 tol cg_tol cg_max_iter
                   max_iter st0) = Exhausted
            /\ n = max_iter /\ (n = 0 \/ below_tol st0 (n - 1) = false))).
Proof.
  revert st0; induction max_iter as [|m IH]; intros st0.
  - exists 0. cbn [irls fst snd run Nat.iter seq map].
    rewrite app_nil_r. split; [lia|]. split; [reflexivity|].
    split; [reflexivity|]. split; [intros j Hj; lia|]. right. auto.
  - cbn [irls].
    set (st' := iteration cg sys depth_prior k lambda1 cg_tol cg_max_iter st0).
    assert (E0 : nlt (relative_energy (st_energy st') (st_energy st0)) tol
                 = below_tol st0 0) by reflexivity.
    rewrite E0. destruct (below_tol st0 0) eqn:B0.
    + exists 1. cbn [fst snd]. split; [lia|]. split; [reflexivity|].
      split; [reflexivity|]. split; [intros j Hj; lia|].
      left. split; [reflexivity|]. split; [lia | exact B0].
    + destruct (IH st') as (n & Hn & Hrun & Hlist & Hbefore & Hexit).
      exists (S n). unfold st' in *. rewrite run_shift in Hrun, Hlist.
      split; [lia|]. split; [exact Hrun|]. split; [|split].
      * rewrite Hlist. cbn [iteration st_energy_list].
        rewrite <- app_assoc. f_equal. cbn [seq map app]. f_equal.
        rewrite <- seq_shift, map_map. apply map_ext. intros j.
        now rewrite run_shift.
      * intros [|j] Hj; [exact B0|]. rewrite <- below_tol_shift.
        apply Hbefore. lia.
      * destruct Hexit as [(Hc & Hpos & Hb)|(He & Hm & Hb)].
        -- left. split; [exact Hc|]. split; [lia|].
           rewrite below_tol_shift in Hb.
           replace (S n - 1) with (S (n - 1)) by lia. exact Hb.
        -- right. split; [exact He|]. split; [lia|]. right.
           destruct Hb as [->|Hb]; [exact B0|].
           destruct n as [|n']; [exact B0|].
           rewrite below_tol_shift in Hb.
           replace (S (S n') - 1) with (S (S n' - 1)) by lia. exact Hb.
Qed.

Lemma run_energy (st0 : state) (j : nat) :
  st_energy (run st0 (S j))
  = quadratic_energy (sys_A sys) (sys_b sys) (st_W (run st0 (S j)))
      (st_z (run st0 (S j))).
Proof. reflexivity. Qed.

Lemma run_weights (st0 : state) (j : nat) :
  exists wu wv, st_wu (run st0 (S j)) = Some wu /\ st_wv (run st0 (S j)) = Some wv.
Proof. eexists. eexists. split; reflexivity. Qed.

End Loop.

Lemma nlt_relative_energy (e eo t : num) :
  nlt (relative_energy e eo) t = true
  <-> exists x y r : R,
        e = Num x /\ eo = Num y /\ t = Num r
        /\ y <> 0%R /\ (Rabs (x - y) / y < r)%R.
Proof.
  unfold relative_energy, nlt, ndiv, nabs, nsub, lift1, lift2.
  destruct e as [x|], eo as [y|]; try (split; [discriminate|]);
    try (intros (x' & y' & r & E1 & E2 & _); discriminate).
  destruct (Req_dec_T y 0) as [Hy|Hy].
  - split; [discriminate|].
    intros (x' & y' & r & E1 & E2 & _ & Hy' & _). congruence.
  - destruct t as [r|].
    + destruct (Rlt_dec (Rabs (x - y) / y) r) as [Hlt|Hge].
      * split; [|reflexivity]. intros _. exists x, y, r. auto.
      * split; [discriminate|].
        intros (x' & y' & r' & E1 & E2 & E3 & _ & Hlt).
        injection E1 as <-. injection E2 as <-. injection E3 as <-.
        contradiction.
    + split; [discriminate|].
      intros (x' & y' & r & _ & _ & E3 & _). discriminate.
Qed.

Section Outputs.

Variable cg : coo -> vec -> vec -> nat -> num -> vec.
Variables (H W : nat) (normal_map : grid normal) (normal_mask : grid bool).
Variables (k lambda1 : num) (depth : option (grid num * grid bool)).
Variables (step_size : num) (max_iter : nat).
Variables (tol : num) (cg_max_iter : nat) (cg_tol : num).

Hypothesis Hmap : rect H W normal_map.
Hypothesis Hmask : rect H W normal_mask.
Hypothesis Hprior : prior_of_shape H W depth.

Let sys := assemble normal_map normal_mask None step_size.
Let st0 := initial_state sys normal_mask.
Let depth_prior := prior_of normal_mask None depth.
Let st :=
  fst (irls cg sys depth_prior k lambda1 tol cg_tol cg_max_iter max_iter st0).

(** Without a camera matrix and on arrays of the shape of the mask the
    function reaches the loop. *)
Lemma bni_reaches_loop :
  bilateral_normal_integration cg normal_map normal_mask k lambda1 depth None
    step_size max_iter tol cg_max_iter cg_tol
  = match st_wu st, st_wv st with
    | Some wu, Some wv =>
        Ok (mk_outputs
              (assign (full_like normal_mask NaN) normal_mask (st_z st))
              (if nlt (mean (concat (channel channel2 normal_map))) (Num 0)
               then map reverse_winding (construct_facets_from normal_mask)
               else construct_facets_from normal_mask)
              (assign (full_like normal_mask NaN) normal_mask wv)
              (assign (full_like normal_mask NaN) normal_mask wu)
              (st_energy_list st))
    | _, _ => Raise UnboundLocalError
    end.
Proof.
  unfold bilateral_normal_integration.
  rewrite (boolean_index_rect H W normal_map normal_mask Hmap Hmask).
  cbn [bind pixel_grids].
  assert (Ep : match depth with
               | Some (depth_map, depth_mask) =>
                   do _ <- boolean_index depth_mask normal_mask ;;
                   do _ <- boolean_index depth_map normal_mask ;;
                   Ok (Some (make_prior normal_mask None depth_map depth_mask))
               | None => Ok None
               end = Ok depth_prior).
  { unfold depth_prior, prior_of. destruct depth as [[depth_map depth_mask]|];
      [|reflexivity].
    destruct Hprior as [Hd Hk].
    rewrite (boolean_index_rect H W depth_mask normal_mask Hk Hmask).
    rewrite (boolean_index_rect H W depth_map normal_mask Hd Hmask).
    reflexivity. }
  rewrite Ep. cbn [bind]. fold sys. fold st0. unfold st.
  destruct (irls cg sys depth_prior k lambda1 tol cg_tol cg_max_iter
              max_iter st0) as [st' e].
  cbn [fst]. destruct (st_wu st'), (st_wv st'); reflexivity.
Qed.

(** After at least one iteration the function returns, and every output
    is computed from the last [z]. *)
Lemma bni_outputs :
  0 < max_iter ->
  bilateral_normal_integration cg normal_map normal_mask k lambda1 depth None
    step_size max_iter tol cg_max_iter cg_tol
  = Ok (mk_outputs
          (assign (full_like normal_mask NaN) normal_mask (st_z st))
          (if nlt (mean (concat (channel channel2 normal_map))) (Num 0)
           then map reverse_winding (construct_facets_from normal_mask)
           else construct_facets_from normal_mask)
          (assign (full_like normal_mask NaN) normal_mask
             (update_wv sys (st_z st) k))
          (assign (full_like normal_mask NaN) normal_mask
             (update_wu sys (st_z st) k))
          (st_energy_list st)).
Proof.
  intros Hpos. rewrite bni_reaches_loop.
  destruct (irls_trace cg sys depth_prior k lambda1 tol cg_tol cg_max_iter
              max_iter st0) as (n & Hn & Hrun & _ & _ & Hexit).
  fold st in Hrun.
  destruct n as [|n'].
  - destruct Hexit as [(_ & Hp & _)|(_ & Hm & _)]; lia.
  - rewrite Hrun. unfold run. rewrite Nat.iter_succ.
    cbn [iteration st_wu st_wv st_z st_energy_list]. reflexivity.
Qed.

(** Without an iteration the weight maps are filled from the unbound
    [wv]. *)
Lemma bni_unbound :
  max_iter = 0 ->
  bilateral_normal_integration cg normal_map normal_mask k lambda1 depth None
    step_size max_iter tol cg_max_iter cg_tol
  = Raise UnboundLocalError.
Proof.
  intros E. rewrite bni_reaches_loop. unfold st. rewrite E. reflexivity.
Qed.

End Outputs.




(** One tilted pixel, a solver that returns its starting point: the energy
    stays 1 and the loop is left after the first iteration. *)
Example irls_single_pixel :
  let cg := fun (_ : coo) (_ x0 : vec) (_ : nat) (_ : num) => x0 in
  let sys := assemble [[(Num 0, Num 1, Num 0)]] [[true]] None (Num 1) in
  let loop := irls cg sys None (Num 2) (Num 0) (Num (1 / 10)) (Num 0) 0 5
                (initial_state sys [[true]]) in
  snd loop = Converged /\ length (st_energy_list (fst loop)) = 1.
Proof.
  cbv zeta. cbn [irls].
  match goal with
  | |- context [nlt ?a ?b] => assert (E : nlt a b = true)
  end.
  { apply nlt_relative_energy. do 3 eexists.
    split; [num_eval; reflexivity|].
    split; [num_eval; reflexivity|].
    split; [reflexivity|].
    split; [lra|].
    set (w := (1 / (1 + exp _))%R).
    match goal with
    | |- (Rabs ?a / ?b < _)%R =>
        replace a with 0%R by lra; replace b with 1%R by lra
    end.
    rewrite Rabs_R0. lra. }
  rewrite E. split; reflexivity.
Qed.

(** ** The mask without a valid pixel *)

Lemma length_zero_nil {A : Type} (l : list A) : length l = 0 -> l = [].
Proof. destruct l; [reflexivity | discriminate]. Qed.

Lemma assign_row_no_cells {A : Type} (a : list A) (m : list bool)
  (vals : list A) :
  count_row m = 0 -> assign_row a m vals = (a, vals).
Proof.
  unfold count_row.
  revert m vals; induction a as [|x ta IH]; intros [|b tm] vals Hc;
    try reflexivity.
  destruct b; [discriminate|]. cbn [assign_row]. simpl in Hc.
  now rewrite (IH tm vals Hc).
Qed.

Lemma assign_no_cells {A : Type} (a : grid A) (m : grid bool) (vals : list A) :
  count m = 0 -> assign a m vals = a.
Proof.
  revert m vals; induction a as [|ra ta IH]; intros [|rm tm] vals Hc;
    try reflexivity.
  rewrite count_cons in Hc. cbn [assign].
  rewrite assign_row_no_cells by lia. f_equal. apply IH. lia.
Qed.

Lemma map2_nil_r {A B C : Type} (f : A -> B -> C) (l : list A) :
  map2 f l [] = [].
Proof. now destruct l. Qed.

Lemma facets_no_cells (H W : nat) (mask : grid bool) :
  rect H W mask -> count mask = 0 -> construct_facets_from mask = [].
Proof.
  intros Hr Hc. rewrite (construct_facets_cells H W mask Hr).
  assert (E : cells (facet_top_left_mask mask) = []).
  { destruct (cells (facet_top_left_mask mask)) as [|[r c] l] eqn:El; auto.
    assert (Hin : In (r, c) (cells mask)).
    { apply cells_In. assert (Hin : In (r, c) (cells (facet_top_left_mask mask)))
        by (rewrite El; now left).
      apply cells_In, facet_top_left_valid in Hin. apply Hin. }
    rewrite (length_zero_nil (cells mask)) in Hin
      by (now rewrite cells_length).
    destruct Hin. }
  now rewrite E.
Qed.

(** C3, as stated, fails: on a 1 x 1 mask without a valid pixel the
    function raises nothing and returns. *)
Lemma empty_mask_claim_counterexample :
  let cg := fun (_ : coo) (_ x0 : vec) (_ : nat) (_ : num) => x0 in
  count [[false]] = 0
  /\ exists out,
       bilateral_normal_integration cg [[(Num 0, Num 0, Num (-1))]] [[false]]
         (Num 2) (Num 0) None None (Num 1) 1 (Num (1 / 10000)) 500
         (Num (1 / 100000))
       = Ok out.
Proof.
  cbv zeta. split; [reflexivity|]. eexists.
  apply (bni_outputs _ 1 1); try exact I; try lia;
    split; [reflexivity | repeat constructor | reflexivity | repeat constructor].
Qed.

(** C3, amended.  The function does not check N.  Called without a camera
    matrix, with a normal map and prior arrays of the shape of the mask, a
    solver that returns a vector as long as its starting point, and N = 0,
    it assembles the empty system (nx, ny, nz and b empty, A of
    shape 0 x 0 without entries), starts from the empty z with energy 0,
    runs the loop and hands back a depth map that is NaN everywhere and no
    facet when [max_iter >= 1]; with
    [max_iter = 0] it raises UnboundLocalError, as for every mask. *)
Theorem empty_mask_spec
  (cg : coo -> vec -> vec -> nat -> num -> vec) (H W : nat)
  (normal_map : grid normal) (normal_mask : grid bool) (k lambda1 : num)
  (depth : option (grid num * grid bool))
  (step_size : num) (max_iter : nat) (tol : num) (cg_max_iter : nat)
  (cg_tol : num) :
  rect H W normal_map -> rect H W normal_mask -> prior_of_shape H W depth ->
  keeps_length cg ->
  count normal_mask = 0 ->
  let sys := assemble normal_map normal_mask None step_size in
  let returned :=
    bilateral_normal_integration cg normal_map normal_mask k lambda1 depth
      None step_size max_iter tol cg_max_iter cg_tol in
  (sys_nx sys = [] /\ sys_ny sys = [] /\ sys_nz sys = [] /\ sys_b sys = []
   /\ entries (sys_A sys) = [] /\ shape (sys_A sys) = (0, 0))
  /\ (st_z (initial_state sys normal_mask) = []
      /\ st_energy (initial_state sys normal_mask) = Num 0)
  /\ (0 < max_iter ->
      exists out,
        returned = Ok out
        /\ out_depth_map out = full_like normal_mask NaN
        /\ out_facets out = []
        /\ length (out_energy_list out) <= max_iter)
  /\ (max_iter = 0 -> returned = Raise UnboundLocalError).
Proof.
  intros Hm Hk Hp _ Hc sys returned.
  destruct (normals_at_pixels H W normal_map normal_mask None step_size Hm Hk)
    as [(Lx & Ly & Lz) _].
  destruct (assemble_blocks normal_map normal_mask None step_size)
    as (E1 & E2 & E3 & E4 & EA & Eb).
  destruct (Nz_diagonal H W normal_map normal_mask None step_size Hm Hk)
    as (Nu & Nv & Eu & Ev & Lu & Lv).
  fold sys in Lx, Ly, Lz, E1, E2, E3, E4, EA, Eb, Eu, Ev.
  rewrite Hc in Lx, Ly, Lz, Lu, Lv.
  apply length_zero_nil in Lx, Ly, Lz, Lu, Lv. subst Nu Nv.
  assert (Hb : sys_b sys = []) by (rewrite Eb, Lx, Ly; reflexivity).
  assert (HA : entries (sys_A sys) = [] /\ shape (sys_A sys) = (0, 0)).
  { rewrite EA, E1, E2, E3, E4, Eu, Ev. cbn. now rewrite Hc. }
  split; [tauto|]. split; [|split].
  - unfold initial_state. cbn [st_z st_energy]. rewrite Hc, Hb.
    split; [reflexivity|].
    unfold quadratic_energy, vsub. rewrite map2_nil_r. reflexivity.
  - intros Hpos. unfold returned.
    rewrite (bni_outputs cg H W normal_map normal_mask k lambda1 depth
               step_size max_iter tol cg_max_iter cg_tol Hm Hk Hp Hpos).
    eexists. split; [reflexivity|].
    cbn [out_depth_map out_facets out_energy_list].
    split; [now apply assign_no_cells|]. split.
    + rewrite (facets_no_cells H W normal_mask Hk Hc).
      now destruct (nlt _ _).
    + fold sys.
      destruct (irls_trace cg sys (prior_of normal_mask None depth) k lambda1
                  tol cg_tol cg_max_iter max_iter
                  (initial_state sys normal_mask))
        as (n & Hn & Hrun & Hlist & _).
      rewrite Hrun, Hlist. cbn [initial_state st_energy_list app].
      now rewrite length_map, length_seq.
  - intros E. apply (bni_unbound cg H W); assumption.
Qed.

Lemma empty_mask_witness :
  let cg := fun (_ : coo) (_ x0 : vec) (_ : nat) (_ : num) => x0 in
  let sys := assemble [[(Num 0, Num 0, Num (-1))]] [[false]] None (Num 1) in
  (rect 1 1 [[(Num 0, Num 0, Num (-1))]] /\ rect 1 1 [[false]]
   /\ prior_of_shape 1 1 None /\ keeps_length cg /\ count [[false]] = 0)
  /\ sys_b sys = [] /\ st_energy (initial_state sys [[false]]) = Num 0
  /\ exists out,
       bilateral_normal_integration cg [[(Num 0, Num 0, Num (-1))]] [[false]]
         (Num 2) (Num 0) None None (Num 1) 1 (Num (1 / 10000)) 500
         (Num (1 / 100000)) = Ok out
       /\ out_depth_map out = [[NaN]] /\ out_facets out = [].
Proof.
  assert (Hm : rect 1 1 [[(Num 0, Num 0, Num (-1))]])
    by (split; [reflexivity | repeat constructor]).
  assert (Hk : rect 1 1 [[false]])
    by (split; [reflexivity | repeat constructor]).
  destruct (empty_mask_spec
              (fun (_ : coo) (_ x0 : vec) (_ : nat) (_ : num) => x0)
              1 1 [[(Num 0, Num 0, Num (-1))]] [[false]] (Num 2) (Num 0)
              None (Num 1) 1 (Num (1 / 10000)) 500 (Num (1 / 100000))
              Hm Hk I
              (fun _ _ _ _ _ => eq_refl) eq_refl)
    as ((_ & _ & _ & Hb & _) & (_ & He) & Hret & _).
  destruct (Hret ltac:(lia)) as (out & Eout & Ed & Ef & _).
  cbv zeta.
  split.
  { split; [exact Hm | split; [exact Hk | split; [exact I | split]]];
      [exact (fun _ _ _ _ _ => eq_refl) | reflexivity]. }
  split; [exact Hb|]. split; [exact He|].
  exists out. split; [exact Eout|]. split; [exact Ed | exact Ef].
Defined.

(** ** The difference operators on a ramp *)

Lemma ramp_rect (H W : nat) (a b c0 : R) : rect H W (ramp H W a b c0).
Proof.
  unfold ramp, rect. rewrite length_map, length_seq. split; [reflexivity|].
  apply Forall_forall. intros row Hin. apply in_map_iff in Hin.
  destruct Hin as [r [<- _]]. now rewrite length_map, length_seq.
Qed.

Lemma get_ramp (H W : nat) (a b c0 : R) (d : num) (r c : nat) :
  r < H -> c < W ->
  get d (ramp H W a b c0) r c
  = Num (a * INR c + b * (INR H - 1 - INR r) + c0)%R.
Proof.
  intros Hr Hc. unfold get, ramp.
  rewrite (nth_map_lt _ (seq 0 H) r 0) by (now rewrite length_seq).
  rewrite (nth_map_lt _ (seq 0 W) c 0) by (now rewrite length_seq).
  now rewrite !seq_nth.
Qed.

Lemma nth_matvec (A : coo) (z : vec) (i : nat) (d : num) :
  i < nrows A -> nth i (matvec A z) d = row_dot A i z.
Proof.
  intros Hi. unfold matvec.
  rewrite (nth_map_lt _ (seq 0 (nrows A)) i 0) by (now rewrite length_seq).
  now rewrite seq_nth.
Qed.

Lemma row_dot_pair (A : coo) (z : vec) (i j1 j2 : nat) (s : R) :
  s <> 0%R ->
  row_entries A i = [(i, j1, Num (-1)); (i, j2, Num 1)] ->
  forall x1 x2 : R,
    nth j1 z (Num 0) = Num x1 -> nth j2 z (Num 0) = Num x2 ->
    row_dot (sp_div A (Num s)) i z = Num ((x2 - x1) / s).
Proof.
  intros Hs Hrow x1 x2 E1 E2. unfold row_dot.
  rewrite row_entries_sp_div, Hrow.
  cbn [map entry_val entry_col entry_row fst snd nsum fold_right].
  rewrite E1, E2, !ndiv_num by exact Hs. cbn. f_equal. field. exact Hs.
Qed.

Lemma row_dot_empty (A : coo) (z : vec) (i : nat) (s : num) :
  row_entries A i = [] -> row_dot (sp_div A s) i z = Num 0.
Proof.
  intros Hrow. unfold row_dot. now rewrite row_entries_sp_div, Hrow.
Qed.

Lemma difference_block_shape (pixel_idx : grid nat) (n : nat)
  (h minus plus : grid bool) (s : num) :
  shape (sp_div (difference_block pixel_idx n h minus plus) s) = (n, n).
Proof. reflexivity. Qed.

Section Ramp.

Variables (H W : nat) (a b c0 s : R).
Hypothesis Hs : s <> 0%R.

Let mask := full_mask H W.
Let z := select (ramp H W a b c0) mask.

Lemma ramp_value (r c : nat) :
  r < H -> c < W ->
  nth (idx mask (r, c)) z (Num 0)
  = Num (a * INR c + b * (INR H - 1 - INR r) + c0)%R.
Proof.
  intros Hr Hc. unfold z.
  rewrite nth_select.
  - now apply get_ramp.
  - apply (rect_same_shape H W); [apply ramp_rect | apply full_mask_rect].
  - now apply valid_full_mask.
Qed.

Lemma ramp_horizontal_pos (r c : nat) :
  r < H -> c < W ->
  nth (idx mask (r, c))
    (matvec (sp_div (D_horizontal_pos mask) (Num s)) z) NaN
  = Num (if S c <? W then a / s else 0)%R.
Proof.
  intros Hr Hc.
  assert (Hv : valid mask r c) by now apply valid_full_mask.
  rewrite nth_matvec by (apply (idx_lt mask r c Hv)).
  pose proof (D_horizontal_pos_row H W mask (full_mask_rect H W) r c Hv) as Hrow.
  unfold mask in Hrow at 3. rewrite get_full_mask in Hrow.
  replace (r <? H) with true in Hrow by (symmetry; now apply Nat.ltb_lt).
  cbn [andb] in Hrow. destruct (Nat.ltb_spec (S c) W) as [Hlt|Hge].
  - rewrite (row_dot_pair _ z _ _ _ s Hs Hrow _ _
               (ramp_value r c Hr Hc) (ramp_value r (S c) Hr Hlt)).
    f_equal. rewrite S_INR. field. exact Hs.
  - now apply row_dot_empty.
Qed.

Lemma ramp_horizontal_neg (r c : nat) :
  r < H -> c < W ->
  nth (idx mask (r, c))
    (matvec (sp_div (D_horizontal_neg mask) (Num s)) z) NaN
  = Num (if 0 <? c then a / s else 0)%R.
Proof.
  intros Hr Hc.
  assert (Hv : valid mask r c) by now apply valid_full_mask.
  rewrite nth_matvec by (apply (idx_lt mask r c Hv)).
  pose proof (D_horizontal_neg_row H W mask (full_mask_rect H W) r c Hv) as Hrow.
  destruct c as [|c']; [now apply row_dot_empty|].
  unfold mask in Hrow at 3. rewrite get_full_mask in Hrow.
  replace (r <? H) with true in Hrow by (symmetry; now apply Nat.ltb_lt).
  replace (c' <? W) with true in Hrow by (symmetry; apply Nat.ltb_lt; lia).
  cbn [andb] in Hrow.
  rewrite (row_dot_pair _ z _ _ _ s Hs Hrow _ _
             (ramp_value r c' Hr ltac:(lia)) (ramp_value r (S c') Hr Hc)).
  cbn [Nat.ltb Nat.leb]. f_equal. rewrite S_INR. field. exact Hs.
Qed.

Lemma ramp_vertical_pos (r c : nat) :
  r < H -> c < W ->
  nth (idx mask (r, c))
    (matvec (sp_div (D_vertical_pos mask) (Num s)) z) NaN
  = Num (if 0 <? r then b / s else 0)%R.
Proof.
  intros Hr Hc.
  assert (Hv : valid mask r c) by now apply valid_full_mask.
  rewrite nth_matvec by (apply (idx_lt mask r c Hv)).
  pose proof (D_vertical_pos_row H W mask (full_mask_rect H W) r c Hv) as Hrow.
  destruct r as [|r']; [now apply row_dot_empty|].
  unfold mask in Hrow at 3. rewrite get_full_mask in Hrow.
  replace (r' <? H) with true in Hrow by (symmetry; apply Nat.ltb_lt; lia).
  replace (c <? W) with true in Hrow by (symmetry; now apply Nat.ltb_lt).
  cbn [andb] in Hrow.
  rewrite (row_dot_pair _ z _ _ _ s Hs Hrow _ _
             (ramp_value (S r') c Hr Hc) (ramp_value r' c ltac:(lia) Hc)).
  cbn [Nat.ltb Nat.leb]. f_equal. rewrite S_INR. field. exact Hs.
Qed.

Lemma ramp_vertical_neg (r c : nat) :
  r < H -> c < W ->
  nth (idx mask (r, c))
    (matvec (sp_div (D_vertical_neg mask) (Num s)) z) NaN
  = Num (if S r <? H then b / s else 0)%R.
Proof.
  intros Hr Hc.
  assert (Hv : valid mask r c) by now apply valid_full_mask.
  rewrite nth_matvec by (apply (idx_lt mask r c Hv)).
  pose proof (D_vertical_neg_row H W mask (full_mask_rect H W) r c Hv) as Hrow.
  unfold mask in Hrow at 3. rewrite get_full_mask in Hrow.
  replace (c <? W) with true in Hrow by (symmetry; now apply Nat.ltb_lt).
  rewrite andb_true_r in Hrow.
  destruct (Nat.ltb_spec (S r) H) as [Hlt|Hge].
  - rewrite (row_dot_pair _ z _ _ _ s Hs Hrow _ _
               (ramp_value (S r) c Hlt Hc) (ramp_value r c Hr Hc)).
    f_equal. rewrite S_INR. field. exact Hs.
  - now apply row_dot_empty.
Qed.

End Ramp.

Example D_horizontal_pos_1x3 :
  entries (D_horizontal_pos [[true; true; false]])
  = [(0, 0, Num (-1)); (0, 1, Num 1)].
Proof. reflexivity. Qed.

Example D_vertical_pos_2x1 :
  entries (D_vertical_pos [[true]; [true]]) = [(1, 1, Num (-1)); (1, 0, Num 1)]
  /\ entries (D_vertical_neg [[true]; [true]])
     = [(0, 1, Num (-1)); (0, 0, Num 1)].
Proof. split; reflexivity. Qed.

Lemma sp_div_row_length (A : coo) (s : num) (i : nat) :
  length (row_entries (sp_div A s) i) = length (row_entries A i).
Proof. now rewrite row_entries_sp_div, length_map. Qed.

(** C5.  For a rectangular mask and the four operators of
    [generate_dx_dy] (horizontal positive and negative, vertical positive
    and negative, each N x N): a row holds at most two entries; the row of
    a valid pixel with a valid neighbour in the operator's direction holds
    [-1/step_size] and [+1/step_size], the positive operators at (current,
    forward neighbour), the negative ones at (backward neighbour, current),
    forward being the next column, resp. the row above; the row of a valid
    pixel without that neighbour is empty.  On the fully valid H x W mask
    and the ramp a x + b y + c0 (x the column, y = H - 1 - row), the
    horizontal operators give a/step_size and the vertical ones
    b/step_size at every pixel that has the neighbour, 0 elsewhere. *)
Theorem generate_dx_dy_spec (H W : nat) (mask : grid bool) (step_size : num) :
  rect H W mask ->
  let N := count mask in
  let lo := ndiv (Num (-1)) step_size in
  let hi := ndiv (Num 1) step_size in
  match generate_dx_dy mask step_size with
  | (Dhp, Dhn, Dvp, Dvn) =>
      (shape Dhp = (N, N) /\ shape Dhn = (N, N)
       /\ shape Dvp = (N, N) /\ shape Dvn = (N, N))
      /\ (forall i,
            length (row_entries Dhp i) <= 2 /\ length (row_entries Dhn i) <= 2
            /\ length (row_entries Dvp i) <= 2
            /\ length (row_entries Dvn i) <= 2)
      /\ forall r c, valid mask r c ->
           let i := idx mask (r, c) in
           row_entries Dhp i
           = (if get false mask r (S c)
              then [(i, i, lo); (i, idx mask (r, S c), hi)]
              else [])
           /\ row_entries Dhn i
              = match c with
                | 0 => []
                | S c' =>
                    if get false mask r c'
                    then [(i, idx mask (r, c'), lo); (i, i, hi)]
                    else []
                end
           /\ row_entries Dvp i
              = match r with
                | 0 => []
                | S r' =>
                    if get false mask r' c
                    then [(i, i, lo); (i, idx mask (r', c), hi)]
                    else []
                end
           /\ row_entries Dvn i
              = (if get false mask (S r) c
                 then [(i, idx mask (S r, c), lo); (i, i, hi)]
                 else [])
  end
  /\ forall a b c0 s : R, s <> 0%R ->
       match generate_dx_dy (full_mask H W) (Num s) with
       | (Dhp, Dhn, Dvp, Dvn) =>
           let z := select (ramp H W a b c0) (full_mask H W) in
           forall r c, r < H -> c < W ->
             let i := idx (full_mask H W) (r, c) in
             nth i (matvec Dhp z) NaN = Num (if S c <? W then a / s else 0)%R
             /\ nth i (matvec Dhn z) NaN
                = Num (if 0 <? c then a / s else 0)%R
             /\ nth i (matvec Dvp z) NaN
                = Num (if 0 <? r then b / s else 0)%R
             /\ nth i (matvec Dvn z) NaN
                = Num (if S r <? H then b / s else 0)%R
       end.
Proof.
  intros Hr N lo hi. rewrite !generate_dx_dy_blocks. cbv beta iota zeta.
  split; [split; [|split]|].
  - repeat split.
  - intros i. rewrite !sp_div_row_length.
    unfold D_horizontal_pos, D_horizontal_neg, D_vertical_pos, D_vertical_neg.
    repeat split.
    + apply (aligned_row_length _ _ _ _ _ _ i
               (D_horizontal_pos_aligned H W mask Hr)).
    + apply (aligned_row_length _ _ _ _ _ _ i
               (D_horizontal_neg_aligned H W mask Hr)).
    + apply (aligned_row_length _ _ _ _ _ _ i
               (D_vertical_pos_aligned H W mask Hr)).
    + apply (aligned_row_length _ _ _ _ _ _ i
               (D_vertical_neg_aligned H W mask Hr)).
  - intros r c Hv. rewrite !row_entries_sp_div.
    rewrite (D_horizontal_pos_row H W mask Hr r c Hv),
      (D_horizontal_neg_row H W mask Hr r c Hv),
      (D_vertical_pos_row H W mask Hr r c Hv),
      (D_vertical_neg_row H W mask Hr r c Hv).
    repeat split.
    + now destruct (get false mask r (S c)).
    + destruct c as [|c']; [reflexivity|].
      now destruct (get false mask r c').
    + destruct r as [|r']; [reflexivity|].
      now destruct (get false mask r' c).
    + now destruct (get false mask (S r) c).
  - intros a b c0 s Hs r c Hlr Hlc. repeat split.
    + now apply ramp_horizontal_pos.
    + now apply ramp_horizontal_neg.
    + now apply ramp_vertical_pos.
    + now apply ramp_vertical_neg.
Qed.

Lemma generate_dx_dy_witness :
  let mask := full_mask 1 2 in
  let z := select (ramp 1 2 3 0 0) mask in
  rect 1 2 mask /\ 1%R <> 0%R
  /\ nth (idx mask (0, 0))
       (matvec (sp_div (D_horizontal_pos mask) (Num 1)) z) NaN
     = Num (3 / 1)%R.
Proof.
  assert (Hs : 1%R <> 0%R) by lra.
  split; [apply full_mask_rect | split; [exact Hs|]].
  exact (proj1 (proj2 (generate_dx_dy_spec 1 2 (full_mask 1 2) (Num 1)
                         (full_mask_rect 1 2))
                  3%R 0%R 0%R 1%R Hs 0 0 (Nat.lt_0_succ 0) (Nat.lt_0_succ 1))).
Defined.

(** * Further properties *)

(** ** The eight mask shifts *)

Lemma move_top_right_eq (mask : grid bool) :
  move_top_right mask = move_top (move_right mask).
Proof.
  rewrite move_top_eq, move_right_eq.
  unfold move_top_right, drop_last_col, drop_first_row, pad.
  cbn [repeat app Nat.add].
  rewrite <- tl_map, map_app, map_map. cbn [map].
  rewrite width_map by (intros; apply removelast_cons_length).
  rewrite Nat.add_0_r.
  change (false :: repeat false (width mask))
    with (repeat false (S (width mask))).
  rewrite removelast_repeat.
  f_equal. f_equal. apply map_ext. intros row. now rewrite app_nil_r.
Qed.

Lemma move_bottom_left_eq (mask : grid bool) :
  move_bottom_left mask = move_bottom (move_left mask).
Proof.
  rewrite move_bottom_eq, move_left_eq.
  unfold move_bottom_left, drop_first_col, drop_last_row, pad.
  cbn [repeat app Nat.add].
  rewrite app_nil_r, <- removelast_map. cbn [map].
  rewrite map_map.
  rewrite width_map by (intros; apply tl_snoc_length).
  replace (width mask + 1) with (S (width mask)) by lia.
  reflexivity.
Qed.

(** Splits the conjunctions of a goal, and nothing else. *)
Ltac conjs := repeat match goal with |- _ /\ _ => split end.

(** Two arrays of one shape with the same cells are equal. *)
Lemma grid_ext {A : Type} (d : A) (H W : nat) (a b : grid A) :
  rect H W a -> rect H W b ->
  (forall r c, r < H -> c < W -> get d a r c = get d b r c) -> a = b.
Proof.
  intros [Ha HFa] [Hb HFb] Hget.
  apply (nth_ext a b [] []); [congruence|].
  intros r Hr. rewrite Ha in Hr.
  assert (La : length (nth r a []) = W).
  { apply (rect_row_length H W a r); [split; assumption | assumption]. }
  assert (Lb : length (nth r b []) = W).
  { apply (rect_row_length H W b r); [split; assumption | assumption]. }
  apply (nth_ext _ _ d d); [congruence|].
  intros c Hc. rewrite La in Hc. apply (Hget r c Hr Hc).
Qed.

Lemma get_move_right (H W : nat) (mask : grid bool) (r c : nat) :
  rect H W mask -> r < H -> c < W ->
  get false (move_right mask) r c
  = match c with 0 => false | S c' => get false mask r c' end.
Proof.
  intros Hrect Hr Hc. destruct c as [|c'].
  - apply get_move_right_0.
  - apply get_move_right_S. now rewrite (rect_row_length H W mask r Hrect Hr).
Qed.

Lemma get_move_bottom (H W : nat) (mask : grid bool) (r c : nat) :
  rect H W mask -> r < H ->
  get false (move_bottom mask) r c
  = match r with 0 => false | S r' => get false mask r' c end.
Proof.
  intros [Hlen _] Hr. destruct r as [|r'].
  - apply get_move_bottom_0.
  - apply get_move_bottom_S. lia.
Qed.

(** X1.  Each of the eight shifts keeps the shape of the mask and moves
    its content by one cell: a cell of the shifted mask holds the value of
    the neighbouring cell of the mask, and false where that neighbour lies
    outside the array.  [move_left] reads the right neighbour, [move_right]
    the left one, [move_top] the one below, [move_bottom] the one above;
    the diagonal shifts read the diagonal neighbours. *)
Theorem move_cells (H W : nat) (mask : grid bool) :
  rect H W mask ->
  (rect H W (move_left mask) /\ rect H W (move_right mask)
   /\ rect H W (move_top mask) /\ rect H W (move_bottom mask)
   /\ rect H W (move_top_left mask) /\ rect H W (move_top_right mask)
   /\ rect H W (move_bottom_left mask) /\ rect H W (move_bottom_right mask))
  /\ forall r c, r < H -> c < W ->
       get false (move_left mask) r c = get false mask r (S c)
       /\ get false (move_right mask) r c
          = match c with 0 => false | S c' => get false mask r c' end
       /\ get false (move_top mask) r c = get false mask (S r) c
       /\ get false (move_bottom mask) r c
          = match r with 0 => false | S r' => get false mask r' c end
       /\ get false (move_top_left mask) r c = get false mask (S r) (S c)
       /\ get false (move_top_right mask) r c
          = match c with 0 => false | S c' => get false mask (S r) c' end
       /\ get false (move_bottom_left mask) r c
          = match r with 0 => false | S r' => get false mask r' (S c) end
       /\ get false (move_bottom_right mask) r c
          = match r, c with
            | S r', S c' => get false mask r' c'
            | _, _ => false
            end.
Proof.
  intros Hrect.
  assert (HL := move_left_rect H W mask Hrect).
  assert (HR := move_right_rect H W mask Hrect).
  split.
  - conjs; try assumption.
    + now apply move_top_rect.
    + now apply move_bottom_rect.
    + rewrite move_top_left_eq. now apply move_top_rect.
    + rewrite move_top_right_eq. now apply move_top_rect.
    + rewrite move_bottom_left_eq. now apply move_bottom_rect.
    + rewrite move_bottom_right_eq. now apply move_bottom_rect.
  - intros r c Hr Hc.
    rewrite move_top_left_eq, move_top_right_eq, move_bottom_left_eq,
      move_bottom_right_eq.
    repeat split.
    + apply get_move_left.
    + now apply (get_move_right H W).
    + apply get_move_top.
    + now apply (get_move_bottom H W).
    + now rewrite get_move_top, get_move_left.
    + rewrite get_move_top. destruct c as [|c'].
      * apply get_move_right_0.
      * destruct (Nat.lt_ge_cases (S r) H) as [Hlt|Hge].
        -- now rewrite (get_move_right H W mask (S r) (S c') Hrect Hlt Hc).
        -- rewrite !get_overflow_row; auto.
           ++ destruct Hrect as [Hlen _]. lia.
           ++ destruct HR as [Hlen _]. lia.
    + rewrite (get_move_bottom H W (move_left mask) r c HL Hr).
      destruct r as [|r']; [reflexivity | apply get_move_left].
    + rewrite (get_move_bottom H W (move_right mask) r c HR Hr).
      destruct r as [|r']; [reflexivity|].
      assert (Hr' : r' < H) by lia.
      now rewrite (get_move_right H W mask r' c Hrect Hr' Hc).
Qed.

Lemma move_cells_witness :
  let mask := [[true; false]; [false; true]] in
  rect 2 2 mask
  /\ get false (move_top_left mask) 0 0 = get false mask 1 1.
Proof.
  assert (Hrect : rect 2 2 [[true; false]; [false; true]]).
  { split; [reflexivity | repeat constructor]. }
  split; [exact Hrect|].
  exact (proj1 (proj2 (proj2 (proj2 (proj2
           (proj2 (move_cells 2 2 _ Hrect) 0 0 (Nat.lt_0_succ 1)
              (Nat.lt_0_succ 1))))))).
Defined.

(** X2.  The diagonal shifts are the two axis shifts composed, in either
    order: shifts along different axes commute. *)
Theorem move_diagonal_compose (H W : nat) (mask : grid bool) :
  rect H W mask ->
  (move_top_left mask = move_top (move_left mask)
   /\ move_top_left mask = move_left (move_top mask))
  /\ (move_top_right mask = move_top (move_right mask)
      /\ move_top_right mask = move_right (move_top mask))
  /\ (move_bottom_left mask = move_bottom (move_left mask)
      /\ move_bottom_left mask = move_left (move_bottom mask))
  /\ (move_bottom_right mask = move_bottom (move_right mask)
      /\ move_bottom_right mask = move_right (move_bottom mask)).
Proof.
  intros Hrect.
  assert (HL := move_left_rect H W mask Hrect).
  assert (HR := move_right_rect H W mask Hrect).
  assert (HT := move_top_rect H W mask Hrect).
  assert (HB := move_bottom_rect H W mask Hrect).
  repeat split.
  - apply move_top_left_eq.
  - rewrite move_top_left_eq.
    apply (grid_ext false H W);
      [now apply move_top_rect | now apply move_left_rect |].
    intros r c Hr Hc. now rewrite get_move_top, !get_move_left, get_move_top.
  - apply move_top_right_eq.
  - rewrite move_top_right_eq.
    apply (grid_ext false H W);
      [now apply move_top_rect | now apply move_right_rect |].
    intros r c Hr Hc.
    rewrite get_move_top, (get_move_right H W (move_top mask) r c HT Hr Hc).
    destruct c as [|c'].
    + apply get_move_right_0.
    + rewrite get_move_top.
      destruct (Nat.lt_ge_cases (S r) H) as [Hlt|Hge].
      * now rewrite (get_move_right H W mask (S r) (S c') Hrect Hlt Hc).
      * rewrite !get_overflow_row; auto.
        -- destruct Hrect as [Hlen _]. lia.
        -- destruct HR as [Hlen _]. lia.
  - apply move_bottom_left_eq.
  - rewrite move_bottom_left_eq.
    apply (grid_ext false H W);
      [now apply move_bottom_rect | now apply move_left_rect |].
    intros r c Hr Hc.
    rewrite (get_move_bottom H W (move_left mask) r c HL Hr), get_move_left,
      (get_move_bottom H W mask r (S c) Hrect Hr).
    destruct r as [|r']; [reflexivity | apply get_move_left].
  - apply move_bottom_right_eq.
  - rewrite move_bottom_right_eq.
    apply (grid_ext false H W);
      [now apply move_bottom_rect | now apply move_right_rect |].
    intros r c Hr Hc.
    rewrite (get_move_bottom H W (move_right mask) r c HR Hr),
      (get_move_right H W (move_bottom mask) r c HB Hr Hc).
    destruct r as [|r'].
    + destruct c as [|c']; [reflexivity|]. symmetry. apply get_move_bottom_0.
    + assert (Hr' : r' < H) by lia.
      rewrite (get_move_right H W mask r' c Hrect Hr' Hc).
      destruct c as [|c']; [reflexivity|].
      symmetry. apply get_move_bottom_S. destruct Hrect as [Hlen _]. lia.
Qed.

Lemma move_diagonal_compose_witness :
  let mask := [[true; false]; [false; true]] in
  rect 2 2 mask /\ move_top_left mask = move_left (move_top mask).
Proof.
  assert (Hrect : rect 2 2 [[true; false]; [false; true]]).
  { split; [reflexivity | repeat constructor]. }
  split; [exact Hrect|].
  exact (proj2 (proj1 (move_diagonal_compose 2 2 _ Hrect))).
Defined.

(** X3.  A shift followed by the opposite shift is not the identity: it
    clears the border the first shift pushed out of the array and leaves
    every other cell as it was. *)
Theorem move_round_trip (H W : nat) (mask : grid bool) (r c : nat) :
  rect H W mask -> r < H -> c < W ->
  get false (move_right (move_left mask)) r c
  = (if c =? 0 then false else get false mask r c)
  /\ get false (move_left (move_right mask)) r c
     = (if S c =? W then false else get false mask r c)
  /\ get false (move_bottom (move_top mask)) r c
     = (if r =? 0 then false else get false mask r c)
  /\ get false (move_top (move_bottom mask)) r c
     = (if S r =? H then false else get false mask r c).
Proof.
  intros Hrect Hr Hc.
  assert (HL := move_left_rect H W mask Hrect).
  assert (HR := move_right_rect H W mask Hrect).
  assert (HT := move_top_rect H W mask Hrect).
  assert (HB := move_bottom_rect H W mask Hrect).
  repeat split.
  - rewrite (get_move_right H W (move_left mask) r c HL Hr Hc).
    destruct c as [|c']; [reflexivity | apply get_move_left].
  - rewrite get_move_left.
    destruct (Nat.eqb_spec (S c) W) as [E|NE].
    + apply get_overflow_col.
      rewrite (rect_row_length H W (move_right mask) r HR Hr). lia.
    + assert (Hc' : S c < W) by lia.
      now rewrite (get_move_right H W mask r (S c) Hrect Hr Hc').
  - rewrite (get_move_bottom H W (move_top mask) r c HT Hr).
    destruct r as [|r']; [reflexivity | apply get_move_top].
  - rewrite get_move_top.
    destruct (Nat.eqb_spec (S r) H) as [E|NE].
    + apply get_overflow_row. destruct HB as [Hlen _]. lia.
    + assert (Hr' : S r < H) by lia.
      now rewrite (get_move_bottom H W mask (S r) c Hrect Hr').
Qed.

Lemma move_round_trip_witness :
  let mask := [[true; true]] in
  rect 1 2 mask
  /\ get false (move_right (move_left mask)) 0 0 = false.
Proof.
  assert (Hrect : rect 1 2 [[true; true]]).
  { split; [reflexivity | repeat constructor]. }
  split; [exact Hrect|].
  exact (proj1 (move_round_trip 1 2 _ 0 0 Hrect (Nat.lt_0_succ 0)
                  (Nat.lt_0_succ 1))).
Defined.

(** ** The pixel index *)

Lemma assign_row_other {A : Type} (d : A) (a : list A) (m : list bool)
  (vals : list A) (c : nat) :
  nth c m false = false -> nth c (fst (assign_row a m vals)) d = nth c a d.
Proof.
  revert m vals c; induction a as [|x ta IH]; intros [|b tm] vals c Hc;
    try reflexivity.
  cbn [assign_row]. destruct b.
  - destruct c as [|c']; [discriminate|]. cbn [nth] in Hc.
    destruct vals as [|v tv].
    + specialize (IH tm [] c' Hc).
      destruct (assign_row ta tm []) as [row rest]. exact IH.
    + specialize (IH tm tv c' Hc).
      destruct (assign_row ta tm tv) as [row rest]. exact IH.
  - specialize (IH tm vals).
    destruct (assign_row ta tm vals) as [row rest].
    destruct c as [|c']; [reflexivity|]. cbn [nth] in *. now apply IH.
Qed.

(** [a[mask] = vals] leaves the cells outside the mask as they were. *)
Lemma assign_other {A : Type} (d : A) (a : grid A) (m : grid bool)
  (vals : list A) (r c : nat) :
  get false m r c = false -> get d (assign a m vals) r c = get d a r c.
Proof.
  unfold get.
  revert m vals r; induction a as [|ra ta IH]; intros [|rm tm] vals r Hc;
    try reflexivity.
  cbn [assign].
  pose proof (assign_row_other d ra rm vals c) as Hrow.
  destruct (assign_row ra rm vals) as [row rest]. cbn [fst] in Hrow.
  destruct r as [|r']; cbn [nth] in *.
  - now apply Hrow.
  - now apply IH.
Qed.

Lemma get_full_like {A B : Type} (g : grid A) (x : B) (r c : nat) :
  get x (full_like g x) r c = x.
Proof.
  unfold get, full_like. rewrite nth_map_nil by reflexivity.
  destruct (Nat.lt_ge_cases c (length (nth r g []))) as [Hlt|Hge].
  - destruct (nth r g []) as [|y row]; [simpl in Hlt; lia|].
    now rewrite (nth_map_lt _ _ c y).
  - apply nth_overflow. now rewrite length_map.
Qed.

Lemma StronglySorted_app {A : Type} (R : A -> A -> Prop) (l1 l2 : list A) :
  StronglySorted R l1 -> StronglySorted R l2 ->
  (forall x y, In x l1 -> In y l2 -> R x y) ->
  StronglySorted R (l1 ++ l2).
Proof.
  intros H1 H2 H12. induction H1 as [|a l H1 IH Ha]; [exact H2|].
  cbn [app]. constructor.
  - apply IH. intros x y Hx Hy. apply H12; [now right | exact Hy].
  - apply Forall_app. split; [exact Ha|].
    apply Forall_forall. intros y Hy. apply H12; [now left | exact Hy].
Qed.

Lemma StronglySorted_map {A B : Type} (R : A -> A -> Prop)
  (S : B -> B -> Prop) (f : A -> B) (l : list A) :
  (forall x y, R x y -> S (f x) (f y)) ->
  StronglySorted R l -> StronglySorted S (map f l).
Proof.
  intros Hf H. induction H as [|a l H IH Ha]; cbn [map]; constructor; auto.
  apply Forall_map. revert Ha. apply Forall_impl. intros y. apply Hf.
Qed.

Lemma StronglySorted_nth {A : Type} (R : A -> A -> Prop) (d : A)
  (l : list A) (i j : nat) :
  StronglySorted R l -> i < j -> j < length l -> R (nth i l d) (nth j l d).
Proof.
  intros H. revert i j. induction H as [|a l H IH Ha]; intros i j Hij Hj.
  - simpl in Hj. lia.
  - destruct j as [|j']; [lia|]. cbn [length] in Hj.
    destruct i as [|i']; cbn [nth].
    + rewrite Forall_forall in Ha. apply Ha, nth_In. lia.
    + apply IH; lia.
Qed.

Lemma true_cols_sorted (c0 : nat) (row : list bool) :
  StronglySorted lt (true_cols c0 row).
Proof.
  revert c0; induction row as [|b t IH]; intros c0; cbn [true_cols].
  - constructor.
  - destruct b; [|apply IH]. constructor; [apply IH|].
    apply Forall_forall. intros c Hc. apply true_cols_In in Hc. lia.
Qed.

Lemma cells_from_sorted (r0 : nat) (m : grid bool) :
  StronglySorted row_major (cells_from r0 m).
Proof.
  revert r0; induction m as [|row rest IH]; intros r0; cbn [cells_from].
  - constructor.
  - apply StronglySorted_app.
    + apply (StronglySorted_map lt); [|apply true_cols_sorted].
      intros x y Hxy. right. now split.
    + apply IH.
    + intros x [r c] Hx Hy. apply in_map_iff in Hx as [c1 [<- _]].
      apply cells_from_In in Hy as [Hy _]. left. cbn [fst]. lia.
Qed.

Lemma row_major_asym (p q : nat * nat) : row_major p q -> ~ row_major q p.
Proof. unfold row_major. lia. Qed.

Lemma row_major_total (p q : nat * nat) :
  p = q \/ row_major p q \/ row_major q p.
Proof.
  destruct p as [r c], q as [r' c']. unfold row_major. cbn [fst snd].
  destruct (Nat.lt_trichotomy r r') as [?|[?|?]];
    destruct (Nat.lt_trichotomy c c') as [?|[?|?]]; subst; auto.
Qed.

Lemma idx_row_major (mask : grid bool) (p q : nat * nat) :
  In p (cells mask) -> In q (cells mask) ->
  (idx mask p < idx mask q <-> row_major p q).
Proof.
  intros Hp Hq.
  destruct (idx_position mask p Hp) as [Lp Np].
  destruct (idx_position mask q Hq) as [Lq Nq].
  assert (Hmono : forall a b, In a (cells mask) -> In b (cells mask) ->
            idx mask a < idx mask b -> row_major a b).
  { intros a b Ha Hb Hlt.
    destruct (idx_position mask a Ha) as [_ Na].
    destruct (idx_position mask b Hb) as [Lb Nb].
    rewrite <- Na, <- Nb.
    apply StronglySorted_nth;
      [apply cells_from_sorted | exact Hlt | now rewrite cells_length]. }
  split; [now apply Hmono|].
  intros Hpq.
  destruct (Nat.lt_trichotomy (idx mask p) (idx mask q)) as [Hlt|[Heq|Hgt]].
  - exact Hlt.
  - apply (idx_inj mask p q Hp Hq) in Heq. subst q.
    exfalso. revert Hpq. unfold row_major. lia.
  - exfalso. apply (row_major_asym p q Hpq). now apply Hmono.
Qed.

(** X4.  [pixel_idx] numbers the valid pixels 0, 1, ..., N-1 in row-major
    order: reading it under the mask gives [arange(N)], two valid pixels
    are numbered in the order of their cells, no number is used twice,
    every number below N is used, and a pixel outside the mask keeps the
    0 of [zeros_like], the number of the first valid pixel. *)
Theorem pixel_index_numbering (mask : grid bool) :
  select (pixel_index mask) mask = seq 0 (count mask)
  /\ (forall r c, valid mask r c -> idx mask (r, c) < count mask)
  /\ (forall r c r' c', valid mask r c -> valid mask r' c' ->
        (idx mask (r, c) < idx mask (r', c') <-> row_major (r, c) (r', c'))
        /\ (idx mask (r, c) = idx mask (r', c') -> (r, c) = (r', c')))
  /\ (forall i, i < count mask ->
        exists r c, valid mask r c /\ idx mask (r, c) = i)
  /\ (forall r c, get false mask r c = false ->
        get 0 (pixel_index mask) r c = 0).
Proof.
  conjs.
  - apply select_pixel_index.
  - apply idx_lt.
  - intros r c r' c' Hv Hv'. apply cells_In in Hv, Hv'. split.
    + now apply idx_row_major.
    + now apply idx_inj.
  - intros i Hi. destruct (idx_onto mask i Hi) as [[r c] [Hin Hidx]].
    exists r, c. split; [now apply cells_In | exact Hidx].
  - intros r c Hf. unfold pixel_index.
    rewrite (assign_other 0 _ _ _ r c Hf). apply get_full_like.
Qed.

(** ** The point cloud *)

Lemma map2_grid_rect {A B C : Type} (f : A -> B -> C) (H W : nat)
  (a : grid A) (b : grid B) :
  rect H W a -> rect H W b -> rect H W (map2 (map2 f) a b).
Proof.
  intros [La Fa] [Lb Fb]. split.
  - rewrite map2_length. lia.
  - clear La Lb. revert b Fb. induction Fa as [|ra ta Hra Fa IH];
      intros [|rb tb] Fb; cbn [map2]; constructor.
    + inversion Fb; subst. rewrite map2_length. lia.
    + inversion Fb; subst. now apply IH.
Qed.

Lemma get_map2_grid {A B C : Type} (f : A -> B -> C) (da : A) (db : B)
  (dc : C) (H W : nat) (a : grid A) (b : grid B) (r c : nat) :
  rect H W a -> rect H W b -> r < H -> c < W ->
  get dc (map2 (map2 f) a b) r c = f (get da a r c) (get db b r c).
Proof.
  intros Ha Hb Hr Hc. unfold get.
  pose proof (rect_row_length H W a r Ha Hr) as La.
  pose proof (rect_row_length H W b r Hb Hr) as Lb.
  destruct Ha as [Hla _], Hb as [Hlb _].
  rewrite (map2_nth (map2 f) a b r [] [] []) by lia.
  apply map2_nth; lia.
Qed.

Lemma map_grid_rect {A B : Type} (f : A -> B) (H W : nat) (a : grid A) :
  rect H W a -> rect H W (map (map f) a).
Proof.
  intros [La Fa]. split; [now rewrite length_map|].
  apply Forall_map. revert Fa. apply Forall_impl. intros row Hrow.
  now rewrite length_map.
Qed.

Lemma get_map_grid {A B : Type} (f : A -> B) (d : A) (a : grid A) (r c : nat) :
  get (f d) (map (map f) a) r c = f (get d a r c).
Proof.
  unfold get. rewrite nth_map_nil by reflexivity. apply map_nth.
Qed.

Lemma get_indep {A : Type} (d d' : A) (H W : nat) (g : grid A) (r c : nat) :
  rect H W g -> r < H -> c < W -> get d g r c = get d' g r c.
Proof.
  intros Hg Hr Hc. unfold get. apply nth_indep.
  now rewrite (rect_row_length H W g r Hg Hr).
Qed.

Lemma get_map_grid_in {A B : Type} (f : A -> B) (d : A) (d' : B) (H W : nat)
  (a : grid A) (r c : nat) :
  rect H W a -> r < H -> c < W ->
  get d' (map (map f) a) r c = f (get d a r c).
Proof.
  intros Ha Hr Hc.
  rewrite (get_indep d' (f d) H W _ r c (map_grid_rect f H W a Ha) Hr Hc).
  apply get_map_grid.
Qed.

Lemma zeros3_rect (H W : nat) : rect H W (zeros3 H W).
Proof.
  unfold zeros3. split; [apply repeat_length|].
  apply Forall_forall. intros row Hin. apply repeat_spec in Hin. subst row.
  apply repeat_length.
Qed.

Lemma get_zeros3 (H W r c : nat) :
  r < H -> c < W -> get [] (zeros3 H W) r c = [Num 0; Num 0; Num 0].
Proof.
  intros Hr Hc. unfold get, zeros3.
  rewrite (nth_repeat_lt _ [] H r Hr). now apply nth_repeat_lt.
Qed.

Lemma set_channel_rect (i H W : nat) (a : grid (list num)) (v : grid num) :
  rect H W a -> rect H W v -> rect H W (set_channel i a v).
Proof. apply map2_grid_rect. Qed.

Lemma get_set_channel (i H W : nat) (a : grid (list num)) (v : grid num)
  (r c : nat) :
  rect H W a -> rect H W v -> r < H -> c < W ->
  get [] (set_channel i a v) r c
  = firstn i (get [] a r c) ++ get NaN v r c :: skipn (S i) (get [] a r c).
Proof.
  intros Ha Hv Hr Hc. unfold set_channel.
  now rewrite (get_map2_grid _ [] NaN [] H W a v r c Ha Hv Hr Hc).
Qed.

Lemma full_like_rect {A B : Type} (H W : nat) (g : grid A) (x : B) :
  rect H W g -> rect H W (full_like g x).
Proof.
  intros Hg. apply (rect_transfer H W _ g);
    [apply same_shape_full_like | exact Hg].
Qed.

Section PointCloud.

Variables (H W : nat) (mask : grid bool).
Hypothesis Hrect : rect H W mask.
Hypothesis Hcells : mask <> [].

Let yy := fst (meshgrid (seq 0 (width mask)) (seq 0 (height mask))).
Let xx := flip0 (snd (meshgrid (seq 0 (width mask)) (seq 0 (height mask)))).

Lemma height_width : height mask = H /\ width mask = W.
Proof.
  pose proof Hrect as [Hl HF]. split; [exact Hl|].
  destruct (rect_width H W mask Hrect) as [E|E]; [contradiction | exact E].
Qed.

Lemma xx_rect : rect H W xx.
Proof.
  destruct height_width as [EH EW].
  pose proof (meshgrid_rect (seq 0 (width mask)) (seq 0 (height mask)))
    as [_ R].
  rewrite !length_seq, EH, EW in R. subst xx. rewrite EH, EW.
  now apply flip0_rect.
Qed.

Lemma yy_rect : rect H W yy.
Proof.
  destruct height_width as [EH EW].
  pose proof (meshgrid_rect (seq 0 (width mask)) (seq 0 (height mask)))
    as [R _].
  rewrite !length_seq, EH, EW in R. subst yy. now rewrite EH, EW.
Qed.

Lemma get_xx (r c : nat) : r < H -> c < W -> get 0 xx r c = H - 1 - r.
Proof.
  destruct height_width as [EH EW]. intros Hr Hc. subst xx.
  rewrite EH, EW. now apply get_meshgrid_rows_flipped.
Qed.

Lemma get_yy (r c : nat) : r < H -> c < W -> get 0 yy r c = c.
Proof.
  destruct height_width as [EH EW]. intros Hr Hc. subst yy.
  rewrite EH, EW. now apply get_meshgrid_cols.
Qed.

(** The array [vertices] of the orthographic case, before the mask is
    applied. *)
Lemma vertices_grid (depth_map : grid num) (step_size : num) :
  rect H W depth_map ->
  let vertices :=
    set_channel 2
      (set_channel 1
         (set_channel 0 (zeros3 H W)
            (map (map (fun x => nmul (of_nat x) step_size)) xx))
         (map (map (fun y => nmul (of_nat y) step_size)) yy))
      depth_map in
  rect H W vertices
  /\ forall r c, r < H -> c < W ->
       get [] vertices r c
       = [nmul (of_nat (H - 1 - r)) step_size; nmul (of_nat c) step_size;
          get NaN depth_map r c].
Proof.
  intros Hd. cbv zeta.
  pose proof (map_grid_rect (fun x => nmul (of_nat x) step_size) H W xx xx_rect)
    as Rx.
  pose proof (map_grid_rect (fun y => nmul (of_nat y) step_size) H W yy yy_rect)
    as Ry.
  pose proof (set_channel_rect 0 H W _ _ (zeros3_rect H W) Rx) as R0.
  pose proof (set_channel_rect 1 H W _ _ R0 Ry) as R1.
  split; [now apply set_channel_rect|].
  intros r c Hr Hc.
  rewrite (get_set_channel 2 H W _ _ r c R1 Hd Hr Hc).
  rewrite (get_set_channel 1 H W _ _ r c R0 Ry Hr Hc).
  rewrite (get_set_channel 0 H W _ _ r c (zeros3_rect H W) Rx Hr Hc).
  rewrite (get_zeros3 H W r c Hr Hc).
  rewrite (get_map_grid_in (fun x => nmul (of_nat x) step_size) 0 NaN H W xx
             r c xx_rect Hr Hc).
  rewrite (get_map_grid_in (fun y => nmul (of_nat y) step_size) 0 NaN H W yy
             r c yy_rect Hr Hc).
  rewrite (get_xx r c Hr Hc), (get_yy r c Hr Hc). reflexivity.
Qed.

End PointCloud.

Lemma point_cloud_orthographic_eq (depth_map : grid num) (mask : grid bool)
  (step_size : num) :
  let H := height mask in
  let W := width mask in
  let yy := fst (meshgrid (seq 0 W) (seq 0 H)) in
  let xx := flip0 (snd (meshgrid (seq 0 W) (seq 0 H))) in
  map_depth_map_to_point_clouds depth_map mask None step_size
  = select
      (set_channel 2
         (set_channel 1
            (set_channel 0 (zeros3 H W)
               (map (map (fun x => nmul (of_nat x) step_size)) xx))
            (map (map (fun y => nmul (of_nat y) step_size)) yy))
         depth_map)
      mask.
Proof. reflexivity. Qed.

Lemma select_nil_mask {A : Type} (a : grid A) : select a [] = [].
Proof. now destruct a. Qed.

Lemma no_valid_nil (r c : nat) : ~ valid [] r c.
Proof. unfold valid, get. destruct r, c; discriminate. Qed.

(** The vertex of a valid pixel in the orthographic case. *)
Lemma orthographic_vertex (H W : nat) (mask : grid bool)
  (depth_map : grid num) (step_size : num) :
  rect H W mask -> rect H W depth_map ->
  let vertices := map_depth_map_to_point_clouds depth_map mask None step_size in
  length vertices = count mask
  /\ forall r c, valid mask r c ->
       nth (idx mask (r, c)) vertices []
       = [nmul (of_nat (H - 1 - r)) step_size; nmul (of_nat c) step_size;
          get NaN depth_map r c].
Proof.
  intros Hm Hd. cbv zeta. rewrite point_cloud_orthographic_eq. cbv zeta.
  assert (Hcase : mask = [] \/ mask <> [])
    by (destruct mask; [now left | now right]).
  destruct Hcase as [E|Hne].
  - subst mask. rewrite select_nil_mask. split; [reflexivity|].
    intros r c Hv. now apply no_valid_nil in Hv.
  - destruct (height_width H W mask Hm Hne) as [EH EW].
    replace (zeros3 (height mask) (width mask)) with (zeros3 H W)
      by now rewrite EH, EW.
    destruct (vertices_grid H W mask Hm Hne depth_map step_size Hd)
      as [Rv Gv].
    pose proof (rect_same_shape H W _ mask Rv Hm) as Sv.
    split; [now apply select_length|].
    intros r c Hv. rewrite (nth_select [] _ mask r c Sv Hv).
    destruct (valid_in_range H W mask r c Hm Hv) as [Hr Hc].
    now apply Gv.
Qed.

(** X5.  Without a camera matrix the point cloud has one vertex per valid
    pixel, at the pixel's index: the vertex of the pixel in row r and
    column c of an H x W mask is ((H - 1 - r) * step_size, c * step_size,
    depth_map[r, c]), so x grows upwards along the rows and y along the
    columns. *)
Theorem point_cloud_orthographic (H W : nat) (mask : grid bool)
  (depth_map : grid num) (step_size : num) :
  rect H W mask -> rect H W depth_map ->
  let vertices := map_depth_map_to_point_clouds depth_map mask None step_size in
  length vertices = count mask
  /\ forall r c, valid mask r c ->
       nth (idx mask (r, c)) vertices []
       = [nmul (of_nat (H - 1 - r)) step_size; nmul (of_nat c) step_size;
          get NaN depth_map r c].
Proof. apply orthographic_vertex. Qed.

Lemma map_seq_nth {A B : Type} (f : A -> B) (d : A) (l : list A) :
  map (fun i => f (nth i l d)) (seq 0 (length l)) = map f l.
Proof.
  induction l as [|a l IH]; [reflexivity|].
  cbn [length seq map nth]. f_equal.
  rewrite <- seq_shift, map_map. exact IH.
Qed.

Lemma dense_transpose_twice (L : grid num) :
  L <> [] -> Forall (fun p => length p = 3) L ->
  dense_transpose (dense_transpose L) = L.
Proof.
  intros Hne HL.
  assert (Hw : width L = 3).
  { destruct L as [|p L']; [contradiction|]. now inversion HL. }
  unfold dense_transpose at 2. rewrite Hw. cbn [seq map].
  unfold dense_transpose, width. cbn [hd map]. rewrite length_map.
  transitivity (map (fun p : list num => p) L); [|apply map_id].
  rewrite <- (map_seq_nth (fun p => p) [] L).
  apply map_ext_in. intros i Hi. apply in_seq in Hi.
  rewrite !(nth_map_lt _ L i [] NaN) by lia.
  assert (Hp : length (nth i L []) = 3).
  { rewrite Forall_forall in HL. apply HL, nth_In. lia. }
  destruct (nth i L []) as [|x [|y [|z [|w t]]]]; try discriminate.
  reflexivity.
Qed.

(** [(A @ u.T).T] applies [A] to every row of [u]. *)
Lemma project_rows (A L : grid num) :
  A <> [] -> Forall (fun p => length p = 3) L ->
  dense_transpose (matmul A (dense_transpose L))
  = map (fun p => map (fun row => dot row p) A) L.
Proof.
  intros HA HL. destruct L as [|p0 L'] eqn:EL.
  - destruct A as [|row A']; [contradiction | reflexivity].
  - rewrite <- EL in *.
    assert (Hne : L <> []) by (rewrite EL; discriminate).
    unfold matmul. rewrite (dense_transpose_twice L Hne HL).
    unfold dense_transpose, width.
    destruct A as [|row A']; [contradiction|].
    cbn [hd map]. rewrite length_map.
    rewrite <- (map_seq_nth (fun p => dot row p
                               :: map (fun row0 => dot row0 p) A') [] L).
    apply map_ext_in. intros i Hi. apply in_seq in Hi. unfold vec in *.
    rewrite (nth_map_lt _ L i [] NaN) by lia. f_equal.
    rewrite map_map. apply map_ext. intros row0.
    now rewrite (nth_map_lt _ L i [] NaN) by lia.
Qed.

Lemma point_cloud_perspective_eq (depth_map : grid num) (mask : grid bool)
  (K : grid num) (step_size : num) :
  let H := height mask in
  let W := width mask in
  let yy := fst (meshgrid (seq 0 W) (seq 0 H)) in
  let xx := flip0 (snd (meshgrid (seq 0 W) (seq 0 H))) in
  let u0 :=
    set_channel 1 (set_channel 0 (zeros3 H W) (map (map of_nat) xx))
      (map (map of_nat) yy) in
  let u := set_channel 2 u0 (full_like u0 (Num 1)) in
  map_depth_map_to_point_clouds depth_map mask (Some K) step_size
  = map2 (fun vertex d => map (fun x => nmul x d) vertex)
      (dense_transpose (matmul (inv K) (dense_transpose (select u mask))))
      (select depth_map mask).
Proof. reflexivity. Qed.

Lemma get_full_like_in {A B : Type} (d x : B) (H W : nat) (g : grid A)
  (r c : nat) :
  rect H W g -> r < H -> c < W -> get d (full_like g x) r c = x.
Proof.
  intros Hg Hr Hc.
  rewrite (get_indep d x H W _ r c (full_like_rect H W g x Hg) Hr Hc).
  apply get_full_like.
Qed.

(** The array [u] of the perspective case, before the mask is applied:
    the homogeneous pixel coordinates. *)
Lemma rays_grid (H W : nat) (mask : grid bool) :
  rect H W mask -> mask <> [] ->
  let yy := fst (meshgrid (seq 0 (width mask)) (seq 0 (height mask))) in
  let xx :=
    flip0 (snd (meshgrid (seq 0 (width mask)) (seq 0 (height mask)))) in
  let u0 :=
    set_channel 1 (set_channel 0 (zeros3 H W) (map (map of_nat) xx))
      (map (map of_nat) yy) in
  let u := set_channel 2 u0 (full_like u0 (Num 1)) in
  rect H W u
  /\ forall r c, r < H -> c < W ->
       get [] u r c = [of_nat (H - 1 - r); of_nat c; Num 1].
Proof.
  intros Hm Hne. cbv zeta.
  pose proof (xx_rect H W mask Hm Hne) as Rxx.
  pose proof (yy_rect H W mask Hm Hne) as Ryy.
  pose proof (map_grid_rect of_nat H W _ Rxx) as Rx.
  pose proof (map_grid_rect of_nat H W _ Ryy) as Ry.
  pose proof (set_channel_rect 0 H W _ _ (zeros3_rect H W) Rx) as R0.
  pose proof (set_channel_rect 1 H W _ _ R0 Ry) as R1.
  pose proof (full_like_rect H W _ (Num 1) R1) as Rone.
  split; [now apply set_channel_rect|].
  intros r c Hr Hc.
  rewrite (get_set_channel 2 H W _ _ r c R1 Rone Hr Hc).
  rewrite (get_full_like_in NaN (Num 1) H W _ r c R1 Hr Hc).
  rewrite (get_set_channel 1 H W _ _ r c R0 Ry Hr Hc).
  rewrite (get_set_channel 0 H W _ _ r c (zeros3_rect H W) Rx Hr Hc).
  rewrite (get_zeros3 H W r c Hr Hc).
  rewrite (get_map_grid_in of_nat 0 NaN H W _ r c Rxx Hr Hc).
  rewrite (get_map_grid_in of_nat 0 NaN H W _ r c Ryy Hr Hc).
  rewrite (get_xx H W mask Hm Hne r c Hr Hc),
    (get_yy H W mask Hm Hne r c Hr Hc).
  reflexivity.
Qed.

(** The vertex of a valid pixel in the perspective case:
    [inv(K) @ (x, y, 1)] times the depth of the pixel. *)
Lemma perspective_vertex (H W : nat) (mask : grid bool) (depth_map : grid num)
  (K : grid num) (step_size : num) :
  rect H W mask -> rect H W depth_map ->
  let vertices :=
    map_depth_map_to_point_clouds depth_map mask (Some K) step_size in
  length vertices = count mask
  /\ forall r c, valid mask r c ->
       nth (idx mask (r, c)) vertices []
       = map (fun row =>
                nmul (dot row [of_nat (H - 1 - r); of_nat c; Num 1])
                  (get NaN depth_map r c))
           (inv K).
Proof.
  intros Hm Hd. cbv zeta. rewrite point_cloud_perspective_eq. cbv zeta.
  assert (Hcase : mask = [] \/ mask <> [])
    by (destruct mask; [now left | now right]).
  destruct Hcase as [E|Hne].
  - subst mask. rewrite !select_nil_mask. split; [reflexivity|].
    intros r c Hv. now apply no_valid_nil in Hv.
  - destruct (height_width H W mask Hm Hne) as [EH EW].
    replace (zeros3 (height mask) (width mask)) with (zeros3 H W)
      by now rewrite EH, EW.
    destruct (rays_grid H W mask Hm Hne) as [Ru Gu].
    pose proof (rect_same_shape H W _ mask Ru Hm) as Su.
    pose proof (rect_same_shape H W _ mask Hd Hm) as Sd.
    match goal with
    | |- context [select ?u mask] =>
        match type of Ru with rect _ _ u => set (rays := u) in * end
    end.
    assert (HL : Forall (fun p => length p = 3) (select rays mask)).
    { rewrite (select_cells [] rays mask Su). apply Forall_map.
      apply Forall_forall. intros [r c] Hin. apply cells_In in Hin.
      destruct (valid_in_range H W mask r c Hm Hin) as [Hr Hc].
      cbn [fst snd]. now rewrite (Gu r c Hr Hc). }
    rewrite (project_rows (inv K) (select rays mask))
      by (discriminate || exact HL).
    split.
    + rewrite map2_length, length_map, !select_length by assumption. lia.
    + intros r c Hv.
      pose proof (idx_lt mask r c Hv) as Hi.
      destruct (valid_in_range H W mask r c Hm Hv) as [Hr Hc].
      rewrite (map2_nth _ _ _ _ [] NaN [])
        by (rewrite ?length_map, select_length by assumption; exact Hi).
      rewrite (nth_map_lt (fun p : vec => map (fun row : vec => dot row p)
                                            (inv K))
                 (select rays mask) (idx mask (r, c)) [] [])
        by (rewrite select_length by assumption; exact Hi).
      unfold vec.
      rewrite (nth_select [] rays mask r c Su Hv), (Gu r c Hr Hc).
      rewrite (nth_select NaN depth_map mask r c Sd Hv).
      rewrite map_map. reflexivity.
Qed.

(** X6.  With an invertible camera matrix K the vertex (X, Y, Z) of a
    valid pixel projects back onto the pixel: K @ (X, Y, Z) = depth *
    (H - 1 - r, c, 1), where r and c are the row and the column of the
    pixel and depth is the value of the depth map there. *)
Theorem point_cloud_reprojection (H W : nat) (mask : grid bool)
  (depth_map : grid num) (k00 k01 k02 k10 k11 k12 k20 k21 k22 : R)
  (step_size : num) (r c : nat) (d : R) :
  let K := [[Num k00; Num k01; Num k02]; [Num k10; Num k11; Num k12];
            [Num k20; Num k21; Num k22]] in
  rect H W mask -> rect H W depth_map -> valid mask r c ->
  get NaN depth_map r c = Num d -> det3 K <> Num 0 ->
  exists X Y Z : R,
    nth (idx mask (r, c))
      (map_depth_map_to_point_clouds depth_map mask (Some K) step_size) []
    = [Num X; Num Y; Num Z]
    /\ (k00 * X + k01 * Y + k02 * Z = d * INR (H - 1 - r))%R
    /\ (k10 * X + k11 * Y + k12 * Z = d * INR c)%R
    /\ (k20 * X + k21 * Y + k22 * Z = d)%R.
Proof.
  intros K Hm Hd Hv Hdepth Hdet.
  destruct (perspective_vertex H W mask depth_map K step_size Hm Hd)
    as [_ Hvertex].
  pose proof (Hvertex r c Hv) as E. rewrite Hdepth in E. clear Hvertex.
  set (D := (k00 * (k11 * k22 - k12 * k21) - k01 * (k10 * k22 - k12 * k20)
             + k02 * (k10 * k21 - k11 * k20))%R).
  assert (ED : det3 K = Num D) by reflexivity.
  assert (HD : D <> 0%R).
  { intros E0. apply Hdet. rewrite ED. now f_equal. }
  unfold inv in E. rewrite ED in E. subst K. cbn [get nth] in E.
  cbn [nsub nmul lift2] in E. rewrite !ndiv_num in E by exact HD.
  cbn [map dot vmul map2 nsum fold_right nmul nadd lift2 of_nat] in E.
  eexists. eexists. eexists. split; [exact E|].
  subst D. repeat split; field; exact HD.
Qed.

Lemma point_cloud_reprojection_witness :
  let K := [[Num 1; Num 0; Num 0]; [Num 0; Num 1; Num 0];
            [Num 0; Num 0; Num 1]] in
  (rect 1 1 [[true]] /\ rect 1 1 [[Num 2]] /\ valid [[true]] 0 0
   /\ get NaN [[Num 2]] 0 0 = Num 2 /\ det3 K <> Num 0)
  /\ exists X Y Z : R,
       nth (idx [[true]] (0, 0))
         (map_depth_map_to_point_clouds [[Num 2]] [[true]] (Some K) (Num 1))
         []
       = [Num X; Num Y; Num Z]
       /\ (1 * X + 0 * Y + 0 * Z = 2 * INR (1 - 1 - 0))%R
       /\ (0 * X + 1 * Y + 0 * Z = 2 * INR 0)%R
       /\ (0 * X + 0 * Y + 1 * Z = 2)%R.
Proof.
  assert (Hm : rect 1 1 [[true]])
    by (split; [reflexivity | repeat constructor]).
  assert (Hd : rect 1 1 [[Num 2]])
    by (split; [reflexivity | repeat constructor]).
  assert (Hdet : det3 [[Num 1; Num 0; Num 0]; [Num 0; Num 1; Num 0];
                       [Num 0; Num 0; Num 1]] <> Num 0).
  { cbn. intros E. injection E. lra. }
  split; [conjs; try assumption; reflexivity|].
  exact (point_cloud_reprojection 1 1 [[true]] [[Num 2]] 1 0 0 0 1 0 0 0 1
           (Num 1) 0 0 2 Hm Hd eq_refl eq_refl Hdet).
Defined.

(** X7.  With the camera matrix K = [[fx, 0, cx], [0, fy, cy], [0, 0, 1]]
    the vertex of the valid pixel in row r and column c is
    ((H - 1 - r - cx) / fx * depth, (c - cy) / fy * depth, depth): its
    third coordinate is the depth of the pixel. *)
Theorem point_cloud_pinhole (H W : nat) (mask : grid bool)
  (depth_map : grid num) (fx fy cx cy : R) (step_size : num) (r c : nat)
  (d : R) :
  let K := [[Num fx; Num 0; Num cx]; [Num 0; Num fy; Num cy];
            [Num 0; Num 0; Num 1]] in
  rect H W mask -> rect H W depth_map -> valid mask r c ->
  get NaN depth_map r c = Num d -> fx <> 0%R -> fy <> 0%R ->
  nth (idx mask (r, c))
    (map_depth_map_to_point_clouds depth_map mask (Some K) step_size) []
  = [Num ((INR (H - 1 - r) - cx) / fx * d)%R;
     Num ((INR c - cy) / fy * d)%R; Num d].
Proof.
  intros K Hm Hd Hv Hdepth Hfx Hfy.
  destruct (perspective_vertex H W mask depth_map K step_size Hm Hd)
    as [_ Hvertex].
  etransitivity; [apply (Hvertex r c Hv)|]. rewrite Hdepth. clear Hvertex.
  set (D := (fx * (fy * 1 - cy * 0) - 0 * (0 * 1 - cy * 0)
             + cx * (0 * 0 - fy * 0))%R).
  assert (ED : det3 K = Num D) by reflexivity.
  assert (HD : D <> 0%R).
  { subst D. intros E. ring_simplify in E.
    apply Rmult_integral in E. tauto. }
  unfold inv. rewrite ED. subst K. cbn [get nth].
  cbn [nsub nmul lift2]. rewrite !ndiv_num by exact HD.
  cbn [map dot vmul map2 nsum fold_right nmul nadd lift2 of_nat].
  subst D.
  match goal with
  | |- [Num ?a; Num ?b; Num ?e] = [Num ?a'; Num ?b'; Num ?e'] =>
      replace a with a' by (field; auto);
      replace b with b' by (field; auto);
      replace e with e' by (field; auto)
  end.
  reflexivity.
Qed.

Lemma point_cloud_pinhole_witness :
  (rect 1 1 [[true]] /\ rect 1 1 [[Num 2]] /\ valid [[true]] 0 0
   /\ get NaN [[Num 2]] 0 0 = Num 2 /\ 4%R <> 0%R)
  /\ nth (idx [[true]] (0, 0))
       (map_depth_map_to_point_clouds [[Num 2]] [[true]]
          (Some [[Num 4; Num 0; Num 1]; [Num 0; Num 4; Num 1];
                 [Num 0; Num 0; Num 1]]) (Num 1)) []
     = [Num ((INR (1 - 1 - 0) - 1) / 4 * 2)%R; Num ((INR 0 - 1) / 4 * 2)%R;
        Num 2].
Proof.
  assert (Hm : rect 1 1 [[true]])
    by (split; [reflexivity | repeat constructor]).
  assert (Hd : rect 1 1 [[Num 2]])
    by (split; [reflexivity | repeat constructor]).
  assert (Hf : 4%R <> 0%R) by lra.
  split; [conjs; try assumption; reflexivity|].
  exact (point_cloud_pinhole 1 1 [[true]] [[Num 2]] 4 4 1 1 (Num 1) 0 0 2
           Hm Hd eq_refl eq_refl Hf Hf).
Defined.

Lemma point_cloud_orthographic_witness :
  let vertices :=
    map_depth_map_to_point_clouds [[Num 5]] [[true]] None (Num 2) in
  (rect 1 1 [[true]] /\ rect 1 1 [[Num 5]])
  /\ length vertices = count [[true]]
  /\ forall r c, valid [[true]] r c ->
       nth (idx [[true]] (r, c)) vertices []
       = [nmul (of_nat (1 - 1 - r)) (Num 2); nmul (of_nat c) (Num 2);
          get NaN [[Num 5]] r c].
Proof.
  assert (Hm : rect 1 1 [[true]])
    by (split; [reflexivity | repeat constructor]).
  assert (Hd : rect 1 1 [[Num 5]])
    by (split; [reflexivity | repeat constructor]).
  split; [split; assumption|].
  exact (point_cloud_orthographic 1 1 [[true]] [[Num 5]] (Num 2) Hm Hd).
Defined.

(** ** The returned maps *)

Lemma assign_row_length {A : Type} (a : list A) (m : list bool)
  (vals : list A) :
  length (fst (assign_row a m vals)) = length a.
Proof.
  revert m vals; induction a as [|x ta IH]; intros [|b tm] vals;
    try reflexivity.
  cbn [assign_row]. destruct b.
  - destruct vals as [|v tv].
    + specialize (IH tm []). destruct (assign_row ta tm []) as [row rest].
      cbn [fst length] in *. now rewrite IH.
    + specialize (IH tm tv). destruct (assign_row ta tm tv) as [row rest].
      cbn [fst length] in *. now rewrite IH.
  - specialize (IH tm vals). destruct (assign_row ta tm vals) as [row rest].
    cbn [fst length] in *. now rewrite IH.
Qed.

(** [a[mask] = vals] keeps the shape of [a]. *)
Lemma assign_shape {A : Type} (a : grid A) (m : grid bool) (vals : list A) :
  same_shape (assign a m vals) a.
Proof.
  revert m vals; induction a as [|ra ta IH]; intros [|rm tm] vals;
    try apply same_shape_refl.
  cbn [assign]. pose proof (assign_row_length ra rm vals) as Hl.
  destruct (assign_row ra rm vals) as [row rest]. cbn [fst] in Hl.
  constructor; [exact Hl | apply IH].
Qed.

Lemma assign_rect {A : Type} (H W : nat) (mask : grid bool) (x : A)
  (vals : list A) :
  rect H W mask -> rect H W (assign (full_like mask x) mask vals).
Proof.
  intros Hm. apply (rect_transfer H W _ (full_like mask x)).
  - apply assign_shape.
  - now apply full_like_rect.
Qed.

(** The array [full_like(mask, x); a[mask] = vals], cell by cell. *)
Lemma assign_cells {A : Type} (H W : nat) (mask : grid bool) (x : A)
  (vals : list A) (r c : nat) :
  rect H W mask -> count mask <= length vals ->
  get x (assign (full_like mask x) mask vals) r c
  = if get false mask r c then nth (idx mask (r, c)) vals x else x.
Proof.
  intros Hm Hlen. destruct (get false mask r c) eqn:Hv.
  - destruct (assign_spec (full_like mask x) mask vals
                (same_shape_full_like mask x) Hlen) as [Hsel Hshape].
    rewrite <- (nth_select x _ mask r c Hshape Hv), Hsel.
    pose proof (idx_lt mask r c Hv) as Hi.
    rewrite <- (firstn_skipn (count mask) vals) at 2.
    rewrite app_nth1; [reflexivity|]. rewrite length_firstn. lia.
  - rewrite (assign_other x _ _ _ r c Hv). apply get_full_like.
Qed.

Section Lengths.

Variable cg : coo -> vec -> vec -> nat -> num -> vec.
Hypothesis cg_length :
  forall A b x0 maxiter tol, length (cg A b x0 maxiter tol) = length x0.

Variable sys : linear_system.
Variable depth_prior : option prior.
Variables k lambda1 tol cg_tol : num.
Variable cg_max_iter : nat.

Lemma solve_length (W : coo) (z : vec) :
  length (solve cg sys depth_prior lambda1 cg_tol cg_max_iter W z) = length z.
Proof.
  unfold solve. destruct depth_prior as [[M z_prior]|].
  - rewrite cg_length. unfold vadd_scalar. apply length_map.
  - apply cg_length.
Qed.

Lemma run_z_length (st0 : state) (n : nat) :
  length (st_z (run cg sys depth_prior k lambda1 cg_tol cg_max_iter st0 n))
  = length (st_z st0).
Proof.
  induction n as [|n IH]; [reflexivity|].
  unfold run in *. rewrite Nat.iter_succ. cbn [iteration st_z].
  rewrite solve_length. exact IH.
Qed.

End Lengths.

Lemma get_map_nexp (g : grid num) (r c : nat) :
  get NaN (map (map nexp) g) r c = nexp (get NaN g r c).
Proof. apply (get_map_grid nexp NaN). Qed.

(** X8.  Called without a camera matrix, with a normal map and prior
    arrays of the shape of the mask, a solver that returns a vector as
    long as its starting point, and at least one iteration, the function
    returns; the depth map has the shape of the mask, is NaN at every
    pixel outside the mask, and holds at a valid pixel the entry of the
    last [z] at the pixel's index. *)
Theorem returned_depth_map
  (cg : coo -> vec -> vec -> nat -> num -> vec) (H W : nat)
  (normal_map : grid normal) (normal_mask : grid bool) (k lambda1 : num)
  (depth : option (grid num * grid bool))
  (step_size : num) (max_iter : nat) (tol : num) (cg_max_iter : nat)
  (cg_tol : num) :
  rect H W normal_map -> rect H W normal_mask -> prior_of_shape H W depth ->
  keeps_length cg ->
  0 < max_iter ->
  let sys := assemble normal_map normal_mask None step_size in
  let depth_prior := prior_of normal_mask None depth in
  let z :=
    st_z (fst (irls cg sys depth_prior k lambda1 tol cg_tol cg_max_iter
                 max_iter (initial_state sys normal_mask))) in
  exists out,
    bilateral_normal_integration cg normal_map normal_mask k lambda1 depth
      None step_size max_iter tol cg_max_iter cg_tol = Ok out
    /\ length z = count normal_mask
    /\ rect H W (out_depth_map out)
    /\ forall r c,
         (get false normal_mask r c = false ->
          get NaN (out_depth_map out) r c = NaN)
         /\ (valid normal_mask r c ->
             get NaN (out_depth_map out) r c
             = nth (idx normal_mask (r, c)) z NaN).
Proof.
  intros Hn Hm Hp Hcg Hpos. cbv zeta.
  rewrite (bni_outputs cg H W normal_map normal_mask k lambda1 depth
             step_size max_iter tol cg_max_iter cg_tol Hn Hm Hp Hpos).
  eexists. split; [reflexivity|]. cbn [out_depth_map].
  set (sys := assemble normal_map normal_mask None step_size).
  set (depth_prior := prior_of normal_mask None depth).
  set (st0 := initial_state sys normal_mask).
  destruct (irls_trace cg sys depth_prior k lambda1 tol cg_tol cg_max_iter
              max_iter st0) as (n & _ & Hrun & _).
  set (z := st_z (fst (irls cg sys depth_prior k lambda1 tol cg_tol
                         cg_max_iter max_iter st0))).
  assert (Hz : length z = count normal_mask).
  { unfold z. rewrite Hrun, (run_z_length cg Hcg).
    unfold st0, initial_state. cbn [st_z]. apply repeat_length. }
  assert (Hle : count normal_mask <= length z) by lia.
  pose proof (assign_rect H W normal_mask NaN z Hm) as Hr.
  split; [exact Hz|]. split; [exact Hr|].
  intros r c.
  pose proof (assign_cells H W normal_mask NaN z r c Hm Hle) as Hcell.
  split.
  - intros Hv. now rewrite Hv in Hcell.
  - intros Hv. unfold valid in Hv. now rewrite Hv in Hcell.
Qed.

Lemma returned_depth_map_witness :
  let cg := fun (_ : coo) (_ x0 : vec) (_ : nat) (_ : num) => x0 in
  (rect 1 1 [[(Num 0, Num 0, Num (-1))]] /\ rect 1 1 [[true]]
   /\ prior_of_shape 1 1 None /\ keeps_length cg /\ 0 < 1)
  /\ exists out,
       bilateral_normal_integration cg [[(Num 0, Num 0, Num (-1))]] [[true]]
         (Num 2) (Num 0) None None (Num 1) 1 (Num (1 / 10000)) 500
         (Num (1 / 100000)) = Ok out
       /\ rect 1 1 (out_depth_map out).
Proof.
  assert (Hn : rect 1 1 [[(Num 0, Num 0, Num (-1))]])
    by (split; [reflexivity | repeat constructor]).
  assert (Hm : rect 1 1 [[true]])
    by (split; [reflexivity | repeat constructor]).
  split; [conjs; try assumption; try exact I; try lia; exact (fun _ _ _ _ _ => eq_refl)|].
  destruct (returned_depth_map
              (fun (_ : coo) (_ x0 : vec) (_ : nat) (_ : num) => x0) 1 1
              [[(Num 0, Num 0, Num (-1))]] [[true]] (Num 2) (Num 0) None
              (Num 1) 1 (Num (1 / 10000)) 500 (Num (1 / 100000)) Hn Hm I
              (fun _ _ _ _ _ => eq_refl)
              (Nat.lt_0_succ 0))
    as (out & Hout & _ & Hrect & _).
  exists out. split; assumption.
Defined.

(** X9.  Called without a camera matrix, with a normal map and prior
    arrays of the shape of the mask, a solver that returns a vector as
    long as its starting point, and at least one iteration, the
    function returns; the two weight maps have the shape of the mask and
    are NaN outside it.  They are swapped against the loop variables:
    [wu_map] holds [wv], the sigmoid of the squared backward minus the
    squared forward residual of the horizontal operators (scaled by
    [Nz_v]), and [wv_map] holds [wu], the same for the vertical operators
    (scaled by [Nz_u]), each at the last [z]. *)
Theorem returned_weight_maps
  (cg : coo -> vec -> vec -> nat -> num -> vec) (H W : nat)
  (normal_map : grid normal) (normal_mask : grid bool) (k lambda1 : num)
  (depth : option (grid num * grid bool))
  (step_size : num) (max_iter : nat) (tol : num) (cg_max_iter : nat)
  (cg_tol : num) :
  rect H W normal_map -> rect H W normal_mask -> prior_of_shape H W depth ->
  keeps_length cg ->
  0 < max_iter ->
  let sys := assemble normal_map normal_mask None step_size in
  let depth_prior := prior_of normal_mask None depth in
  let z :=
    st_z (fst (irls cg sys depth_prior k lambda1 tol cg_tol cg_max_iter
                 max_iter (initial_state sys normal_mask))) in
  let horizontal_pos :=
    spmm (sys_Nz_v sys) (sp_div (D_horizontal_pos normal_mask) step_size) in
  let horizontal_neg :=
    spmm (sys_Nz_v sys) (sp_div (D_horizontal_neg normal_mask) step_size) in
  let vertical_pos :=
    spmm (sys_Nz_u sys) (sp_div (D_vertical_pos normal_mask) step_size) in
  let vertical_neg :=
    spmm (sys_Nz_u sys) (sp_div (D_vertical_neg normal_mask) step_size) in
  exists out,
    bilateral_normal_integration cg normal_map normal_mask k lambda1 depth
      None step_size max_iter tol cg_max_iter cg_tol = Ok out
    /\ rect H W (out_wu_map out) /\ rect H W (out_wv_map out)
    /\ forall r c,
         (get false normal_mask r c = false ->
          get NaN (out_wu_map out) r c = NaN
          /\ get NaN (out_wv_map out) r c = NaN)
         /\ (valid normal_mask r c ->
             let i := idx normal_mask (r, c) in
             get NaN (out_wu_map out) r c
             = sigmoid
                 (nsub (nsq (nth i (matvec horizontal_neg z) NaN))
                    (nsq (nth i (matvec horizontal_pos z) NaN))) k
             /\ get NaN (out_wv_map out) r c
                = sigmoid
                    (nsub (nsq (nth i (matvec vertical_neg z) NaN))
                       (nsq (nth i (matvec vertical_pos z) NaN))) k).
Proof.
  intros Hn Hm Hp _ Hpos. cbv zeta.
  rewrite (bni_outputs cg H W normal_map normal_mask k lambda1 depth
             step_size max_iter tol cg_max_iter cg_tol Hn Hm Hp Hpos).
  eexists. split; [reflexivity|]. cbn [out_wu_map out_wv_map].
  set (sys := assemble normal_map normal_mask None step_size).
  set (depth_prior := prior_of normal_mask None depth).
  set (z := st_z (fst (irls cg sys depth_prior k lambda1 tol cg_tol
                         cg_max_iter max_iter
                         (initial_state sys normal_mask)))).
  destruct (assemble_nrows H W normal_map normal_mask None step_size Hn Hm)
    as (N1 & N2 & N3 & N4).
  fold sys in N1, N2, N3, N4.
  destruct (assemble_blocks normal_map normal_mask None step_size)
    as (B1 & B2 & B3 & B4 & _).
  fold sys in B1, B2, B3, B4.
  assert (Lu : count normal_mask <= length (update_wu sys z k)).
  { rewrite update_wu_length, N1, N2. lia. }
  assert (Lv : count normal_mask <= length (update_wv sys z k)).
  { rewrite update_wv_length, N3, N4. lia. }
  split; [now apply assign_rect|]. split; [now apply assign_rect|].
  intros r c.
  pose proof (assign_cells H W normal_mask NaN _ r c Hm Lu) as Cu.
  pose proof (assign_cells H W normal_mask NaN _ r c Hm Lv) as Cv.
  split.
  - intros Hv. rewrite Hv in Cu, Cv. now split.
  - intros Hv. pose proof (idx_lt normal_mask r c Hv) as Hi.
    unfold valid in Hv. rewrite Hv in Cu, Cv.
    rewrite Cu, Cv, <- B1, <- B2, <- B3, <- B4. split.
    + apply update_wv_nth; lia.
    + apply update_wu_nth; lia.
Qed.

Lemma returned_weight_maps_witness :
  let cg := fun (_ : coo) (_ x0 : vec) (_ : nat) (_ : num) => x0 in
  (rect 1 1 [[(Num 0, Num 0, Num (-1))]] /\ rect 1 1 [[true]]
   /\ prior_of_shape 1 1 None /\ keeps_length cg /\ 0 < 1)
  /\ exists out,
       bilateral_normal_integration cg [[(Num 0, Num 0, Num (-1))]] [[true]]
         (Num 2) (Num 0) None None (Num 1) 1 (Num (1 / 10000)) 500
         (Num (1 / 100000)) = Ok out
       /\ rect 1 1 (out_wu_map out) /\ rect 1 1 (out_wv_map out).
Proof.
  assert (Hn : rect 1 1 [[(Num 0, Num 0, Num (-1))]])
    by (split; [reflexivity | repeat constructor]).
  assert (Hm : rect 1 1 [[true]])
    by (split; [reflexivity | repeat constructor]).
  split; [conjs; try assumption; try exact I; try lia; exact (fun _ _ _ _ _ => eq_refl)|].
  destruct (returned_weight_maps
              (fun (_ : coo) (_ x0 : vec) (_ : nat) (_ : num) => x0) 1 1
              [[(Num 0, Num 0, Num (-1))]] [[true]] (Num 2) (Num 0) None
              (Num 1) 1 (Num (1 / 10000)) 500 (Num (1 / 100000)) Hn Hm I
              (fun _ _ _ _ _ => eq_refl)
              (Nat.lt_0_succ 0))
    as (out & Hout & Hu & Hv & _).
  exists out. conjs; assumption.
Defined.

Lemma reverse_winding_facet (a b c d : nat) :
  reverse_winding [4; a; b; c; d] = [4; a; d; c; b].
Proof. reflexivity. Qed.

Lemma facet_cells (mask : grid bool) (r c : nat) :
  In (r, c) (cells (facet_top_left_mask mask))
  <-> valid mask r c /\ valid mask (S r) c
      /\ valid mask (S r) (S c) /\ valid mask r (S c).
Proof. rewrite cells_In. apply facet_top_left_valid. Qed.

(** X10.  Called without a camera matrix, with a normal map and prior
    arrays of the shape of the mask, a solver that returns a vector as
    long as its starting point, and at least one iteration, the
    function returns; the facets are the quads of [construct_facets_from],
    one per 2 x 2 block of valid pixels in the row-major order of the
    top-left corners.  When the mean of the third channel over the whole
    normal map, the pixels outside the mask included, is negative, every
    quad is listed in the reverse direction: top-left, top-right,
    bottom-right, bottom-left instead of top-left, bottom-left,
    bottom-right, top-right.  A mean that is not a number leaves the
    direction as it is. *)
Theorem returned_facets
  (cg : coo -> vec -> vec -> nat -> num -> vec) (H W : nat)
  (normal_map : grid normal) (normal_mask : grid bool) (k lambda1 : num)
  (depth : option (grid num * grid bool))
  (step_size : num) (max_iter : nat) (tol : num) (cg_max_iter : nat)
  (cg_tol : num) :
  rect H W normal_map -> rect H W normal_mask -> prior_of_shape H W depth ->
  keeps_length cg ->
  0 < max_iter ->
  let reversed := nlt (mean (concat (channel channel2 normal_map))) (Num 0) in
  exists out,
    bilateral_normal_integration cg normal_map normal_mask k lambda1 depth
      None step_size max_iter tol cg_max_iter cg_tol = Ok out
    /\ out_facets out
       = map (fun p =>
                if reversed
                then [4; idx normal_mask p; idx normal_mask (shift_col p);
                      idx normal_mask (shift_row (shift_col p));
                      idx normal_mask (shift_row p)]
                else [4; idx normal_mask p; idx normal_mask (shift_row p);
                      idx normal_mask (shift_row (shift_col p));
                      idx normal_mask (shift_col p)])
           (cells (facet_top_left_mask normal_mask))
    /\ (forall r c,
          In (r, c) (cells (facet_top_left_mask normal_mask))
          <-> valid normal_mask r c /\ valid normal_mask (S r) c
              /\ valid normal_mask (S r) (S c) /\ valid normal_mask r (S c))
    /\ (mean (concat (channel channel2 normal_map)) = NaN -> reversed = false).
Proof.
  intros Hn Hm Hp _ Hpos. cbv zeta.
  rewrite (bni_outputs cg H W normal_map normal_mask k lambda1 depth
             step_size max_iter tol cg_max_iter cg_tol Hn Hm Hp Hpos).
  eexists. split; [reflexivity|]. cbn [out_facets].
  split; [|split; [intros r c; apply facet_cells|]].
  - rewrite (construct_facets_cells H W normal_mask Hm).
    destruct (nlt _ _); [|reflexivity].
    rewrite map_map. apply map_ext. intros p. apply reverse_winding_facet.
  - intros E. now rewrite E.
Qed.

Lemma returned_facets_witness :
  let cg := fun (_ : coo) (_ x0 : vec) (_ : nat) (_ : num) => x0 in
  let mask := [[true; true]; [true; true]] in
  let up := (Num 0, Num 0, Num 1) in
  (rect 2 2 [[up; up]; [up; up]] /\ rect 2 2 mask /\ prior_of_shape 2 2 None
   /\ keeps_length cg /\ 0 < 1)
  /\ exists out,
       bilateral_normal_integration cg [[up; up]; [up; up]] mask
         (Num 2) (Num 0) None None (Num 1) 1 (Num (1 / 10000)) 500
         (Num (1 / 100000)) = Ok out
       /\ length (out_facets out) = 1.
Proof.
  assert (Hn : rect 2 2 [[(Num 0, Num 0, Num 1); (Num 0, Num 0, Num 1)];
                         [(Num 0, Num 0, Num 1); (Num 0, Num 0, Num 1)]])
    by (split; [reflexivity | repeat constructor]).
  assert (Hm : rect 2 2 [[true; true]; [true; true]])
    by (split; [reflexivity | repeat constructor]).
  split; [conjs; try assumption; try exact I; try lia; exact (fun _ _ _ _ _ => eq_refl)|].
  destruct (returned_facets
              (fun (_ : coo) (_ x0 : vec) (_ : nat) (_ : num) => x0) 2 2
              [[(Num 0, Num 0, Num 1); (Num 0, Num 0, Num 1)];
               [(Num 0, Num 0, Num 1); (Num 0, Num 0, Num 1)]]
              [[true; true]; [true; true]] (Num 2) (Num 0) None
              (Num 1) 1 (Num (1 / 10000)) 500 (Num (1 / 100000)) Hn Hm I
              (fun _ _ _ _ _ => eq_refl)
              (Nat.lt_0_succ 0))
    as (out & Hout & Hf & _).
  exists out. split; [exact Hout|]. rewrite Hf. reflexivity.
Defined.

Lemma shifted_cells_distinct (p : nat * nat) :
  NoDup [p; shift_row p; shift_row (shift_col p); shift_col p].
Proof.
  destruct p as [r c]. unfold shift_row, shift_col. cbn [fst snd].
  repeat constructor; cbn [In]; intros E;
    repeat match goal with
      | E : _ \/ _ |- _ => destruct E as [E|E]
      | E : (_, _) = (_, _) |- _ => injection E; lia
      | E : False |- _ => contradiction
      end.
Qed.

(** X11.  Called without a camera matrix, with a normal map and prior
    arrays of the shape of the mask, a solver that returns a vector as
    long as its starting point, and at least one iteration, the
    function returns, and the vertices and the facets handed to
    [pv.PolyData] fit together: there is one vertex per valid pixel, and
    every facet is a row [4, a, b, c, d] of four different vertex numbers,
    all below the number of vertices, in both directions of listing. *)
Theorem returned_mesh
  (cg : coo -> vec -> vec -> nat -> num -> vec) (H W : nat)
  (normal_map : grid normal) (normal_mask : grid bool) (k lambda1 : num)
  (depth : option (grid num * grid bool))
  (step_size : num) (max_iter : nat) (tol : num) (cg_max_iter : nat)
  (cg_tol : num) :
  rect H W normal_map -> rect H W normal_mask -> prior_of_shape H W depth ->
  keeps_length cg ->
  0 < max_iter ->
  exists out,
    bilateral_normal_integration cg normal_map normal_mask k lambda1 depth
      None step_size max_iter tol cg_max_iter cg_tol = Ok out
    /\ let vertices := surface_vertices normal_mask None step_size out in
       length vertices = count normal_mask
       /\ forall f, In f (out_facets out) ->
            exists a b c d,
              f = [4; a; b; c; d]
              /\ a < length vertices /\ b < length vertices
              /\ c < length vertices /\ d < length vertices
              /\ NoDup [a; b; c; d].
Proof.
  intros Hn Hm Hp _ Hpos.
  rewrite (bni_outputs cg H W normal_map normal_mask k lambda1 depth
             step_size max_iter tol cg_max_iter cg_tol Hn Hm Hp Hpos).
  eexists. split; [reflexivity|]. cbv zeta. cbn [out_facets].
  match goal with
  | |- context [surface_vertices _ _ _ ?o] => set (out := o)
  end.
  assert (Hd : rect H W (out_depth_map out)).
  { unfold out. cbn [out_depth_map]. now apply assign_rect. }
  assert (Hlen : length (surface_vertices normal_mask None step_size out)
                 = count normal_mask).
  { unfold surface_vertices.
    apply (orthographic_vertex H W normal_mask _ step_size Hm Hd). }
  split; [exact Hlen|]. rewrite Hlen.
  rewrite (construct_facets_cells H W normal_mask Hm).
  intros f Hin.
  assert (Hcell : exists r c,
            In (r, c) (cells (facet_top_left_mask normal_mask))
            /\ (f = [4; idx normal_mask (r, c); idx normal_mask (S r, c);
                     idx normal_mask (S r, S c); idx normal_mask (r, S c)]
                \/ f = [4; idx normal_mask (r, c); idx normal_mask (r, S c);
                        idx normal_mask (S r, S c);
                        idx normal_mask (S r, c)])).
  { destruct (nlt _ _).
    - rewrite map_map in Hin. apply in_map_iff in Hin as [[r c] [Ef Hp']].
      exists r, c. split; [exact Hp' | right; now rewrite <- Ef].
    - apply in_map_iff in Hin as [[r c] [Ef Hp']].
      exists r, c. split; [exact Hp' | left; now rewrite <- Ef]. }
  destruct Hcell as (r & c & Hp' & Ef).
  pose proof (proj1 (facet_cells normal_mask r c) Hp') as (V1 & V2 & V3 & V4).
  pose proof (idx_lt normal_mask _ _ V1) as L1.
  pose proof (idx_lt normal_mask _ _ V2) as L2.
  pose proof (idx_lt normal_mask _ _ V3) as L3.
  pose proof (idx_lt normal_mask _ _ V4) as L4.
  assert (Hnd : NoDup (map (idx normal_mask)
                         [(r, c); shift_row (r, c);
                          shift_row (shift_col (r, c)); shift_col (r, c)])).
  { apply Injective_map_NoDup_in; [|apply shifted_cells_distinct].
    unfold shift_row, shift_col. cbn [fst snd].
    intros p q Hp'' Hq' E. apply (idx_inj normal_mask p q); auto.
    - cbn [In] in Hp''.
      destruct Hp'' as [<-|[<-|[<-|[<-|[]]]]]; now apply cells_In.
    - cbn [In] in Hq'.
      destruct Hq' as [<-|[<-|[<-|[<-|[]]]]]; now apply cells_In. }
  cbn [map] in Hnd. unfold shift_row, shift_col in Hnd. cbn [fst snd] in Hnd.
  destruct Ef as [-> | ->]; do 4 eexists; (split; [reflexivity|]); conjs;
    try assumption.
  inversion Hnd as [|? ? N1 Hnd1]; subst.
  inversion Hnd1 as [|? ? N2 Hnd2]; subst.
  inversion Hnd2 as [|? ? N3 Hnd3]; subst.
  cbn [In] in *. repeat constructor; cbn [In]; intuition congruence.
Qed.

Lemma returned_mesh_witness :
  let cg := fun (_ : coo) (_ x0 : vec) (_ : nat) (_ : num) => x0 in
  let mask := [[true; true]; [true; true]] in
  let up := (Num 0, Num 0, Num 1) in
  (rect 2 2 [[up; up]; [up; up]] /\ rect 2 2 mask /\ prior_of_shape 2 2 None
   /\ keeps_length cg /\ 0 < 1)
  /\ exists out,
       bilateral_normal_integration cg [[up; up]; [up; up]] mask
         (Num 2) (Num 0) None None (Num 1) 1 (Num (1 / 10000)) 500
         (Num (1 / 100000)) = Ok out
       /\ length (surface_vertices mask None (Num 1) out) = count mask.
Proof.
  assert (Hn : rect 2 2 [[(Num 0, Num 0, Num 1); (Num 0, Num 0, Num 1)];
                         [(Num 0, Num 0, Num 1); (Num 0, Num 0, Num 1)]])
    by (split; [reflexivity | repeat constructor]).
  assert (Hm : rect 2 2 [[true; true]; [true; true]])
    by (split; [reflexivity | repeat constructor]).
  split; [conjs; try assumption; try exact I; try lia; exact (fun _ _ _ _ _ => eq_refl)|].
  destruct (returned_mesh
              (fun (_ : coo) (_ x0 : vec) (_ : nat) (_ : num) => x0) 2 2
              [[(Num 0, Num 0, Num 1); (Num 0, Num 0, Num 1)];
               [(Num 0, Num 0, Num 1); (Num 0, Num 0, Num 1)]]
              [[true; true]; [true; true]] (Num 2) (Num 0) None
              (Num 1) 1 (Num (1 / 10000)) 500 (Num (1 / 100000)) Hn Hm I
              (fun _ _ _ _ _ => eq_refl)
              (Nat.lt_0_succ 0))
    as (out & Hout & Hlen & _).
  exists out. split; [exact Hout | exact Hlen].
Defined.

(** ** The sigmoid and the weights *)

Lemma sigmoid_nan_l (k : num) : sigmoid NaN k = NaN.
Proof. destruct k; reflexivity. Qed.

Lemma sigmoid_nan_r (x : num) : sigmoid x NaN = NaN.
Proof. destruct x; reflexivity. Qed.

Lemma sigmoid_half_iff (t : R) :
  (1 / 2 < 1 / (1 + exp (- t)) <-> 0 < t)%R
  /\ (1 / (1 + exp (- t)) = 1 / 2 <-> t = 0)%R
  /\ (1 / (1 + exp (- t)) < 1 / 2 <-> t < 0)%R.
Proof.
  pose proof (exp_pos (- t)) as He.
  assert (Hlt : (0 < t -> exp (- t) < 1)%R).
  { intros Ht. rewrite <- exp_0. apply exp_increasing. lra. }
  assert (Hgt : (t < 0 -> 1 < exp (- t))%R).
  { intros Ht. rewrite <- exp_0. apply exp_increasing. lra. }
  assert (Heq : (t = 0 -> exp (- t) = 1)%R).
  { intros ->. rewrite Ropp_0. apply exp_0. }
  set (e := exp (- t)) in *.
  assert (E : (1 / (1 + e) - 1 / 2 = (1 - e) * / (2 * (1 + e)))%R)
    by (field; lra).
  assert (Hd : (0 < / (2 * (1 + e)))%R) by (apply Rinv_0_lt_compat; lra).
  assert (W1 : (1 / 2 < 1 / (1 + e) <-> e < 1)%R) by (split; intros Hx; nra).
  assert (W2 : (1 / (1 + e) = 1 / 2 <-> e = 1)%R) by (split; intros Hx; nra).
  assert (W3 : (1 / (1 + e) < 1 / 2 <-> 1 < e)%R) by (split; intros Hx; nra).
  rewrite W1, W2, W3.
  destruct (Rtotal_order t 0) as [Ht|[Ht|Ht]].
  - specialize (Hgt Ht). repeat split; intros Hx; lra.
  - specialize (Heq Ht). repeat split; intros Hx; lra.
  - specialize (Hlt Ht). repeat split; intros Hx; lra.
Qed.

(** X12.  [sigmoid(x, k)] of two numbers is a number in [0, 1].  It is
    1/2 at x = 0 and for k = 0, at least 1/2 when k * x >= 0 and at most
    1/2 when k * x <= 0, satisfies sigmoid(x, k) + sigmoid(-x, k) = 1, and
    does not decrease with x when k >= 0; with a NaN argument it is
    NaN. *)
Theorem sigmoid_properties (x k : R) :
  (exists w : R, sigmoid (Num x) (Num k) = Num w
     /\ (0 <= w <= 1)%R
     /\ (0 <= k * x -> 1 / 2 <= w)%R /\ (k * x <= 0 -> w <= 1 / 2)%R)
  /\ sigmoid (Num 0) (Num k) = Num (1 / 2)
  /\ sigmoid (Num x) (Num 0) = Num (1 / 2)
  /\ nadd (sigmoid (Num x) (Num k)) (sigmoid (Num (- x)) (Num k)) = Num 1
  /\ (forall y : R, (0 <= k)%R -> (x <= y)%R ->
        exists a b : R,
          sigmoid (Num x) (Num k) = Num a /\ sigmoid (Num y) (Num k) = Num b
          /\ (a <= b)%R)
  /\ sigmoid NaN (Num k) = NaN /\ sigmoid (Num x) NaN = NaN.
Proof.
  conjs.
  - exists (1 / (1 + exp (- k * x)))%R. split; [apply sigmoid_num|].
    pose proof (sigmoid_range x k) as Hr.
    split; [lra|].
    replace (- k * x)%R with (- (k * x))%R by ring.
    destruct (sigmoid_half_iff (k * x)) as (Hgt & Heq & Hlt).
    split; intros Hx.
    + destruct (Rle_lt_or_eq_dec _ _ Hx) as [Hp|Hz].
      * apply Hgt in Hp. lra.
      * symmetry in Hz. apply Heq in Hz. lra.
    + destruct (Rle_lt_or_eq_dec _ _ Hx) as [Hp|Hz].
      * apply Hlt in Hp. lra.
      * apply Heq in Hz. lra.
  - rewrite sigmoid_num. f_equal.
    replace (- k * 0)%R with 0%R by ring. rewrite exp_0. lra.
  - rewrite sigmoid_num. f_equal.
    replace (- 0 * x)%R with 0%R by ring. rewrite exp_0. lra.
  - rewrite !sigmoid_num. cbn [nadd lift2]. f_equal.
    replace (- k * - x)%R with (- (- k * x))%R by ring.
    rewrite exp_Ropp.
    pose proof (exp_pos (- k * x)) as He.
    field. split; lra.
  - intros y Hk Hxy. do 2 eexists.
    split; [apply sigmoid_num|]. split; [apply sigmoid_num|].
    assert (He : (exp (- k * y) <= exp (- k * x))%R).
    { destruct (Req_dec (- k * y) (- k * x)) as [E|N]; [rewrite E; lra|].
      left. apply exp_increasing. nra. }
    pose proof (exp_pos (- k * y)) as Hy.
    unfold Rdiv. rewrite !Rmult_1_l.
    apply Rinv_le_contravar; lra.
  - reflexivity.
  - reflexivity.
Qed.




Lemma sigmoid_zero_k (xs : vec) :
  numeric_vec xs ->
  map (fun x => sigmoid x (Num 0)) xs = repeat (Num (1 / 2)) (length xs).
Proof.
  intros Hx; induction Hx as [|a t Ha Ht IH]; [reflexivity|].
  cbn [map length repeat]. rewrite IH. f_equal.
  apply is_num_inv in Ha as [x ->]. rewrite sigmoid_num. f_equal.
  replace (- 0 * x)%R with 0%R by ring. rewrite exp_0. lra.
Qed.

Lemma scalar_sub_half (n : nat) :
  scalar_sub (Num 1) (repeat (Num (1 / 2)) n) = repeat (Num (1 / 2)) n.
Proof.
  induction n as [|n IH]; [reflexivity|].
  cbn [repeat scalar_sub map] in *. unfold scalar_sub in IH. rewrite IH.
  f_equal. cbn [nsub lift2]. f_equal. lra.
Qed.

(** X14.  With k = 0 the bilateral weighting is switched off: whenever the
    new [z] consists of numbers, an iteration computes [wu] and [wv] as
    1/2 everywhere, and [W] has the diagonal of the initial weight
    matrix, 1/2 in all 4N places. *)
Theorem zero_k_weights
  (cg : coo -> vec -> vec -> nat -> num -> vec) (H W : nat)
  (normal_map : grid normal) (normal_mask : grid bool)
  (K : option (grid num)) (s : R) (depth_prior : option prior)
  (lambda1 cg_tol : num) (cg_max_iter : nat) (st : state) :
  rect H W normal_map -> rect H W normal_mask ->
  Forall (Forall numeric_normal) normal_map -> numeric_camera K ->
  s <> 0%R ->
  let sys := assemble normal_map normal_mask K (Num s) in
  let N := count normal_mask in
  let st' :=
    iteration cg sys depth_prior (Num 0) lambda1 cg_tol cg_max_iter st in
  numeric_vec (st_z st') ->
  st_wu st' = Some (repeat (Num (1 / 2)) N)
  /\ st_wv st' = Some (repeat (Num (1 / 2)) N)
  /\ diagonal (st_W st') = repeat (Num (1 / 2)) (4 * N)
  /\ diagonal (st_W st') = diagonal (st_W (initial_state sys normal_mask)).
Proof.
  intros Hm Hk Hnum HK Hs sys N st' Hz.
  destruct (assemble_nrows H W normal_map normal_mask K (Num s) Hm Hk)
    as (N1 & N2 & N3 & N4).
  destruct (assemble_numeric normal_map normal_mask K s Hnum HK Hs)
    as (A1 & A2 & A3 & A4).
  fold sys in N1, N2, N3, N4, A1, A2, A3, A4.
  set (z := st_z st') in *.
  assert (Ez : solve cg sys depth_prior lambda1 cg_tol cg_max_iter (st_W st)
                 (st_z st) = z) by reflexivity.
  assert (Eu : update_wu sys z (Num 0) = repeat (Num (1 / 2)) N).
  { unfold update_wu. rewrite sigmoid_zero_k.
    - f_equal. unfold vsub, vsq.
      rewrite map2_length, !length_map, !matvec_length, N1, N2.
      apply Nat.min_id.
    - unfold vsub, nsub. apply map2_numeric;
        apply map_numeric; try (now apply matvec_numeric);
        intros a Ha; now apply lift2_is_num. }
  assert (Ev : update_wv sys z (Num 0) = repeat (Num (1 / 2)) N).
  { unfold update_wv. rewrite sigmoid_zero_k.
    - f_equal. unfold vsub, vsq.
      rewrite map2_length, !length_map, !matvec_length, N3, N4.
      apply Nat.min_id.
    - unfold vsub, nsub. apply map2_numeric;
        apply map_numeric; try (now apply matvec_numeric);
        intros a Ha; now apply lift2_is_num. }
  assert (EW : diagonal (st_W st') = repeat (Num (1 / 2)) (4 * N)).
  { unfold st', iteration. cbn [st_W]. rewrite diagonal_diags.
    rewrite Ez, Eu, Ev. unfold weight_vector.
    rewrite !scalar_sub_half, <- !repeat_app. f_equal. lia. }
  conjs.
  - unfold st', iteration. cbn [st_wu]. now rewrite Ez, Eu.
  - unfold st', iteration. cbn [st_wv]. now rewrite Ez, Ev.
  - exact EW.
  - rewrite EW, initial_weights. unfold sys, N.
    now rewrite (assemble_b_length H W).
Qed.

Lemma zero_k_weights_witness :
  let normal_map := [[(Num 0, Num 0, Num (-1))]; [(Num 0, Num 0, Num (-1))]] in
  let mask := [[true]; [true]] in
  let sys := assemble normal_map mask None (Num 1) in
  let cg := fun (_ : coo) (_ x0 : vec) (_ : nat) (_ : num) => x0 in
  let st' := iteration cg sys None (Num 0) (Num 0) (Num 0) 0
               (initial_state sys mask) in
  (rect 2 1 normal_map /\ rect 2 1 mask
   /\ Forall (Forall numeric_normal) normal_map /\ numeric_camera None
   /\ 1%R <> 0%R /\ numeric_vec (st_z st'))
  /\ diagonal (st_W st') = repeat (Num (1 / 2)) (4 * count mask).
Proof.
  assert (Hn : rect 2 1 [[(Num 0, Num 0, Num (-1))];
                         [(Num 0, Num 0, Num (-1))]])
    by (split; [reflexivity | repeat constructor]).
  assert (Hm : rect 2 1 [[true]; [true]])
    by (split; [reflexivity | repeat constructor]).
  assert (Hnum : Forall (Forall numeric_normal)
                   [[(Num 0, Num 0, Num (-1))]; [(Num 0, Num 0, Num (-1))]])
    by (repeat constructor).
  assert (Hs : 1%R <> 0%R) by lra.
  assert (Hz : numeric_vec
                 (st_z (iteration
                          (fun (_ : coo) (_ x0 : vec) (_ : nat) (_ : num) => x0)
                          (assemble [[(Num 0, Num 0, Num (-1))];
                                     [(Num 0, Num 0, Num (-1))]]
                             [[true]; [true]] None (Num 1))
                          None (Num 0) (Num 0) (Num 0) 0
                          (initial_state
                             (assemble [[(Num 0, Num 0, Num (-1))];
                                        [(Num 0, Num 0, Num (-1))]]
                                [[true]; [true]] None (Num 1))
                             [[true]; [true]]))))
    by (repeat constructor).
  split; [conjs; try assumption; exact I|].
  exact (proj1 (proj2 (proj2
           (zero_k_weights
              (fun (_ : coo) (_ x0 : vec) (_ : nat) (_ : num) => x0) 2 1 _ _
              None 1 None (Num 0) (Num 0) 0 _ Hn Hm Hnum I Hs Hz)))).
Defined.

(** ** The energy *)

Lemma transpose_diags (v : vec) : transpose (diags v) = diags v.
Proof.
  unfold transpose, diags, ncols, nrows. cbn [shape entries fst snd].
  f_equal. rewrite map_map. apply map_ext. now intros [i x].
Qed.

Lemma combine_map_r {A B C : Type} (f : B -> C) (l : list A) (l' : list B) :
  combine l (map f l') = map (fun p => (fst p, f (snd p))) (combine l l').
Proof.
  revert l'; induction l as [|a l IH]; intros [|b l']; try reflexivity.
  cbn [map combine fst snd]. now rewrite IH.
Qed.

Lemma sp_scale_diags (s : num) (v : vec) :
  sp_scale s (diags v) = diags (map (nmul s) v).
Proof.
  unfold sp_scale, map_values, diags. cbn [shape entries].
  rewrite length_map. f_equal.
  rewrite combine_map_r, !map_map. apply map_ext. now intros [i x].
Qed.

Lemma not_negative_nadd (a b : num) :
  not_negative a -> not_negative b -> not_negative (nadd a b).
Proof. destruct a, b; cbn; auto. lra. Qed.

Lemma not_negative_nsum (l : vec) :
  Forall not_negative l -> not_negative (nsum l).
Proof.
  intros Hl; induction Hl as [|a t Ha Ht IH]; cbn [nsum fold_right].
  - cbn. lra.
  - now apply not_negative_nadd.
Qed.

Lemma not_negative_weighted_square (w r : num) :
  not_negative w -> not_negative (nmul (nadd (nmul w r) (Num 0)) r).
Proof. destruct w, r; cbn; auto. intros Hw. nra. Qed.

(** The energy with a diagonal weight matrix is a sum of weighted
    squares. *)
Lemma quadratic_energy_diags (A : coo) (b w z : vec) :
  let r := vsub (matvec A z) b in
  quadratic_energy A b (diags w) z
  = nsum (map2 nmul
            (map (fun i => nadd (nmul (nth i w NaN) (nth i r (Num 0))) (Num 0))
               (seq 0 (length w)))
            r).
Proof.
  cbv zeta. unfold quadratic_energy, dot, vecmat, vmul.
  now rewrite transpose_diags, matvec_diags.
Qed.

Lemma not_negative_energy (A : coo) (b w z : vec) :
  Forall not_negative w -> not_negative (quadratic_energy A b (diags w) z).
Proof.
  intros Hw. rewrite quadratic_energy_diags. cbv zeta.
  set (r := vsub (matvec A z) b).
  apply not_negative_nsum. apply Forall_forall. intros x Hx.
  destruct (In_nth _ _ NaN Hx) as (j & Hj & <-).
  rewrite map2_length, length_map, length_seq in Hj.
  rewrite (map2_nth _ _ _ _ NaN (Num 0) NaN)
    by (rewrite ?length_map, ?length_seq; lia).
  rewrite (nth_map_lt _ _ j 0 NaN) by (rewrite length_seq; lia).
  rewrite seq_nth by lia. cbn [Nat.add].
  apply not_negative_weighted_square.
  rewrite Forall_forall in Hw. apply Hw, nth_In. lia.
Qed.

Lemma not_negative_sigmoid (x k : num) :
  not_negative (sigmoid x k) /\ not_negative (nsub (Num 1) (sigmoid x k)).
Proof.
  destruct x as [x|], k as [k|];
    try (rewrite ?sigmoid_nan_l, ?sigmoid_nan_r; split; exact I).
  rewrite sigmoid_num. pose proof (sigmoid_range x k) as Hr.
  split; cbn; lra.
Qed.

Lemma not_negative_weights (xs ys : vec) (k : num) :
  Forall not_negative
    (weight_vector (map (fun x => sigmoid x k) xs)
       (map (fun y => sigmoid y k) ys)).
Proof.
  unfold weight_vector, scalar_sub. rewrite !map_map.
  repeat (apply Forall_app; split); apply Forall_forall; intros a Ha;
    apply in_map_iff in Ha as [x [<- _]]; apply not_negative_sigmoid.
Qed.

Lemma not_negative_initial_energy (sys : linear_system)
  (normal_mask : grid bool) :
  not_negative (st_energy (initial_state sys normal_mask)).
Proof.
  unfold initial_state. cbn [st_energy]. rewrite sp_scale_diags.
  apply not_negative_energy. rewrite map_map.
  apply Forall_forall. intros a Ha. apply in_map_iff in Ha as [x [<- _]].
  cbn. lra.
Qed.

Section Energy.

Variable cg : coo -> vec -> vec -> nat -> num -> vec.
Variable sys : linear_system.
Variable depth_prior : option prior.
Variables k lambda1 tol cg_tol : num.
Variable cg_max_iter : nat.

Lemma not_negative_iteration (st : state) :
  not_negative
    (st_energy (iteration cg sys depth_prior k lambda1 cg_tol cg_max_iter st)).
Proof.
  unfold iteration. cbn [st_energy].
  apply not_negative_energy. apply not_negative_weights.
Qed.

Lemma not_negative_run (st0 : state) (n : nat) :
  not_negative (st_energy st0) ->
  not_negative
    (st_energy (run cg sys depth_prior k lambda1 cg_tol cg_max_iter st0 n)).
Proof.
  intros H0. destruct n as [|n]; [exact H0|].
  unfold run. rewrite Nat.iter_succ. apply not_negative_iteration.
Qed.

(** A tolerance that is not a positive number is never undercut. *)
Lemma below_tol_positive (st0 : state) (j : nat) :
  not_negative (st_energy st0) ->
  below_tol cg sys depth_prior k lambda1 tol cg_tol cg_max_iter st0 j = true ->
  nlt (Num 0) tol = true.
Proof.
  intros H0 Hb. unfold below_tol in Hb.
  apply nlt_relative_energy in Hb
    as (x & y & r & Ex & Ey & Et & Hy & Hlt).
  pose proof (not_negative_run st0 j H0) as Hn. rewrite Ey in Hn.
  cbn in Hn. subst tol. cbn [nlt].
  assert (Hpos : (0 < y)%R) by lra.
  assert (Hq : (0 <= Rabs (x - y) / y)%R).
  { apply Rmult_le_pos; [apply Rabs_pos|].
    left. now apply Rinv_0_lt_compat. }
  destruct (Rlt_dec 0 r); [reflexivity | lra].
Qed.

End Energy.

(** X15.  No energy is a negative number.  Called without a camera
    matrix, with a normal map and prior arrays of the shape of the mask, a
    solver that returns a vector as long as its starting point, and at
    least one iteration, the function returns, and the initial energy and
    every entry of the returned energy list is a number >= 0 or NaN. *)
Theorem energy_never_negative
  (cg : coo -> vec -> vec -> nat -> num -> vec) (H W : nat)
  (normal_map : grid normal) (normal_mask : grid bool) (k lambda1 : num)
  (depth : option (grid num * grid bool))
  (step_size : num) (max_iter : nat) (tol : num) (cg_max_iter : nat)
  (cg_tol : num) :
  rect H W normal_map -> rect H W normal_mask -> prior_of_shape H W depth ->
  keeps_length cg ->
  0 < max_iter ->
  not_negative
    (st_energy
       (initial_state (assemble normal_map normal_mask None step_size)
          normal_mask))
  /\ exists out,
       bilateral_normal_integration cg normal_map normal_mask k lambda1
         depth None step_size max_iter tol cg_max_iter cg_tol = Ok out
       /\ Forall not_negative (out_energy_list out).
Proof.
  intros Hn Hm Hp _ Hpos.
  split; [apply not_negative_initial_energy|].
  rewrite (bni_outputs cg H W normal_map normal_mask k lambda1 depth
             step_size max_iter tol cg_max_iter cg_tol Hn Hm Hp Hpos).
  eexists. split; [reflexivity|]. cbn [out_energy_list].
  set (sys := assemble normal_map normal_mask None step_size).
  set (depth_prior := prior_of normal_mask None depth).
  set (st0 := initial_state sys normal_mask).
  destruct (irls_trace cg sys depth_prior k lambda1 tol cg_tol cg_max_iter
              max_iter st0) as (n & _ & Hrun & Hlist & _).
  rewrite Hrun, Hlist. change (st_energy_list st0) with (@nil num).
  cbn [app]. apply Forall_forall. intros e He.
  apply in_map_iff in He as [j [<- _]].
  apply not_negative_run, not_negative_initial_energy.
Qed.

Lemma energy_never_negative_witness :
  let cg := fun (_ : coo) (_ x0 : vec) (_ : nat) (_ : num) => x0 in
  (rect 1 1 [[(Num 0, Num 1, Num 0)]] /\ rect 1 1 [[true]]
   /\ prior_of_shape 1 1 None /\ keeps_length cg /\ 0 < 3)
  /\ exists out,
       bilateral_normal_integration cg [[(Num 0, Num 1, Num 0)]] [[true]]
         (Num 2) (Num 0) None None (Num 1) 3 (Num (1 / 10000)) 500
         (Num (1 / 100000)) = Ok out
       /\ Forall not_negative (out_energy_list out).
Proof.
  assert (Hn : rect 1 1 [[(Num 0, Num 1, Num 0)]])
    by (split; [reflexivity | repeat constructor]).
  assert (Hm : rect 1 1 [[true]])
    by (split; [reflexivity | repeat constructor]).
  split; [conjs; try assumption; try exact I; try lia; exact (fun _ _ _ _ _ => eq_refl)|].
  exact (proj2 (energy_never_negative
                  (fun (_ : coo) (_ x0 : vec) (_ : nat) (_ : num) => x0) 1 1
                  [[(Num 0, Num 1, Num 0)]] [[true]] (Num 2) (Num 0) None
                  (Num 1) 3 (Num (1 / 10000)) 500 (Num (1 / 100000)) Hn Hm I
              (fun _ _ _ _ _ => eq_refl)
                  ltac:(lia))).
Defined.

(** X16.  A tolerance that is not a positive number (zero, negative or
    NaN) never stops the loop.  Called without a camera matrix, with a
    normal map and prior arrays of the shape of the mask and a solver that
    returns a vector as long as its starting point, the loop is left
    with [range(max_iter)] used up, after exactly [max_iter] iterations;
    with at least one iteration the function returns an energy list of
    [max_iter] entries. *)
Theorem nonpositive_tol_runs_all
  (cg : coo -> vec -> vec -> nat -> num -> vec) (H W : nat)
  (normal_map : grid normal) (normal_mask : grid bool) (k lambda1 : num)
  (depth : option (grid num * grid bool))
  (step_size : num) (max_iter : nat) (tol : num) (cg_max_iter : nat)
  (cg_tol : num) :
  rect H W normal_map -> rect H W normal_mask -> prior_of_shape H W depth ->
  keeps_length cg ->
  nlt (Num 0) tol = false ->
  let sys := assemble normal_map normal_mask None step_size in
  let st0 := initial_state sys normal_mask in
  let depth_prior := prior_of normal_mask None depth in
  let loop :=
    irls cg sys depth_prior k lambda1 tol cg_tol cg_max_iter max_iter st0 in
  snd loop = Exhausted
  /\ fst loop
     = run cg sys depth_prior k lambda1 cg_tol cg_max_iter st0 max_iter
  /\ (0 < max_iter ->
      exists out,
        bilateral_normal_integration cg normal_map normal_mask k lambda1
          depth None step_size max_iter tol cg_max_iter cg_tol = Ok out
        /\ length (out_energy_list out) = max_iter).
Proof.
  intros Hn Hm Hp _ Htol sys st0 depth_prior loop.
  destruct (irls_trace cg sys depth_prior k lambda1 tol cg_tol cg_max_iter
              max_iter st0) as (n & _ & Hrun & Hlist & _ & Hexit).
  fold loop in Hrun, Hexit.
  assert (Hex : snd loop = Exhausted /\ n = max_iter).
  { destruct Hexit as [(_ & _ & Hb)|(He & Hn' & _)]; [|now split].
    apply below_tol_positive in Hb;
      [congruence | apply not_negative_initial_energy]. }
  destruct Hex as [He Hn']. subst n.
  split; [exact He|]. split; [exact Hrun|].
  intros Hpos.
  rewrite (bni_outputs cg H W normal_map normal_mask k lambda1 depth
             step_size max_iter tol cg_max_iter cg_tol Hn Hm Hp Hpos).
  eexists. split; [reflexivity|].
  cbn [out_energy_list]. fold sys. fold st0. fold depth_prior. fold loop.
  rewrite Hrun, Hlist. change (st_energy_list st0) with (@nil num).
  cbn [app]. now rewrite length_map, length_seq.
Qed.

Lemma nonpositive_tol_runs_all_witness :
  let cg := fun (_ : coo) (_ x0 : vec) (_ : nat) (_ : num) => x0 in
  let sys := assemble [[(Num 0, Num 1, Num 0)]] [[true]] None (Num 1) in
  (rect 1 1 [[(Num 0, Num 1, Num 0)]] /\ rect 1 1 [[true]]
   /\ prior_of_shape 1 1 None /\ keeps_length cg
   /\ nlt (Num 0) (Num 0) = false)
  /\ snd (irls cg sys None (Num 2) (Num 0) (Num 0) (Num 0) 0 3
            (initial_state sys [[true]])) = Exhausted
  /\ exists out,
       bilateral_normal_integration cg [[(Num 0, Num 1, Num 0)]] [[true]]
         (Num 2) (Num 0) None None (Num 1) 3 (Num 0) 0 (Num 0) = Ok out
       /\ length (out_energy_list out) = 3.
Proof.
  assert (Hn : rect 1 1 [[(Num 0, Num 1, Num 0)]])
    by (split; [reflexivity | repeat constructor]).
  assert (Hm : rect 1 1 [[true]])
    by (split; [reflexivity | repeat constructor]).
  assert (Ht : nlt (Num 0) (Num 0) = false).
  { cbn. destruct (Rlt_dec 0 0); [lra | reflexivity]. }
  split; [conjs; try assumption; try exact I; exact (fun _ _ _ _ _ => eq_refl)|].
  destruct (nonpositive_tol_runs_all
              (fun (_ : coo) (_ x0 : vec) (_ : nat) (_ : num) => x0) 1 1
              [[(Num 0, Num 1, Num 0)]] [[true]] (Num 2) (Num 0) None
              (Num 1) 3 (Num 0) 0 (Num 0) Hn Hm I
              (fun _ _ _ _ _ => eq_refl) Ht) as (He & _ & Hret).
  split; [exact He|]. apply Hret. lia.
Defined.

(** ** The difference operators as a whole *)

Lemma row_dot_sp_div (D : coo) (s : num) (i : nat) (z : vec) :
  row_dot (sp_div D s) i z
  = nsum (map (fun e => nmul (ndiv (entry_val e) s)
                          (nth (entry_col e) z (Num 0)))
            (row_entries D i)).
Proof.
  unfold row_dot. rewrite row_entries_sp_div, map_map. reflexivity.
Qed.

(** X17.  The forward and the backward operator of an axis hold the same
    differences: for two valid pixels next to each other in a row, the
    horizontal positive operator at the left pixel and the horizontal
    negative operator at the right pixel give the same entry of [D @ z],
    and for two valid pixels on top of each other the vertical positive
    operator at the lower pixel and the vertical negative operator at the
    upper pixel do; for numbers it is the neighbour's value minus the
    left (or lower) pixel's value, over the step size. *)
Theorem one_sided_operators_share_edges (H W : nat) (mask : grid bool)
  (step_size : num) (z : vec) (r c : nat) :
  rect H W mask -> valid mask r c ->
  match generate_dx_dy mask step_size with
  | (Dhp, Dhn, Dvp, Dvn) =>
      (valid mask r (S c) ->
       nth (idx mask (r, c)) (matvec Dhp z) NaN
       = nth (idx mask (r, S c)) (matvec Dhn z) NaN
       /\ forall s x0 x1 : R,
            step_size = Num s -> s <> 0%R ->
            nth (idx mask (r, c)) z (Num 0) = Num x0 ->
            nth (idx mask (r, S c)) z (Num 0) = Num x1 ->
            nth (idx mask (r, c)) (matvec Dhp z) NaN = Num ((x1 - x0) / s))
      /\ (valid mask (S r) c ->
          nth (idx mask (S r, c)) (matvec Dvp z) NaN
          = nth (idx mask (r, c)) (matvec Dvn z) NaN
          /\ forall s x0 x1 : R,
               step_size = Num s -> s <> 0%R ->
               nth (idx mask (S r, c)) z (Num 0) = Num x0 ->
               nth (idx mask (r, c)) z (Num 0) = Num x1 ->
               nth (idx mask (S r, c)) (matvec Dvp z) NaN
               = Num ((x1 - x0) / s))
  end.
Proof.
  intros Hm Hv. rewrite generate_dx_dy_blocks. cbv beta iota.
  pose proof (idx_lt mask r c Hv) as Hi.
  split.
  - intros Hv'. pose proof (idx_lt mask r (S c) Hv') as Hi'.
    pose proof (D_horizontal_pos_row H W mask Hm r c Hv) as Rp.
    pose proof (D_horizontal_neg_row H W mask Hm r (S c) Hv') as Rn.
    cbv beta iota in Rn. unfold valid in Hv, Hv'.
    rewrite Hv' in Rp. rewrite Hv in Rn.
    rewrite !nth_matvec by assumption. split.
    + rewrite !row_dot_sp_div, Rp, Rn. reflexivity.
    + intros s x0 x1 -> Hs E0 E1.
      now apply (row_dot_pair _ z _ _ _ s Hs Rp).
  - intros Hv'. pose proof (idx_lt mask (S r) c Hv') as Hi'.
    pose proof (D_vertical_pos_row H W mask Hm (S r) c Hv') as Rp.
    pose proof (D_vertical_neg_row H W mask Hm r c Hv) as Rn.
    cbv beta iota in Rp. unfold valid in Hv, Hv'.
    rewrite Hv in Rp. rewrite Hv' in Rn.
    rewrite !nth_matvec by assumption. split.
    + rewrite !row_dot_sp_div, Rp, Rn. reflexivity.
    + intros s x0 x1 -> Hs E0 E1.
      now apply (row_dot_pair _ z _ _ _ s Hs Rp).
Qed.

Lemma one_sided_operators_share_edges_witness :
  let mask := [[true; true]] in
  let z := [Num 1; Num 4] in
  (rect 1 2 mask /\ valid mask 0 0 /\ valid mask 0 1)
  /\ nth (idx mask (0, 0))
       (matvec (sp_div (D_horizontal_pos mask) (Num 1)) z) NaN
     = nth (idx mask (0, 1))
         (matvec (sp_div (D_horizontal_neg mask) (Num 1)) z) NaN.
Proof.
  assert (Hm : rect 1 2 [[true; true]])
    by (split; [reflexivity | repeat constructor]).
  split; [conjs; [exact Hm | reflexivity | reflexivity]|].
  exact (proj1 (proj1 (one_sided_operators_share_edges 1 2 [[true; true]]
                         (Num 1) [Num 1; Num 4] 0 0 Hm eq_refl)
                  eq_refl)).
Defined.








(** ** The initial energy *)

Lemma numeric_vec_reals (v : vec) :
  numeric_vec v -> exists l : list R, v = map Num l.
Proof.
  intros Hv; induction Hv as [|a t Ha Ht [l ->]].
  - now exists [].
  - apply is_num_inv in Ha as [x ->]. now exists (x :: l).
Qed.

Lemma row_dot_zeros (A : coo) (i n : nat) :
  numeric_coo A -> row_dot A i (repeat (Num 0) n) = Num 0.
Proof.
  intros HA. unfold row_dot, row_entries. unfold numeric_coo in HA.
  induction HA as [|e t He Ht IH]; [reflexivity|].
  cbn [filter]. destruct (entry_row e =? i); [|exact IH].
  cbn [map nsum fold_right]. unfold nsum in IH. rewrite IH.
  apply is_num_inv in He as [x ->]. rewrite nth_repeat_same.
  cbn. f_equal. ring.
Qed.

Lemma matvec_zeros (A : coo) (n : nat) :
  numeric_coo A -> matvec A (repeat (Num 0) n) = repeat (Num 0) (nrows A).
Proof.
  intros HA. unfold matvec.
  rewrite (map_ext _ (fun _ => Num 0))
    by (intros i; now apply row_dot_zeros).
  generalize 0 at 1. induction (nrows A) as [|m IH]; intros start;
    [reflexivity|].
  cbn [seq map repeat]. now rewrite IH.
Qed.

Lemma Rsum_app (l1 l2 : list R) : Rsum (l1 ++ l2) = (Rsum l1 + Rsum l2)%R.
Proof.
  induction l1 as [|x l1 IH]; cbn [app Rsum fold_right].
  - unfold Rsum. cbn. ring.
  - unfold Rsum in *. rewrite IH. ring.
Qed.

Lemma map_seq_map2 {A B C : Type} (f : A -> B -> C) (d1 : A) (d2 : B)
  (l1 : list A) (l2 : list B) :
  length l1 = length l2 ->
  map (fun i => f (nth i l1 d1) (nth i l2 d2)) (seq 0 (length l1))
  = map2 f l1 l2.
Proof.
  revert l2; induction l1 as [|a l1 IH]; intros [|b l2] Hl;
    try discriminate; [reflexivity|].
  cbn [length seq map nth map2]. f_equal.
  rewrite <- seq_shift, map_map. apply IH. now injection Hl.
Qed.

Lemma weighted_squares (ws rs : list R) :
  nsum (map2 nmul
          (map2 (fun w r => nadd (nmul w r) (Num 0)) (map Num ws) (map Num rs))
          (map Num rs))
  = Num (Rsum (map2 (fun w r => (w * r + 0) * r)%R ws rs)).
Proof.
  revert rs; induction ws as [|w ws IH]; intros [|r rs]; try reflexivity.
  cbn [map map2 nsum fold_right Rsum]. unfold nsum, Rsum in IH.
  now rewrite IH.
Qed.

Lemma residual_of_zeros (bs : list R) :
  vsub (repeat (Num 0) (length bs)) (map Num bs)
  = map Num (map (fun x => 0 - x)%R bs).
Proof.
  unfold vsub. induction bs as [|x bs IH]; [reflexivity|].
  cbn [length repeat map map2]. now rewrite IH.
Qed.

Lemma half_squares (bs : list R) :
  Rsum (map2 (fun w r => (w * r + 0) * r)%R
          (map (fun _ => 1 / 2 * 1)%R bs) (map (fun x => 0 - x)%R bs))
  = (Rsum (map (fun x => x * x) bs) / 2)%R.
Proof.
  induction bs as [|x bs IH]; [unfold Rsum; cbn; field|].
  cbn [map map2 Rsum fold_right]. unfold Rsum in IH. rewrite IH. field.
Qed.

Lemma squares_opp (xs : list R) :
  Rsum (map (fun x => x * x)%R (map Ropp xs))
  = Rsum (map (fun x => x * x)%R xs).
Proof.
  induction xs as [|x xs IH]; [reflexivity|].
  cbn [map Rsum fold_right]. unfold Rsum in IH. rewrite IH. ring.
Qed.

Lemma vneg_map_Num (xs : list R) : vneg (map Num xs) = map Num (map Ropp xs).
Proof. unfold vneg. rewrite !map_map. reflexivity. Qed.

Lemma repeat_app_4 {A : Type} (x : A) (n : nat) :
  repeat x n ++ repeat x n ++ repeat x n ++ repeat x n ++ []
  = repeat x (4 * n).
Proof.
  rewrite app_nil_r, <- !repeat_app. f_equal. lia.
Qed.

Lemma initial_energy_value (H W : nat) (normal_map : grid normal)
  (normal_mask : grid bool) (K : option (grid num)) (s : R)
  (xs ys : list R) :
  rect H W normal_map -> rect H W normal_mask ->
  Forall (Forall numeric_normal) normal_map -> numeric_camera K ->
  s <> 0%R ->
  let sys := assemble normal_map normal_mask K (Num s) in
  sys_nx sys = map Num xs -> sys_ny sys = map Num ys ->
  st_energy (initial_state sys normal_mask)
  = Num (Rsum (map (fun x => x * x) xs) + Rsum (map (fun y => y * y) ys))%R.
Proof.
  intros Hn Hm Hnum HK Hs sys Ex Ey.
  destruct (normals_at_pixels H W normal_map normal_mask K (Num s) Hn Hm)
    as [(Lx & Ly & _) _].
  fold sys in Lx, Ly. rewrite Ex in Lx. rewrite Ey in Ly.
  rewrite length_map in Lx, Ly.
  destruct (assemble_nrows H W normal_map normal_mask K (Num s) Hn Hm)
    as (N1 & N2 & N3 & N4).
  destruct (assemble_numeric normal_map normal_mask K s Hnum HK Hs)
    as (A1 & A2 & A3 & A4).
  destruct (Nz_diagonal H W normal_map normal_mask K (Num s) Hn Hm)
    as (Nu & Nv & Eu & Ev & _).
  destruct (assemble_blocks normal_map normal_mask K (Num s))
    as (B1 & B2 & B3 & B4 & BA & Bb).
  fold sys in N1, N2, N3, N4, A1, A2, A3, A4, Eu, Ev, B1, B2, B3, B4, BA, Bb.
  set (N := count normal_mask) in *.
  set (bs := map Ropp xs ++ map Ropp xs ++ map Ropp ys ++ map Ropp ys).
  assert (Eb : sys_b sys = map Num bs).
  { rewrite Bb, Ex, Ey, !vneg_map_Num. unfold bs. now rewrite !map_app. }
  assert (Lb : length bs = 4 * N).
  { unfold bs. rewrite !length_app, !length_map. lia. }
  assert (Ez : matvec (sys_A sys) (repeat (Num 0) N) = repeat (Num 0) (4 * N)).
  { assert (Hr : Forall rows_in_range
                   [sys_A1 sys; sys_A2 sys; sys_A3 sys; sys_A4 sys]).
    { rewrite B1, B2, B3, B4, Eu, Ev.
      repeat constructor; apply spmm_diags_rows_in_range. }
    rewrite BA, (matvec_vstack _ _ Hr). cbn [flat_map].
    rewrite !matvec_zeros by assumption. rewrite N1, N2, N3, N4.
    apply repeat_app_4. }
  unfold initial_state. cbn [st_energy].
  rewrite sp_scale_diags, quadratic_energy_diags. cbv zeta.
  fold N. rewrite Ez, Eb, <- Lb, residual_of_zeros.
  replace (map (nmul (Num (1 / 2))) (map (fun _ : num => Num 1) (map Num bs)))
    with (map Num (map (fun _ : R => (1 / 2 * 1)%R) bs))
    by (now rewrite !map_map).
  rewrite (map_seq_map2 (fun w r => nadd (nmul w r) (Num 0)) NaN (Num 0))
    by (now rewrite !length_map).
  rewrite weighted_squares, half_squares. f_equal.
  unfold bs. rewrite !map_app, !Rsum_app, !squares_opp. field.
Qed.

Lemma normals_numeric (normal_map : grid normal) (normal_mask : grid bool)
  (K : option (grid num)) (step_size : num) :
  Forall (Forall numeric_normal) normal_map ->
  let sys := assemble normal_map normal_mask K step_size in
  numeric_vec (sys_nx sys) /\ numeric_vec (sys_ny sys).
Proof.
  intros Hnum sys. unfold sys. rewrite assemble_nx, assemble_ny.
  split; apply select_Forall, channel_Forall; auto; intros p Hp; apply Hp.
Qed.

(** X19.  For numeric normals, a numeric camera matrix and a step size
    other than zero, the initial energy (z = 0, every weight 1/2) is the
    sum of nx^2 + ny^2 over the valid pixels: half the squared norm of
    the right-hand side b. *)
Theorem initial_energy (H W : nat) (normal_map : grid normal)
  (normal_mask : grid bool) (K : option (grid num)) (s : R) :
  rect H W normal_map -> rect H W normal_mask ->
  Forall (Forall numeric_normal) normal_map -> numeric_camera K ->
  s <> 0%R ->
  let sys := assemble normal_map normal_mask K (Num s) in
  exists xs ys : list R,
    sys_nx sys = map Num xs /\ sys_ny sys = map Num ys
    /\ length xs = count normal_mask /\ length ys = count normal_mask
    /\ st_energy (initial_state sys normal_mask)
       = Num (Rsum (map (fun x => x * x) xs)
              + Rsum (map (fun y => y * y) ys))%R.
Proof.
  intros Hn Hm Hnum HK Hs sys.
  destruct (normals_numeric normal_map normal_mask K (Num s) Hnum)
    as [Nx Ny].
  fold sys in Nx, Ny.
  destruct (numeric_vec_reals _ Nx) as [xs Ex].
  destruct (numeric_vec_reals _ Ny) as [ys Ey].
  destruct (normals_at_pixels H W normal_map normal_mask K (Num s) Hn Hm)
    as [(Lx & Ly & _) _].
  fold sys in Lx, Ly. rewrite Ex in Lx. rewrite Ey in Ly.
  rewrite length_map in Lx, Ly.
  exists xs, ys. conjs; try assumption.
  now apply (initial_energy_value H W).
Qed.

Lemma initial_energy_witness :
  let normal_map := [[(Num 3, Num 4, Num (-1))]] in
  let mask := [[true]] in
  let sys := assemble normal_map mask None (Num 1) in
  (rect 1 1 normal_map /\ rect 1 1 mask
   /\ Forall (Forall numeric_normal) normal_map /\ numeric_camera None
   /\ 1%R <> 0%R)
  /\ exists e : R, st_energy (initial_state sys mask) = Num e.
Proof.
  assert (Hn : rect 1 1 [[(Num 3, Num 4, Num (-1))]])
    by (split; [reflexivity | repeat constructor]).
  assert (Hm : rect 1 1 [[true]])
    by (split; [reflexivity | repeat constructor]).
  assert (Hnum : Forall (Forall numeric_normal) [[(Num 3, Num 4, Num (-1))]])
    by (repeat constructor).
  assert (Hs : 1%R <> 0%R) by lra.
  split; [conjs; try assumption; exact I|].
  destruct (initial_energy 1 1 [[(Num 3, Num 4, Num (-1))]] [[true]] None 1
              Hn Hm Hnum I Hs) as (xs & ys & _ & _ & _ & _ & He).
  eexists. exact He.
Defined.

Lemma Rsum_squares_zero (xs : list R) :
  Forall (fun a => a = Num 0) (map Num xs) ->
  Rsum (map (fun x => x * x)%R xs) = 0%R.
Proof.
  induction xs as [|x xs IH]; intros Hx; [reflexivity|].
  cbn [map] in Hx. inversion Hx as [|? ? E Ht]; subst.
  injection E as ->. cbn [map Rsum fold_right].
  unfold Rsum in IH. rewrite (IH Ht). ring.
Qed.

(** X20.  When every normal faces the camera (first and second channel
    0), the initial energy is 0; the first relative energy then divides
    by zero and the test [relative_energy < tol] fails whatever the solver
    returns.  Called without a camera matrix, with prior arrays of the
    shape of the mask, a solver that returns a vector as long as its
    starting point and [max_iter >= 2], the function returns after at
    least two iterations. *)
Theorem facing_normals_first_iteration
  (cg : coo -> vec -> vec -> nat -> num -> vec) (H W : nat)
  (normal_map : grid normal) (normal_mask : grid bool) (k lambda1 : num)
  (depth : option (grid num * grid bool)) (s : R)
  (max_iter : nat) (tol : num) (cg_max_iter : nat) (cg_tol : num) :
  rect H W normal_map -> rect H W normal_mask -> prior_of_shape H W depth ->
  keeps_length cg ->
  Forall (Forall facing) normal_map -> s <> 0%R ->
  let sys := assemble normal_map normal_mask None (Num s) in
  let st0 := initial_state sys normal_mask in
  let depth_prior := prior_of normal_mask None depth in
  st_energy st0 = Num 0
  /\ below_tol cg sys depth_prior k lambda1 tol cg_tol cg_max_iter st0 0
     = false
  /\ (2 <= max_iter ->
      exists out,
        bilateral_normal_integration cg normal_map normal_mask k lambda1
          depth None (Num s) max_iter tol cg_max_iter cg_tol = Ok out
        /\ 2 <= length (out_energy_list out)).
Proof.
  intros Hn Hm Hp _ Hflat Hs sys st0 depth_prior.
  assert (HK : numeric_camera None) by exact I.
  assert (Hnum : Forall (Forall numeric_normal) normal_map).
  { revert Hflat. apply Forall_impl. intros row. apply Forall_impl.
    intros p (E0 & E1 & E2). unfold numeric_normal. rewrite E0, E1.
    repeat split; auto; exact I. }
  assert (Zx : Forall (fun a => a = Num 0) (sys_nx sys)).
  { unfold sys. rewrite assemble_nx. apply select_Forall.
    unfold channel. apply Forall_map. revert Hflat. apply Forall_impl.
    intros row Hrow. apply Forall_map. revert Hrow. apply Forall_impl.
    intros p Hp'. apply Hp'. }
  assert (Zy : Forall (fun a => a = Num 0) (sys_ny sys)).
  { unfold sys. rewrite assemble_ny. apply select_Forall.
    unfold channel. apply Forall_map. revert Hflat. apply Forall_impl.
    intros row Hrow. apply Forall_map. revert Hrow. apply Forall_impl.
    intros p Hp'. apply Hp'. }
  destruct (normals_numeric normal_map normal_mask None (Num s) Hnum)
    as [Nx Ny].
  fold sys in Nx, Ny.
  destruct (numeric_vec_reals _ Nx) as [xs Ex].
  destruct (numeric_vec_reals _ Ny) as [ys Ey].
  assert (E0 : st_energy st0 = Num 0).
  { unfold st0, sys.
    rewrite (initial_energy_value H W normal_map normal_mask None s xs ys)
      by assumption.
    rewrite Ex in Zx. rewrite Ey in Zy.
    rewrite (Rsum_squares_zero xs Zx), (Rsum_squares_zero ys Zy).
    f_equal. ring. }
  assert (Hb : below_tol cg sys depth_prior k lambda1 tol cg_tol cg_max_iter
                 st0 0 = false).
  { destruct (below_tol _ _ _ _ _ _ _ _ _ _) eqn:Eb; [|reflexivity].
    unfold below_tol in Eb. apply nlt_relative_energy in Eb
      as (x & y & r & _ & Ey0 & _ & Hy & _).
    change (st_energy st0 = Num y) in Ey0. rewrite E0 in Ey0.
    injection Ey0 as <-. now contradiction Hy. }
  split; [exact E0|]. split; [exact Hb|].
  intros Hmax. assert (Hpos : 0 < max_iter) by lia.
  rewrite (bni_outputs cg H W normal_map normal_mask k lambda1 depth (Num s)
             max_iter tol cg_max_iter cg_tol Hn Hm Hp Hpos).
  eexists. split; [reflexivity|]. cbn [out_energy_list].
  fold sys. fold st0. fold depth_prior.
  destruct (irls_trace cg sys depth_prior k lambda1 tol cg_tol cg_max_iter
              max_iter st0) as (n & _ & Hrun & Hlist & _ & Hexit).
  rewrite Hrun, Hlist. change (st_energy_list st0) with (@nil num).
  cbn [app]. rewrite length_map, length_seq.
  destruct Hexit as [(_ & Hn0 & Ht)|(_ & Hnm & _)]; [|lia].
  destruct n as [|[|n']]; [lia | | lia].
  cbn [Nat.sub] in Ht. congruence.
Qed.

Lemma facing_normals_first_iteration_witness :
  let cg := fun (_ : coo) (_ x0 : vec) (_ : nat) (_ : num) => x0 in
  let normal_map := [[(Num 0, Num 0, Num (-1))]] in
  let mask := [[true]] in
  (rect 1 1 normal_map /\ rect 1 1 mask /\ prior_of_shape 1 1 None
   /\ keeps_length cg
   /\ Forall (Forall facing) normal_map /\ 1%R <> 0%R)
  /\ st_energy (initial_state (assemble normal_map mask None (Num 1)) mask)
     = Num 0
  /\ exists out,
       bilateral_normal_integration cg normal_map mask (Num 2) (Num 0) None
         None (Num 1) 2 (Num (1 / 10000)) 500 (Num (1 / 100000)) = Ok out
       /\ 2 <= length (out_energy_list out).
Proof.
  assert (Hn : rect 1 1 [[(Num 0, Num 0, Num (-1))]])
    by (split; [reflexivity | repeat constructor]).
  assert (Hm : rect 1 1 [[true]])
    by (split; [reflexivity | repeat constructor]).
  assert (Hf : Forall (Forall facing) [[(Num 0, Num 0, Num (-1))]])
    by (repeat constructor).
  assert (Hs : 1%R <> 0%R) by lra.
  split; [conjs; try assumption; try exact I; exact (fun _ _ _ _ _ => eq_refl)|].
  destruct (facing_normals_first_iteration
              (fun (_ : coo) (_ x0 : vec) (_ : nat) (_ : num) => x0) 1 1
              [[(Num 0, Num 0, Num (-1))]] [[true]] (Num 2) (Num 0) None
              1 2 (Num (1 / 10000)) 500 (Num (1 / 100000))
              Hn Hm I
              (fun _ _ _ _ _ => eq_refl) Hf Hs) as (E0 & _ & Hret).
  split; [exact E0|]. apply Hret. lia.
Defined.

(** ** The depth prior *)

(** X21.  The depth prior is read at the valid pixels: at the index of a
    valid pixel the diagonal of [M] is 1 when the pixel lies in the depth
    mask and 0 when it does not, and [z_prior] is the prior depth of the
    pixel, or its logarithm when there is a camera matrix.  A positive
    prior depth is recovered from its [z_prior] by the exponential the
    function applies to its result. *)
Theorem depth_prior_setup (H W : nat) (normal_mask : grid bool)
  (K : option (grid num)) (depth_map : grid num) (depth_mask : grid bool) :
  rect H W normal_mask -> rect H W depth_map -> rect H W depth_mask ->
  exists m : vec,
    fst (make_prior normal_mask K depth_map depth_mask) = diags m
    /\ length m = count normal_mask
    /\ length (snd (make_prior normal_mask K depth_map depth_mask))
       = count normal_mask
    /\ forall r c, valid normal_mask r c ->
         let i := idx normal_mask (r, c) in
         let z_prior := snd (make_prior normal_mask K depth_map depth_mask) in
         nth i m NaN = (if get false depth_mask r c then Num 1 else Num 0)
         /\ match K with
            | None => nth i z_prior NaN = get NaN depth_map r c
            | Some _ =>
                nth i z_prior NaN = nlog (get NaN depth_map r c)
                /\ forall d : R,
                     get NaN depth_map r c = Num d -> (0 < d)%R ->
                     nexp (nth i z_prior NaN) = Num d
            end.
Proof.
  intros Hm Hd Hk.
  pose proof (rect_same_shape H W depth_mask normal_mask Hk Hm) as Sk.
  pose proof (rect_same_shape H W depth_map normal_mask Hd Hm) as Sd.
  pose proof (rect_same_shape H W _ normal_mask
                (map_grid_rect nlog H W depth_map Hd) Hm) as Sl.
  unfold make_prior. cbn [fst snd]. eexists. split; [reflexivity|].
  split; [now rewrite length_map, select_length|].
  split; [destruct K; now rewrite select_length|].
  intros r c Hv. cbv zeta.
  pose proof (idx_lt normal_mask r c Hv) as Hi. split.
  - rewrite (nth_map_lt _ _ _ false NaN) by (now rewrite select_length).
    now rewrite (nth_select false depth_mask normal_mask r c Sk Hv).
  - destruct K as [K0|].
    + destruct (valid_in_range H W normal_mask r c Hm Hv) as [Hr Hc].
      rewrite (nth_select NaN _ normal_mask r c Sl Hv).
      rewrite (get_map_grid_in nlog NaN NaN H W depth_map r c Hd Hr Hc).
      split; [reflexivity|].
      intros d Ed Hpos. rewrite Ed. cbn [nlog].
      destruct (Rlt_dec 0 d) as [_|N]; [|contradiction].
      cbn [nexp lift1]. f_equal. now apply exp_ln.
    + apply (nth_select NaN depth_map normal_mask r c Sd Hv).
Qed.

Lemma depth_prior_setup_witness :
  (rect 1 1 [[true]] /\ rect 1 1 [[Num 5]] /\ rect 1 1 [[true]])
  /\ exists m : vec,
       fst (make_prior [[true]] None [[Num 5]] [[true]]) = diags m
       /\ length m = count [[true]].
Proof.
  assert (Hm : rect 1 1 [[true]])
    by (split; [reflexivity | repeat constructor]).
  assert (Hd : rect 1 1 [[Num 5]])
    by (split; [reflexivity | repeat constructor]).
  split; [conjs; assumption|].
  destruct (depth_prior_setup 1 1 [[true]] None [[Num 5]] [[true]] Hm Hd Hm)
    as (m & Em & Lm & _).
  exists m. split; assumption.
Defined.

(** ** Errors *)



(** ** The quads in space *)

(** X23.  Without a camera matrix every facet is a square of side
    [step_size] in the x-y plane: the four vertices of the quad of a
    2 x 2 block of valid pixels, in the order the facet lists them, lie
    at (x, y), (x - step, y), (x - step, y + step) and (x, y + step),
    where (x, y) = ((H - 1 - r) * step, c * step) belongs to the top-left
    pixel (r, c), each with the depth of its own pixel. *)
Theorem facet_geometry (H W : nat) (mask : grid bool) (depth_map : grid num)
  (s : R) (r c : nat) :
  rect H W mask -> rect H W depth_map ->
  valid mask r c -> valid mask (S r) c ->
  valid mask (S r) (S c) -> valid mask r (S c) ->
  let vertices := map_depth_map_to_point_clouds depth_map mask None (Num s) in
  let x := (INR (H - 1 - r) * s)%R in
  let y := (INR c * s)%R in
  In [4; idx mask (r, c); idx mask (S r, c); idx mask (S r, S c);
      idx mask (r, S c)] (construct_facets_from mask)
  /\ nth (idx mask (r, c)) vertices []
     = [Num x; Num y; get NaN depth_map r c]
  /\ nth (idx mask (S r, c)) vertices []
     = [Num (x - s); Num y; get NaN depth_map (S r) c]
  /\ nth (idx mask (S r, S c)) vertices []
     = [Num (x - s); Num (y + s); get NaN depth_map (S r) (S c)]
  /\ nth (idx mask (r, S c)) vertices []
     = [Num x; Num (y + s); get NaN depth_map r (S c)].
Proof.
  intros Hm Hd V1 V2 V3 V4. cbv zeta.
  destruct (orthographic_vertex H W mask depth_map (Num s) Hm Hd)
    as [_ Hvertex].
  destruct (valid_in_range H W mask (S r) (S c) Hm V3) as [Hr Hc].
  assert (Ex : (INR (H - 1 - S r) * s = INR (H - 1 - r) * s - s)%R).
  { replace (H - 1 - r) with (S (H - 1 - S r)) by lia.
    rewrite S_INR. ring. }
  assert (Ey : (INR (S c) * s = INR c * s + s)%R).
  { rewrite S_INR. ring. }
  conjs.
  - rewrite (construct_facets_cells H W mask Hm). apply in_map_iff.
    exists (r, c). split; [reflexivity|].
    apply facet_cells. now conjs.
  - rewrite (Hvertex r c V1). reflexivity.
  - rewrite (Hvertex (S r) c V2). cbn [nmul lift2 of_nat]. now rewrite Ex.
  - rewrite (Hvertex (S r) (S c) V3). cbn [nmul lift2 of_nat].
    now rewrite Ex, Ey.
  - rewrite (Hvertex r (S c) V4). cbn [nmul lift2 of_nat]. now rewrite Ey.
Qed.

Lemma facet_geometry_witness :
  let mask := [[true; true]; [true; true]] in
  let depth_map := [[Num 1; Num 2]; [Num 3; Num 4]] in
  (rect 2 2 mask /\ rect 2 2 depth_map /\ valid mask 0 0 /\ valid mask 1 0
   /\ valid mask 1 1 /\ valid mask 0 1)
  /\ In [4; idx mask (0, 0); idx mask (1, 0); idx mask (1, 1);
         idx mask (0, 1)] (construct_facets_from mask).
Proof.
  assert (Hm : rect 2 2 [[true; true]; [true; true]])
    by (split; [reflexivity | repeat constructor]).
  assert (Hd : rect 2 2 [[Num 1; Num 2]; [Num 3; Num 4]])
    by (split; [reflexivity | repeat constructor]).
  split; [conjs; try assumption; reflexivity|].
  exact (proj1 (facet_geometry 2 2 [[true; true]; [true; true]]
                  [[Num 1; Num 2]; [Num 3; Num 4]] 1 0 0 Hm Hd
                  eq_refl eq_refl eq_refl eq_refl)).
Defined.

(** ** The decoding of the normal image *)

Lemma decode_channel_value (uint16 : bool) (v : Z) :
  decode_channel uint16 v
  = Num (IZR v / IZR (if uint16 then 65535 else 255) * 2 - 1)%R.
Proof.
  unfold decode_channel.
  destruct uint16; rewrite ndiv_num by lra; reflexivity.
Qed.

(** X24.  The script decodes a channel value v of the normal image, with
    top value 255 (65535 for a 16-bit image), to 2 v / top - 1: 0 goes
    to -1, the top value to 1, values in between strictly increase within
    [-1, 1], and no value decodes to 0, since the top value is odd; a
    normal read from an image never has a channel that is exactly 0. *)
Theorem decode_channel_range (uint16 : bool) (v : Z) :
  let top := (if uint16 then 65535 else 255)%Z in
  (0 <= v <= top)%Z ->
  exists x : R,
    decode_channel uint16 v = Num x
    /\ (-1 <= x <= 1)%R /\ x <> 0%R
    /\ (v = 0%Z <-> x = (-1)%R) /\ (v = top <-> x = 1%R)
    /\ forall w : Z, (v < w)%Z ->
         exists y : R, decode_channel uint16 w = Num y /\ (x < y)%R.
Proof.
  intros top [Hv0 Hv1]. rewrite decode_channel_value. fold top.
  eexists. split; [reflexivity|].
  assert (Hpos : (0 < IZR top)%R).
  { apply (IZR_lt 0). unfold top. destruct uint16; lia. }
  assert (H0 : (0 <= IZR v)%R) by now apply (IZR_le 0).
  assert (H1 : (IZR v <= IZR top)%R) by now apply IZR_le.
  assert (Hq : forall a : R,
            (a / IZR top * 2 - 1 = (2 * a - IZR top) * / IZR top)%R)
    by (intros a; field; lra).
  assert (Hi : (0 < / IZR top)%R) by now apply Rinv_0_lt_compat.
  assert (Hcancel : forall a b : R,
            (a * / IZR top = b -> a = b * IZR top)%R).
  { intros a b <-. field. lra. }
  assert (Hlow : forall a : R,
            (0 <= a -> -1 <= (2 * a - IZR top) * / IZR top)%R).
  { intros a Ha.
    replace ((2 * a - IZR top) * / IZR top)%R
      with (2 * (a * / IZR top) - 1)%R by (field; lra).
    assert (0 <= a * / IZR top)%R by (apply Rmult_le_pos; lra). lra. }
  assert (Hup : forall a b : R,
            (a < b ->
             (2 * a - IZR top) * / IZR top < (2 * b - IZR top) * / IZR top)%R).
  { intros a b Hab. apply Rmult_lt_compat_r; lra. }
  rewrite Hq. conjs.
  - now apply Hlow.
  - destruct (Req_dec_T (IZR v) (IZR top)) as [E|NE].
    + rewrite E. right. field. lra.
    + left. replace 1%R with ((2 * IZR top - IZR top) * / IZR top)%R
        by (field; lra).
      apply Hup. lra.
  - intros E. apply Hcancel in E.
    assert (E2 : IZR (2 * v) = IZR top) by (rewrite mult_IZR; lra).
    apply eq_IZR in E2. unfold top in E2. destruct uint16; lia.
  - split.
    + intros ->. field. lra.
    + intros E. apply Hcancel in E. apply (eq_IZR v 0). lra.
  - split.
    + intros ->. field. lra.
    + intros E. apply Hcancel in E. apply eq_IZR. lra.
  - intros w Hw. rewrite decode_channel_value. fold top.
    eexists. split; [reflexivity|].
    assert (Hlt : (IZR v < IZR w)%R) by now apply IZR_lt.
    rewrite Hq. now apply Hup.
Qed.

Lemma decode_channel_range_witness :
  (0 <= 128 <= 255)%Z
  /\ exists x : R, decode_channel false 128 = Num x /\ x <> 0%R.
Proof.
  assert (Hv : (0 <= 128 <= 255)%Z) by lia.
  split; [exact Hv|].
  destruct (decode_channel_range false 128 Hv) as (x & Ex & _ & Hx & _).
  exists x. split; assumption.
Defined.

(** ** The prior term with lambda1 = 0 *)

Lemma nadd_zero_r (a : num) : nadd a (Num 0) = a.
Proof. destruct a as [x|]; [|reflexivity]. cbn. f_equal. ring. Qed.

Lemma vadd_zeros (u : vec) :
  vadd u (repeat (Num 0) (length u)) = u.
Proof.
  unfold vadd. induction u as [|a u IH]; [reflexivity|].
  cbn [length repeat map2]. now rewrite IH, nadd_zero_r.
Qed.

Lemma fold_nadd_zeros (l1 l2 : vec) :
  nsum l2 = Num 0 -> nsum (l1 ++ l2) = nsum l1.
Proof.
  intros E. unfold nsum in *. now rewrite fold_right_app, E.
Qed.

Lemma row_entries_sp_add (A B : coo) (i : nat) :
  row_entries (sp_add A B) i = row_entries A i ++ row_entries B i.
Proof. unfold row_entries, sp_add. cbn [entries]. apply filter_app. Qed.

(** Row [i] of [0 * diags(m)] times a vector of numbers is 0. *)
Lemma row_dot_zero_diags (m : list R) (x : list R) (i : nat) :
  row_dot (sp_scale (Num 0) (diags (map Num m))) i (map Num x) = Num 0.
Proof.
  rewrite sp_scale_diags, map_map. unfold row_dot, row_entries, diags.
  cbn [entries]. rewrite row_entries_diags_from, length_map.
  destruct (Nat.lt_ge_cases i (length m)) as [Hlt|Hge].
  - replace ((0 <=? i) && (i <? 0 + length m)) with true
      by (symmetry; apply andb_true_iff; split;
          [apply Nat.leb_le; lia | apply Nat.ltb_lt; lia]).
    cbn [map entry_val entry_col fst snd nsum fold_right].
    rewrite Nat.sub_0_r, (nth_map_lt _ m i 0%R NaN Hlt).
    assert (Ex : exists y, nth i (map Num x) (Num 0) = Num y).
    { destruct (Nat.lt_ge_cases i (length x)) as [Hx|Hx].
      - rewrite (nth_map_lt Num x i 0%R (Num 0) Hx). eauto.
      - rewrite nth_overflow by (now rewrite length_map). eauto. }
    destruct Ex as [y ->]. cbn. f_equal. ring.
  - replace ((0 <=? i) && (i <? 0 + length m)) with false; [reflexivity|].
    symmetry. apply andb_false_iff. right. apply Nat.ltb_ge. lia.
Qed.

Lemma prior_matrix_reals (m : list bool) :
  prior_matrix m
  = diags (map Num (map (fun b : bool => if b then 1 else 0)%R m)).
Proof.
  unfold prior_matrix. rewrite map_map. f_equal. apply map_ext.
  now intros [|].
Qed.

Lemma map_const_seq {A : Type} (x : A) (start n : nat) :
  map (fun _ => x) (seq start n) = repeat x n.
Proof.
  revert start; induction n as [|n IH]; intros start; [reflexivity|].
  cbn [seq map repeat]. now rewrite IH.
Qed.

(** X25.  With [lambda1 = 0], the default, a depth prior made of numbers
    leaves the linear system as it is without a prior: the right-hand
    side handed to the solver is [A.T @ W @ b], and the matrix handed to
    it acts on every vector of numbers as [A.T @ W @ A] does.  The prior
    then only moves the starting point of the solver by the offset. *)
Theorem zero_lambda_prior
  (cg : coo -> vec -> vec -> nat -> num -> vec) (sys : linear_system)
  (cg_tol : num) (cg_max_iter : nat) (Wt : coo) (z : vec) (m : list bool)
  (zp : list R) :
  ncols (sys_A sys) = length m ->
  let M := prior_matrix m in
  let z_prior := map Num zp in
  let AtW := spmm (transpose (sys_A sys)) Wt in
  exists A_mat b_mat,
    solve cg sys (Some (M, z_prior)) (Num 0) cg_tol cg_max_iter Wt z
    = cg A_mat b_mat (vadd_scalar z (prior_offset M z_prior z)) cg_max_iter
        cg_tol
    /\ solve cg sys None (Num 0) cg_tol cg_max_iter Wt z
       = cg (spmm AtW (sys_A sys)) (matvec AtW (sys_b sys)) z cg_max_iter
           cg_tol
    /\ b_mat = matvec AtW (sys_b sys)
    /\ forall x : list R,
         matvec A_mat (map Num x) = matvec (spmm AtW (sys_A sys)) (map Num x).
Proof.
  intros Hcols M z_prior AtW. unfold solve. do 2 eexists.
  split; [reflexivity|]. split; [reflexivity|]. fold AtW. split.
  - unfold M. rewrite prior_matrix_reals.
    replace (matvec (sp_scale (Num 0) (diags (map Num _))) z_prior)
      with (repeat (Num 0) (length (matvec AtW (sys_b sys)))).
    + apply vadd_zeros.
    + unfold matvec at 2.
      rewrite (map_ext _ (fun _ => Num 0))
        by (intros i; apply row_dot_zero_diags).
      rewrite map_const_seq, matvec_length. f_equal.
      unfold AtW, sp_scale, map_values, diags, transpose, nrows, spmm.
      cbn [shape fst]. rewrite !length_map. exact Hcols.
  - intros x. unfold matvec.
    change (nrows (sp_add (spmm AtW (sys_A sys)) (sp_scale (Num 0) M)))
      with (nrows (spmm AtW (sys_A sys))).
    apply map_ext. intros i. unfold row_dot at 1.
    rewrite row_entries_sp_add, map_app.
    apply fold_nadd_zeros. unfold M. rewrite prior_matrix_reals.
    apply row_dot_zero_diags.
Qed.

Lemma zero_lambda_prior_witness :
  let cg := fun (_ : coo) (_ x0 : vec) (_ : nat) (_ : num) => x0 in
  let sys := assemble [[(Num 0, Num 1, Num (-1))]] [[true]] None (Num 1) in
  ncols (sys_A sys) = length [true]
  /\ exists A_mat b_mat,
       solve cg sys (Some (prior_matrix [true], map Num [5%R])) (Num 0)
         (Num 0) 0 (diags []) [Num 0]
       = cg A_mat b_mat
           (vadd_scalar [Num 0]
              (prior_offset (prior_matrix [true]) (map Num [5%R]) [Num 0]))
           0 (Num 0).
Proof.
  assert (Hc : ncols (sys_A (assemble [[(Num 0, Num 1, Num (-1))]] [[true]]
                               None (Num 1))) = length [true]) by reflexivity.
  split; [exact Hc|].
  destruct (zero_lambda_prior
              (fun (_ : coo) (_ x0 : vec) (_ : nat) (_ : num) => x0)
              (assemble [[(Num 0, Num 1, Num (-1))]] [[true]] None (Num 1))
              (Num 0) 0 (diags []) [Num 0] [true] [5%R] Hc)
    as (A_mat & b_mat & E & _).
  exists A_mat, b_mat. exact E.
Defined.

(** ** The equations of a pixel *)

Lemma scaled_row_dot (Nu : vec) (D : coo) (s : R) (z : vec) (i j1 j2 : nat)
  (n a b : R) :
  s <> 0%R -> i < length Nu -> nth i Nu NaN = Num n ->
  row_entries D i = [(i, j1, Num (-1)); (i, j2, Num 1)] ->
  nth j1 z (Num 0) = Num a -> nth j2 z (Num 0) = Num b ->
  row_dot (spmm (diags Nu) (sp_div D (Num s))) i z
  = Num (n * ((b - a) / s))%R.
Proof.
  intros Hs Hi En Hrow Ea Eb. unfold row_dot.
  rewrite (spmm_diags_row Nu _ i Hi), row_entries_sp_div, Hrow, En.
  cbn [map entry_val entry_col entry_row fst snd nsum fold_right].
  rewrite Ea, Eb, !ndiv_num by exact Hs. cbn. f_equal. field. exact Hs.
Qed.

Lemma scaled_row_dot_empty (Nu : vec) (D : coo) (step_size : num) (z : vec)
  (i : nat) :
  i < length Nu -> row_entries D i = [] ->
  row_dot (spmm (diags Nu) (sp_div D step_size)) i z = Num 0.
Proof.
  intros Hi Hrow. unfold row_dot.
  now rewrite (spmm_diags_row Nu _ i Hi), row_entries_sp_div, Hrow.
Qed.

Lemma nth_app4 {A : Type} (d : A) (l1 l2 l3 l4 : list A) (N i : nat) :
  length l1 = N -> length l2 = N -> length l3 = N -> i < N ->
  nth i (l1 ++ l2 ++ l3 ++ l4) d = nth i l1 d
  /\ nth (N + i) (l1 ++ l2 ++ l3 ++ l4) d = nth i l2 d
  /\ nth (2 * N + i) (l1 ++ l2 ++ l3 ++ l4) d = nth i l3 d
  /\ nth (3 * N + i) (l1 ++ l2 ++ l3 ++ l4) d = nth i l4 d.
Proof.
  intros L1 L2 L3 Hi. conjs.
  - now rewrite app_nth1 by lia.
  - rewrite app_nth2 by lia. rewrite app_nth1 by lia. f_equal. lia.
  - rewrite app_nth2 by lia. rewrite app_nth2 by lia.
    rewrite app_nth1 by lia. f_equal. lia.
  - rewrite app_nth2 by lia. rewrite app_nth2 by lia.
    rewrite app_nth2 by lia. f_equal. lia.
Qed.

(** X26.  The four rows of [A @ z] that belong to a valid pixel are the
    one-sided differences of the depths, scaled by the pixel's
    coefficient: with z the depth of the pixel, Nu and Nv its entries of
    [Nz_u] and [Nz_v] and s the step size, row i is Nu (z_above - z) / s,
    row N + i is Nu (z - z_below) / s, row 2N + i is Nv (z_right - z) / s
    and row 3N + i is Nv (z - z_left) / s, each for a valid neighbour
    with a numeric depth, and 0 when the pixel has no valid neighbour on
    that side. *)
Theorem pixel_equations (H W : nat) (normal_map : grid normal)
  (normal_mask : grid bool) (K : option (grid num)) (s : R) (z : vec)
  (r c : nat) (nu nv x : R) :
  rect H W normal_map -> rect H W normal_mask -> s <> 0%R ->
  valid normal_mask r c ->
  let sys := assemble normal_map normal_mask K (Num s) in
  let N := count normal_mask in
  let i := idx normal_mask (r, c) in
  let Az := matvec (sys_A sys) z in
  let depth := fun p => nth (idx normal_mask p) z (Num 0) in
  nth i (diagonal (sys_Nz_u sys)) NaN = Num nu ->
  nth i (diagonal (sys_Nz_v sys)) NaN = Num nv ->
  depth (r, c) = Num x ->
  (match r with
   | S r' =>
       (forall y, valid normal_mask r' c -> depth (r', c) = Num y ->
          nth i Az NaN = Num (nu * ((y - x) / s))%R)
       /\ (get false normal_mask r' c = false -> nth i Az NaN = Num 0)
   | 0 => nth i Az NaN = Num 0
   end)
  /\ (forall y, valid normal_mask (S r) c -> depth (S r, c) = Num y ->
        nth (N + i) Az NaN = Num (nu * ((x - y) / s))%R)
  /\ (get false normal_mask (S r) c = false -> nth (N + i) Az NaN = Num 0)
  /\ (forall y, valid normal_mask r (S c) -> depth (r, S c) = Num y ->
        nth (2 * N + i) Az NaN = Num (nv * ((y - x) / s))%R)
  /\ (get false normal_mask r (S c) = false ->
      nth (2 * N + i) Az NaN = Num 0)
  /\ (match c with
      | S c' =>
          (forall y, valid normal_mask r c' -> depth (r, c') = Num y ->
             nth (3 * N + i) Az NaN = Num (nv * ((x - y) / s))%R)
          /\ (get false normal_mask r c' = false ->
              nth (3 * N + i) Az NaN = Num 0)
      | 0 => nth (3 * N + i) Az NaN = Num 0
      end).
Proof.
  intros Hn Hm Hs Hv sys N i Az depth Enu Env Ex.
  destruct (Nz_diagonal H W normal_map normal_mask K (Num s) Hn Hm)
    as (Nu & Nv & Eu & Ev & Lu & Lv).
  destruct (assemble_blocks normal_map normal_mask K (Num s))
    as (B1 & B2 & B3 & B4 & BA & _).
  destruct (assemble_nrows H W normal_map normal_mask K (Num s) Hn Hm)
    as (N1 & N2 & N3 & N4).
  fold sys in Eu, Ev, B1, B2, B3, B4, BA, N1, N2, N3, N4.
  rewrite Eu, diagonal_diags in Enu. rewrite Ev, diagonal_diags in Env.
  rewrite Eu in B1, B2. rewrite Ev in B3, B4.
  pose proof (idx_lt normal_mask r c Hv) as Hi. fold i N in Hi.
  assert (Hr : Forall rows_in_range
                 [sys_A1 sys; sys_A2 sys; sys_A3 sys; sys_A4 sys]).
  { rewrite B1, B2, B3, B4.
    repeat constructor; apply spmm_diags_rows_in_range. }
  assert (EA : Az = matvec (sys_A1 sys) z ++ matvec (sys_A2 sys) z
                    ++ matvec (sys_A3 sys) z ++ matvec (sys_A4 sys) z).
  { unfold Az. rewrite BA, (matvec_vstack _ _ Hr). cbn [flat_map].
    now rewrite app_nil_r. }
  destruct (nth_app4 NaN (matvec (sys_A1 sys) z) (matvec (sys_A2 sys) z)
              (matvec (sys_A3 sys) z) (matvec (sys_A4 sys) z) N i)
    as (P1 & P2 & P3 & P4);
    try (rewrite matvec_length; assumption); try exact Hi.
  rewrite EA, P1, P2, P3, P4.
  rewrite !nth_matvec by (fold N; lia).
  rewrite B1, B2, B3, B4.
  pose proof (D_vertical_pos_row H W normal_mask Hm r c Hv) as R1.
  pose proof (D_vertical_neg_row H W normal_mask Hm r c Hv) as R2.
  pose proof (D_horizontal_pos_row H W normal_mask Hm r c Hv) as R3.
  pose proof (D_horizontal_neg_row H W normal_mask Hm r c Hv) as R4.
  fold i in R1, R2, R3, R4. unfold depth in *. fold i in Ex.
  assert (Hiu : i < length Nu) by (rewrite Lu; exact Hi).
  assert (Hiv : i < length Nv) by (rewrite Lv; exact Hi).
  conjs.
  - destruct r as [|r']; [now apply scaled_row_dot_empty|]. split.
    + intros y Hy Ey. unfold valid in Hy. rewrite Hy in R1.
      eapply (scaled_row_dot Nu _ s z i); eassumption.
    + intros Hy. rewrite Hy in R1. now apply scaled_row_dot_empty.
  - intros y Hy Ey. unfold valid in Hy. rewrite Hy in R2.
    eapply (scaled_row_dot Nu _ s z i); eassumption.
  - intros Hy. rewrite Hy in R2. now apply scaled_row_dot_empty.
  - intros y Hy Ey. unfold valid in Hy. rewrite Hy in R3.
    eapply (scaled_row_dot Nv _ s z i); eassumption.
  - intros Hy. rewrite Hy in R3. now apply scaled_row_dot_empty.
  - destruct c as [|c']; [now apply scaled_row_dot_empty|]. split.
    + intros y Hy Ey. unfold valid in Hy. rewrite Hy in R4.
      eapply (scaled_row_dot Nv _ s z i); eassumption.
    + intros Hy. rewrite Hy in R4. now apply scaled_row_dot_empty.
Qed.

Lemma pixel_equations_witness :
  let normal_map := [[(Num 0, Num 1, Num (-1))]; [(Num 0, Num 1, Num (-1))]] in
  let mask := [[true]; [true]] in
  let sys := assemble normal_map mask None (Num 1) in
  let z := [Num (-1 / 2); Num (1 / 2)] in
  (rect 2 1 normal_map /\ rect 2 1 mask /\ 1%R <> 0%R /\ valid mask 0 0
   /\ nth (idx mask (0, 0)) (diagonal (sys_Nz_u sys)) NaN = Num (- (-1))
   /\ nth (idx mask (0, 0)) (diagonal (sys_Nz_v sys)) NaN = Num (- (-1))
   /\ nth (idx mask (0, 0)) z (Num 0) = Num (-1 / 2))
  /\ nth (count mask + idx mask (0, 0)) (matvec (sys_A sys) z) NaN
     = Num (- (-1) * ((-1 / 2 - 1 / 2) / 1))%R.
Proof.
  assert (Hn : rect 2 1 [[(Num 0, Num 1, Num (-1))];
                         [(Num 0, Num 1, Num (-1))]])
    by (split; [reflexivity | repeat constructor]).
  assert (Hm : rect 2 1 [[true]; [true]])
    by (split; [reflexivity | repeat constructor]).
  assert (Hs : 1%R <> 0%R) by lra.
  split; [conjs; try assumption; reflexivity|].
  exact (proj1 (proj2 (pixel_equations 2 1 _ _ None 1
                         [Num (-1 / 2); Num (1 / 2)] 0 0 (- (-1)) (- (-1))
                         (-1 / 2) Hn Hm Hs eq_refl eq_refl eq_refl eq_refl))
           (1 / 2)%R eq_refl eq_refl).
Defined.
